(** * Merit-order production plan: a model of [app.py]

    The development follows [app.py]: the [PowerPlant] class with its
    cost model, the [ProductionPlanCalculator] with the merit-order sort,
    the wind pass, the greedy multi-pass loop and the final adjustment,
    and the [/productionplan] endpoint.

    Numbers.  The source annotates [pmin], [pmax] and [target_load] as
    [int]; they are [Z] here.  Everything the source computes in [float]
    (prices, efficiency, the wind percentage, the allocated [p] and the
    remaining load) is an exact rational [Q]: binary rounding error of
    IEEE doubles is not part of the model, the decimal rounding
    [round(x * 10) / 10] of the source is, with Python's ties-to-even
    [round].  Comparisons on [Q] are the decidable [Qle_bool] and
    [Qeq_bool]. *)

From Stdlib Require Import ZArith QArith Qabs Qround List String Bool Lia Lqa
  Permutation Sorted.
Import ListNotations.

Abbreviation length := List.length.

Open Scope Q_scope.

(** ** Python numbers *)

Definition Qlt_bool (x y : Q) : bool := negb (Qle_bool y x).

(** [min(a, b)] and [max(a, b)] of Python return the first argument
    unless the second is strictly smaller, respectively larger. *)
Definition py_min (a b : Q) : Q := if Qlt_bool b a then b else a.
Definition py_max (a b : Q) : Q := if Qlt_bool a b then b else a.

(** [round(x)] with one argument: the nearest integer, ties to the even
    one. *)
Definition py_round (x : Q) : Z :=
  let n := Qnum x in
  let d := Zpos (Qden x) in
  let f := (n / d)%Z in
  match (2 * (n mod d) ?= d)%Z with
  | Lt => f
  | Gt => (f + 1)%Z
  | Eq => if Z.even f then f else (f + 1)%Z
  end.

(** [round(x * 10) / 10], the source's rounding to 0.1 MW. *)
Definition round1 (x : Q) : Q := inject_Z (py_round (x * 10)) / 10.

(** [int(x)]: truncation toward zero. *)
Definition py_int (x : Q) : Z := Z.quot (Qnum x) (Zpos (Qden x)).

Definition tenth : Q := 1 # 10.

(** ** [class PowerPlant] *)

Record PowerPlant := mkPowerPlant {
  name : string;
  type : string;
  efficiency : Q;
  pmin : Z;
  pmax : Z;
  cost_per_mwh : Q;
  available_power : Z
}.

(** What [PowerPlant.__init__] builds. *)
Definition new_PowerPlant (nm ty : string) (eff : Q) (lo hi : Z) : PowerPlant :=
  mkPowerPlant nm ty eff lo hi 0 0%Z.

Inductive exn := ZeroDivisionError.

Inductive result (A : Type) :=
| Ok (a : A)
| Raise (e : exn).
Arguments Ok {A} a.
Arguments Raise {A} e.

(** Python's [/] on floats raises on a zero divisor. *)
Definition py_div (a b : Q) : result Q :=
  if Qeq_bool b 0 then Raise ZeroDivisionError else Ok (a / b).

Definition bind {A B} (r : result A) (k : A -> result B) : result B :=
  match r with
  | Ok a => k a
  | Raise e => Raise e
  end.

Notation "x <- r ;; k" := (bind r (fun x => k))
  (at level 61, r at next level, right associativity).

Definition is_wind (pl : PowerPlant) : bool := String.eqb (type pl) "windturbine".
Definition is_gas (pl : PowerPlant) : bool := String.eqb (type pl) "gasfired".
Definition is_turbojet (pl : PowerPlant) : bool := String.eqb (type pl) "turbojet".

Definition set_cost (pl : PowerPlant) (c : Q) (a : Z) : PowerPlant :=
  mkPowerPlant (name pl) (type pl) (efficiency pl) (pmin pl) (pmax pl) c a.

(** [PowerPlant.calculate_cost] *)
Definition calculate_cost (pl : PowerPlant)
    (gas_price kerosine_price co2_price wind_percentage : Q) : result PowerPlant :=
  if is_wind pl then
    Ok (set_cost pl 0 (py_int (inject_Z (pmax pl) * wind_percentage / 100)))
  else if is_gas pl then
    fuel_cost_per_mwh <- py_div gas_price (efficiency pl) ;;
    co2_cost_per_mwh <- py_div ((3 # 10) * co2_price) (efficiency pl) ;;
    Ok (set_cost pl (fuel_cost_per_mwh + co2_cost_per_mwh) (pmax pl))
  else if is_turbojet pl then
    fuel_cost_per_mwh <- py_div kerosine_price (efficiency pl) ;;
    Ok (set_cost pl fuel_cost_per_mwh (pmax pl))
  else Ok pl.

(** ** The merit-order sort

    [self.plants.sort(key=lambda p: (p.cost_per_mwh, -p.available_power))]:
    a stable sort on the key, tuples compared lexicographically. *)

Definition merit_key (pl : PowerPlant) : Q * Z :=
  (cost_per_mwh pl, (- available_power pl)%Z).

Definition key_lt (a b : Q * Z) : bool :=
  Qlt_bool (fst a) (fst b) || (Qeq_bool (fst a) (fst b) && (snd a <? snd b)%Z).

(** Stable insertion: [x] stood before every element of [l] and goes
    past those with a strictly smaller key only. *)
Fixpoint insert_stable (x : PowerPlant) (l : list PowerPlant) : list PowerPlant :=
  match l with
  | [] => [x]
  | y :: l' =>
      if key_lt (merit_key y) (merit_key x) then y :: insert_stable x l'
      else x :: l
  end.

Fixpoint sort_plants (l : list PowerPlant) : list PowerPlant :=
  match l with
  | [] => []
  | x :: l' => insert_stable x (sort_plants l')
  end.

(** ** The production plan: a list of [{"name": ..., "p": ...}] *)

Record entry := mkEntry { e_name : string; e_p : Q }.

(** [production_plan[i]["p"]].  The plan has one entry per plant and the
    loops index it by the plants ([inv_length] below), so the index is in
    range wherever the source reads it; the default is never used. *)
Definition get_p (plan : list entry) (i : nat) : Q :=
  match nth_error plan i with
  | Some e => e_p e
  | None => 0
  end.

(** [production_plan[i]["p"] = v] *)
Fixpoint set_p (plan : list entry) (i : nat) (v : Q) : list entry :=
  match plan, i with
  | [], _ => []
  | e :: rest, O => mkEntry (e_name e) v :: rest
  | e :: rest, S j => e :: set_p rest j v
  end.

(** [sum(item["p"] for item in production_plan)] *)
Definition plan_sum (plan : list entry) : Q :=
  fold_left (fun acc e => acc + e_p e) plan 0.

(** [enumerate(l)], from a start index. *)
Fixpoint enumerate_from {A} (k : nat) (l : list A) : list (nat * A) :=
  match l with
  | [] => []
  | x :: l' => (k, x) :: enumerate_from (S k) l'
  end.

Definition enumerate {A} (l : list A) : list (nat * A) := enumerate_from 0 l.

(** The two [logger.warning] calls; [logger.info] is not modelled. *)
Inductive event :=
| CouldNotSatisfy (remaining_load : Q)
| ProductionDifference (difference : Q).

Record dstate := mkState {
  production_plan_of : list entry;
  remaining_load : Q;
  made_progress : bool;
  log : list event
}.

(** ** [_optimize_production] *)

(** Body of the wind loop. *)
Definition wind_step (st : dstate) (ip : nat * PowerPlant) : dstate :=
  let (i, plant) := ip in
  if is_wind plant && Qlt_bool 0 (remaining_load st) then
    let production := py_min (inject_Z (available_power plant)) (remaining_load st) in
    let production := round1 production in
    mkState (set_p (production_plan_of st) i production)
            (remaining_load st - production)
            (made_progress st) (log st)
  else st.

Definition wind_pass (plants : list PowerPlant) (st : dstate) : dstate :=
  fold_left wind_step (enumerate plants) st.

(** Body of the [for i in plant_indices] loop; the boolean tells whether
    the [break] was taken.  [plant_indices] is [range(len(self.plants))],
    so the loop runs over [enumerate(self.plants)]. *)
Definition greedy_unit (st : dstate) (ip : nat * PowerPlant) : dstate * bool :=
  let (i, plant) := ip in
  let current_production := get_p (production_plan_of st) i in
  if is_wind plant || Qle_bool (inject_Z (pmax plant)) current_production then
    (st, false)
  else
    let min_increment :=
      if Qeq_bool current_production 0
      then py_max (inject_Z (pmin plant)) tenth
      else tenth in
    let max_possible :=
      py_min (inject_Z (pmax plant)) (remaining_load st + current_production) in
    if Qle_bool min_increment max_possible then
      let increment :=
        if Qeq_bool current_production 0
        then py_max (py_min (remaining_load st) (inject_Z (pmax plant)))
                    (inject_Z (pmin plant))
        else py_min (remaining_load st)
                    (inject_Z (pmax plant) - current_production) in
      let increment := round1 increment in
      if Qle_bool tenth increment then
        let st' :=
          mkState (set_p (production_plan_of st) i
                         (round1 (current_production + increment)))
                  (round1 (remaining_load st - increment))
                  true (log st) in
        (st', Qle_bool (remaining_load st') tenth)
      else (st, false)
    else (st, false).

Fixpoint greedy_pass (l : list (nat * PowerPlant)) (st : dstate) : dstate :=
  match l with
  | [] => st
  | ip :: rest =>
      let (st', stop) := greedy_unit st ip in
      if stop then st' else greedy_pass rest st'
  end.

Definition clear_progress (st : dstate) : dstate :=
  mkState (production_plan_of st) (remaining_load st) false (log st).

Definition warn (st : dstate) (e : event) : dstate :=
  mkState (production_plan_of st) (remaining_load st) (made_progress st)
          (log st ++ [e]).

(** The [while remaining_load > 0.1] loop.  [fuel] bounds the number of
    passes, that is of executions of the loop body; the loop test itself
    costs nothing. *)
Fixpoint greedy_loop (fuel : nat) (plants : list PowerPlant) (st : dstate)
  : option dstate :=
  if Qlt_bool tenth (remaining_load st) then
    match fuel with
    | O => None
    | S fuel' =>
        let st' := greedy_pass (enumerate plants) (clear_progress st) in
        if made_progress st' then greedy_loop fuel' plants st'
        else Some (warn st' (CouldNotSatisfy (remaining_load st')))
    end
  else Some st.

(** The [for i in reversed(range(len(production_plan)))] loop of the
    final adjustment, over the reversed enumeration. *)
Fixpoint adjust_scan (l : list (nat * PowerPlant)) (difference : Q)
    (plan : list entry) : list entry :=
  match l with
  | [] => plan
  | (i, plant) :: rest =>
      if Qlt_bool 0 (get_p plan i) then
        let new_production := get_p plan i + difference in
        if Qle_bool (inject_Z (pmin plant)) new_production
           && Qle_bool new_production (inject_Z (pmax plant))
        then set_p plan i (round1 new_production)
        else adjust_scan rest difference plan
      else adjust_scan rest difference plan
  end.

Definition final_adjustment (plants : list PowerPlant) (target_load : Z)
    (st : dstate) : dstate :=
  let total_production := plan_sum (production_plan_of st) in
  let difference := inject_Z target_load - total_production in
  if Qlt_bool tenth (Qabs difference) then
    let st' := warn st (ProductionDifference difference) in
    mkState (adjust_scan (rev (enumerate plants)) difference (production_plan_of st'))
            (remaining_load st') (made_progress st') (log st')
  else st.

Definition initial_plan (plants : list PowerPlant) : list entry :=
  map (fun plant => mkEntry (name plant) 0) plants.

Definition initial_state (plants : list PowerPlant) (target_load : Z) : dstate :=
  mkState (initial_plan plants) (inject_Z target_load) false [].

(** [_optimize_production], with the pass budget of the loop; [None] is
    an exhausted budget. *)
Definition _optimize_production (fuel : nat) (plants : list PowerPlant)
    (target_load : Z) : option (list entry * list event) :=
  match greedy_loop fuel plants (wind_pass plants (initial_state plants target_load)) with
  | None => None
  | Some st =>
      let st' := final_adjustment plants target_load st in
      Some (production_plan_of st', log st')
  end.

(** ** [calculate_production_plan] *)

Record Fuels := mkFuels {
  gas_price : Q;        (* "gas(euro/MWh)" *)
  kerosine_price : Q;   (* "kerosine(euro/MWh)" *)
  co2_price : Q;        (* "co2(euro/ton)" *)
  wind_percentage : Q   (* "wind(%)" *)
}.

Record PlantData := mkPlantData {
  d_name : string;
  d_type : string;
  d_efficiency : Q;
  d_pmin : Z;
  d_pmax : Z
}.

Record Payload := mkPayload {
  load : Z;
  fuels : Fuels;
  powerplants : list PlantData
}.

(** The loop that builds [self.plants]. *)
Fixpoint build_plants (fu : Fuels) (l : list PlantData) : result (list PowerPlant) :=
  match l with
  | [] => Ok []
  | plant_data :: rest =>
      plant <- calculate_cost
                 (new_PowerPlant (d_name plant_data) (d_type plant_data)
                    (d_efficiency plant_data) (d_pmin plant_data) (d_pmax plant_data))
                 (gas_price fu) (kerosine_price fu) (co2_price fu)
                 (wind_percentage fu) ;;
      plants <- build_plants fu rest ;;
      Ok (plant :: plants)
  end.

Definition calculate_production_plan (fuel : nat) (payload : Payload)
  : option (result (list entry * list event)) :=
  match build_plants (fuels payload) (powerplants payload) with
  | Raise e => Some (Raise e)
  | Ok plants =>
      match _optimize_production fuel (sort_plants plants) (load payload) with
      | None => None
      | Some r => Some (Ok r)
      end
  end.

(** ** The [/productionplan] endpoint *)

(** A JSON body with its three top-level keys, each present or not. *)
Record JsonPayload := mkJson {
  j_load : option Z;
  j_fuels : option Fuels;
  j_powerplants : option (list PlantData)
}.

Inductive http_request :=
| NotJson
| Json (payload : JsonPayload).

Inductive body :=
| PlanBody (plan : list entry)
| ErrorBody (msg : string).

(** [jsonify(...), status]; a bare [jsonify] answers 200. *)
Definition response : Type := body * Z.

Definition production_plan (fuel : nat) (request : http_request) : option response :=
  match request with
  | NotJson => Some (ErrorBody "Request must be JSON", 400%Z)
  | Json payload =>
      match j_load payload, j_fuels payload, j_powerplants payload with
      | Some ld, Some fu, Some pp =>
          match calculate_production_plan fuel (mkPayload ld fu pp) with
          | None => None
          | Some (Ok (plan, _)) => Some (PlanBody plan, 200%Z)
          | Some (Raise _) => Some (ErrorBody "Internal server error", 500%Z)
          end
      | _, _, _ => Some (ErrorBody "Invalid payload structure", 400%Z)
      end
  end.

(** ** The request of [test_api.py] *)

Definition payload1 : Payload :=
  mkPayload 480
    (mkFuels (134 # 10) (508 # 10) 20 60)
    [ mkPlantData "gasfiredbig1" "gasfired" (53 # 100) 100 460;
      mkPlantData "gasfiredbig2" "gasfired" (53 # 100) 100 460;
      mkPlantData "gasfiredsomewhatsmaller" "gasfired" (37 # 100) 40 210;
      mkPlantData "tj1" "turbojet" (3 # 10) 0 16;
      mkPlantData "windpark1" "windturbine" 1 0 150;
      mkPlantData "windpark2" "windturbine" 1 0 36 ].

(** ** Predicates used by the properties *)

(** [lra] reads [x / 10] once the division is the product by [1 # 10]. *)
Ltac unfold_round1 :=
  unfold round1, Qdiv in *; change (/ 10) with (1 # 10) in *.

(** A whole number. *)
Definition integral (q : Q) : Prop := exists k : Z, q == inject_Z k.

(** The invariant of a run, see the section of the same name below. *)
Record Inv (plants : list PowerPlant) (target : Z) (st : dstate) : Prop := {
  inv_names : map e_name (production_plan_of st) = map name plants;
  inv_rem : integral (remaining_load st);
  inv_plan : forall i, integral (get_p (production_plan_of st) i);
  inv_sum :
    plan_sum (production_plan_of st) + remaining_load st == inject_Z target;
  inv_nonneg :
    0 <= remaining_load st \/ forall i, get_p (production_plan_of st) i == 0
}.


(** The sum of the plan is within 0.1 MW of the load. *)
Definition load_conserved (target : Z) (plan : list entry) : Prop :=
  Qabs (plan_sum plan - inject_Z target) <= tenth.

(** Total available capacity of the units. *)
Definition total_available (plants : list PowerPlant) : Z :=
  fold_right Z.add 0%Z (map available_power plants).

(** The run stalled: the loop logged that it could not satisfy the load. *)
Definition is_could_not_satisfy (e : event) : bool :=
  match e with
  | CouldNotSatisfy _ => true
  | ProductionDifference _ => false
  end.

Definition stalled (lg : list event) : bool := existsb is_could_not_satisfy lg.

(** The final adjustment was entered. *)
Definition is_production_difference (e : event) : bool :=
  match e with
  | CouldNotSatisfy _ => false
  | ProductionDifference _ => true
  end.

Definition adjusted (lg : list event) : bool :=
  existsb is_production_difference lg.

(** A cost-bearing unit is any unit the greedy loop does not skip as a
    wind turbine; it is saturated once its [p] has reached [pmax]. *)
Definition cost_bearing (plant : PowerPlant) : bool := negb (is_wind plant).

Definition cost_bearing_units (plants : list PowerPlant) : nat :=
  length (filter cost_bearing plants).

Definition saturated (plan : list entry) (ip : nat * PowerPlant) : bool :=
  cost_bearing (snd ip)
  && Qle_bool (inject_Z (pmax (snd ip))) (get_p plan (fst ip)).

Definition saturated_units (plants : list PowerPlant) (plan : list entry) : nat :=
  length (filter (saturated plan) (enumerate plants)).

(** The loop finishes within [k] passes. *)
Definition passes_within (k : nat) (plants : list PowerPlant) (target : Z) : Prop :=
  exists r, _optimize_production k plants target = Some r.

(** In merit order: no unit has a strictly smaller key than the one
    before it. *)
Definition merit_le (a b : PowerPlant) : Prop :=
  key_lt (merit_key b) (merit_key a) = false.

(** ** [_optimize_production] step by step

    The same function as a transition system, one loop body per step, to
    speak about the states a run goes through.  The program points are:
    inside the wind loop with the units still to visit, at the test of
    the [while], inside a pass with the units still to visit, before the
    final adjustment, and at the [return]. *)

Inductive pc :=
| InWind (todo : list (nat * PowerPlant))
| LoopTest
| InPass (todo : list (nat * PowerPlant))
| BeforeAdjust
| Return.

Definition config : Type := pc * dstate.

Inductive step (plants : list PowerPlant) (target : Z) : config -> config -> Prop :=
| step_wind ip todo st :
    step plants target (InWind (ip :: todo), st) (InWind todo, wind_step st ip)
| step_wind_done st :
    step plants target (InWind [], st) (LoopTest, st)
| step_enter st :
    Qlt_bool tenth (remaining_load st) = true ->
    step plants target (LoopTest, st) (InPass (enumerate plants), clear_progress st)
| step_exit st :
    Qlt_bool tenth (remaining_load st) = false ->
    step plants target (LoopTest, st) (BeforeAdjust, st)
| step_unit ip todo st :
    snd (greedy_unit st ip) = false ->
    step plants target (InPass (ip :: todo), st) (InPass todo, fst (greedy_unit st ip))
| step_break ip todo st :
    snd (greedy_unit st ip) = true ->
    step plants target (InPass (ip :: todo), st) (InPass [], fst (greedy_unit st ip))
| step_again st :
    made_progress st = true ->
    step plants target (InPass [], st) (LoopTest, st)
| step_stall st :
    made_progress st = false ->
    step plants target (InPass [], st)
         (BeforeAdjust, warn st (CouldNotSatisfy (remaining_load st)))
| step_adjust st :
    step plants target (BeforeAdjust, st) (Return, final_adjustment plants target st).

(** Any number of steps. *)
Inductive steps (plants : list PowerPlant) (target : Z) : config -> config -> Prop :=
| steps_refl c : steps plants target c c
| steps_cons c c1 c2 :
    step plants target c c1 -> steps plants target c1 c2 ->
    steps plants target c c2.

Definition start (plants : list PowerPlant) (target : Z) : config :=
  (InWind (enumerate plants), initial_state plants target).

(** What holds at each program point: in the wind loop the entries still
    to visit are 0; in a pass the indices are those of plants; and [Inv]
    everywhere before the [return]. *)
Definition at_pc (plants : list PowerPlant) (c : config) : Prop :=
  match fst c with
  | InWind todo =>
      exists k rest,
        todo = enumerate_from k rest /\
        (k + length rest <= length plants)%nat /\
        forall j, (k <= j)%nat -> get_p (production_plan_of (snd c)) j == 0
  | InPass todo => forall ip, In ip todo -> (fst ip < length plants)%nat
  | _ => True
  end.

Definition CInv (plants : list PowerPlant) (target : Z) (c : config) : Prop :=
  (fst c <> Return -> Inv plants target (snd c)) /\ at_pc plants c.

(** A unit that is on stays on. *)
Definition stays_on (plan plan' : list entry) : Prop :=
  forall i, 0 < get_p plan i -> 0 < get_p plan' i.

(** ** Predicates on plans *)

(** A unit is off or between its [pmin] and [pmax]. *)
Definition within_bounds (plant : PowerPlant) (p : Q) : Prop :=
  p == 0 \/ (inject_Z (pmin plant) <= p /\ p <= inject_Z (pmax plant)).

(** The greedy loop body can do nothing for the unit: it is a wind
    turbine, it is at [pmax], or it is off and the test
    [max_possible >= min_increment] fails for the remaining load. *)
Definition blocked (remaining : Q) (plan : list entry) (ip : nat * PowerPlant) : Prop :=
  is_wind (snd ip) = true \/
  inject_Z (pmax (snd ip)) <= get_p plan (fst ip) \/
  (get_p plan (fst ip) == 0 /\
   ~ py_max (inject_Z (pmin (snd ip))) tenth
       <= py_min (inject_Z (pmax (snd ip))) remaining).

(** Every cost-bearing unit is off or at [pmax]. *)
Definition off_or_full (plants : list PowerPlant) (plan : list entry) : Prop :=
  forall i plant,
    In (i, plant) (enumerate plants) -> is_wind plant = false ->
    get_p plan i == 0 \/ inject_Z (pmax plant) <= get_p plan i.

(** Available power of the wind turbines of a list. *)
Definition wind_available (plants : list PowerPlant) : Z :=
  fold_right (fun plant acc =>
                if is_wind plant then (available_power plant + acc)%Z else acc)
             0%Z plants.

(** The unit data for which [calculate_cost] divides by zero. *)
Definition divides_by_zero (d : PlantData) : bool :=
  (String.eqb (d_type d) "gasfired" || String.eqb (d_type d) "turbojet")
  && Qeq_bool (d_efficiency d) 0.

(** What [calculate_cost] keeps of a unit. *)
Definition same_unit (d : PlantData) (plant : PowerPlant) : Prop :=
  name plant = d_name d /\ type plant = d_type d /\
  efficiency plant = d_efficiency d /\
  pmin plant = d_pmin d /\ pmax plant = d_pmax d.

(** No cost-bearing unit is partly loaded while a later one is on: a
    cost-bearing unit before one that is on is off or at [pmax]. *)
Definition filled_in_order (plants : list PowerPlant) (plan : list entry) : Prop :=
  forall i j plant_i plant_j,
    In (i, plant_i) (enumerate plants) -> In (j, plant_j) (enumerate plants) ->
    is_wind plant_i = false -> is_wind plant_j = false ->
    (i < j)%nat -> 0 < get_p plan j ->
    get_p plan i == 0 \/ inject_Z (pmax plant_i) <= get_p plan i.

(** Capacity of the cost-bearing units of a list: the sum of their
    [pmax]. *)
Definition cost_bearing_capacity (plants : list PowerPlant) : Z :=
  fold_right (fun plant acc =>
                if is_wind plant then acc else (pmax plant + acc)%Z)
             0%Z plants.

(** What the cost-bearing units of an enumeration can still take: the
    sum of [pmax - p]. *)
Fixpoint headroom (l : list (nat * PowerPlant)) (plan : list entry) : Q :=
  match l with
  | [] => 0
  | (i, plant) :: rest =>
      (if is_wind plant then 0 else inject_Z (pmax plant) - get_p plan i)
      + headroom rest plan
  end.
(** * Properties *)

(** ** Comparisons and rounding *)

Lemma Qlt_bool_iff (x y : Q) : Qlt_bool x y = true <-> x < y.
Proof.
  unfold Qlt_bool. rewrite negb_true_iff.
  split; intro H.
  - apply Qnot_le_lt. intro Hle. apply Qle_bool_iff in Hle. congruence.
  - destruct (Qle_bool y x) eqn:E; [|reflexivity].
    apply Qle_bool_iff in E. exfalso. apply (Qlt_not_le _ _ H E).
Qed.

Lemma Qlt_bool_false (x y : Q) : Qlt_bool x y = false <-> y <= x.
Proof.
  unfold Qlt_bool. rewrite negb_false_iff. apply Qle_bool_iff.
Qed.

Lemma Qle_bool_false (x y : Q) : Qle_bool x y = false <-> y < x.
Proof.
  rewrite <- Qlt_bool_iff. unfold Qlt_bool.
  destruct (Qle_bool x y); simpl; intuition congruence.
Qed.

Lemma py_min_spec (a b : Q) :
  (b < a /\ py_min a b = b) \/ (a <= b /\ py_min a b = a).
Proof.
  unfold py_min. destruct (Qlt_bool b a) eqn:E.
  - left. split; [now apply Qlt_bool_iff | reflexivity].
  - right. split; [now apply Qlt_bool_false | reflexivity].
Qed.

Lemma py_max_spec (a b : Q) :
  (a < b /\ py_max a b = b) \/ (b <= a /\ py_max a b = a).
Proof.
  unfold py_max. destruct (Qlt_bool a b) eqn:E.
  - left. split; [now apply Qlt_bool_iff | reflexivity].
  - right. split; [now apply Qlt_bool_false | reflexivity].
Qed.

Lemma py_round_cases (x : Q) :
  let n := Qnum x in
  let d := Zpos (Qden x) in
  (n = d * (n / d) + n mod d /\ 0 <= n mod d < d)%Z /\
  ((2 * (n mod d) <= d /\ py_round x = n / d) \/
   (d <= 2 * (n mod d) /\ py_round x = n / d + 1))%Z.
Proof.
  intros n d. split.
  - split; [apply Z.div_mod; subst d; discriminate|].
    apply Z.mod_pos_bound. subst d. reflexivity.
  - unfold py_round. fold n d.
    destruct (Z.compare_spec (2 * (n mod d)) d) as [H|H|H].
    + destruct (Z.even (n / d)); [left | right]; split; lia.
    + left; split; lia.
    + right; split; lia.
Qed.

(** Rounding never crosses an integer. *)
Lemma py_round_ge_Z (m : Z) (x : Q) : inject_Z m <= x -> (m <= py_round x)%Z.
Proof.
  intro H. unfold Qle in H. simpl in H.
  destruct (py_round_cases x) as [[Hdm Hr] Hc].
  set (n := Qnum x) in *. set (d := Zpos (Qden x)) in *.
  assert (Hd : (0 < d)%Z) by (subst d; reflexivity).
  assert (m <= n / d)%Z by (apply Z.div_le_lower_bound; lia).
  destruct Hc as [[_ ->]|[_ ->]]; lia.
Qed.

Lemma py_round_le_Z (m : Z) (x : Q) : x <= inject_Z m -> (py_round x <= m)%Z.
Proof.
  intro H. unfold Qle in H. simpl in H.
  destruct (py_round_cases x) as [[Hdm Hr] Hc].
  set (n := Qnum x) in *. set (d := Zpos (Qden x)) in *.
  assert (Hd : (0 < d)%Z) by (subst d; reflexivity).
  destruct Hc as [[_ ->]|[Hge ->]].
  - apply Z.div_le_upper_bound; lia.
  - assert (n / d < m)%Z; [|lia].
    apply Z.div_lt_upper_bound; [lia|].
    destruct (Z.eq_dec n (m * d)) as [E|E]; [|lia].
    rewrite E, Z_mod_mult in Hge. lia.
Qed.

Lemma py_round_inject_Z (m : Z) (x : Q) : x == inject_Z m -> py_round x = m.
Proof.
  intro H. apply Z.le_antisymm.
  - apply py_round_le_Z. rewrite H. apply Qle_refl.
  - apply py_round_ge_Z. rewrite H. apply Qle_refl.
Qed.

(** [round] is at most one half away from its argument. *)
Lemma py_round_near (x : Q) : Qabs (inject_Z (py_round x) - x) <= 1 # 2.
Proof.
  destruct (py_round_cases x) as [[Hdm Hr] Hc].
  set (n := Qnum x) in *. set (d := Zpos (Qden x)) in *.
  assert (Hd : (0 < d)%Z) by (subst d; reflexivity).
  apply Qabs_Qle_condition.
  remember (py_round x) as r eqn:Er. clear Er.
  assert (Hx : x == n # Qden x) by (destruct x; reflexivity).
  rewrite Hx. clearbody n.
  unfold Qle, Qminus, Qplus, Qopp, inject_Z; simpl.
  fold d. destruct Hc as [[Hle ->]|[Hge ->]]; split; nia.
Qed.

Lemma round1_inject_Z (m : Z) (x : Q) : x == inject_Z m -> round1 x == inject_Z m.
Proof.
  intro H. unfold round1.
  rewrite (py_round_inject_Z (m * 10) (x * 10)).
  - rewrite inject_Z_mult. change (inject_Z 10) with 10. field.
  - rewrite H, inject_Z_mult. reflexivity.
Qed.

(** [round1] is the nearest multiple of 0.1: a tenth of an integer, at
    most 0.05 away. *)
Lemma round1_near (x : Q) : Qabs (round1 x - x) <= 1 # 20.
Proof.
  pose proof (py_round_near (x * 10)) as H.
  apply Qabs_Qle_condition in H. apply Qabs_Qle_condition.
  unfold_round1. destruct H as [H1 H2]. split; lra.
Qed.

Lemma round1_le_Z (m : Z) (x : Q) : x <= inject_Z m -> round1 x <= inject_Z m.
Proof.
  intro H.
  assert (Hr : (py_round (x * 10) <= m * 10)%Z).
  { apply py_round_le_Z. rewrite inject_Z_mult. change (inject_Z 10) with 10. lra. }
  rewrite Zle_Qle, inject_Z_mult in Hr. change (inject_Z 10) with 10 in Hr.
  unfold_round1. lra.
Qed.

Lemma round1_ge_tenths (m : Z) (x : Q) :
  inject_Z m / 10 <= x -> inject_Z m / 10 <= round1 x.
Proof.
  intro H. unfold Qdiv in H. change (/ 10) with (1 # 10) in H.
  assert (Hr : (m <= py_round (x * 10))%Z).
  { apply py_round_ge_Z. lra. }
  rewrite Zle_Qle in Hr. unfold_round1. lra.
Qed.

Lemma round1_ge_tenth (x : Q) : tenth <= x -> tenth <= round1 x.
Proof.
  intro H. pose proof (round1_ge_tenths 1 x) as R. unfold tenth in *.
  unfold Qdiv in R. change (/ 10) with (1 # 10) in R.
  change (inject_Z 1) with 1 in R. apply R. lra.
Qed.

(** ** The plan as an indexed list *)

Lemma length_set_p (plan : list entry) (i : nat) (v : Q) :
  length (set_p plan i v) = length plan.
Proof.
  revert i. induction plan as [|e rest IH]; intros [|j]; simpl; auto.
Qed.

Lemma names_set_p (plan : list entry) (i : nat) (v : Q) :
  map e_name (set_p plan i v) = map e_name plan.
Proof.
  revert i. induction plan as [|e rest IH]; intros [|j]; simpl; auto.
  now rewrite IH.
Qed.

Lemma get_p_set_p_same (plan : list entry) (i : nat) (v : Q) :
  (i < length plan)%nat -> get_p (set_p plan i v) i = v.
Proof.
  revert i. induction plan as [|e rest IH]; intros [|j] H; simpl in *;
    try lia; auto.
  apply IH. lia.
Qed.

Lemma get_p_set_p_other (plan : list entry) (i j : nat) (v : Q) :
  i <> j -> get_p (set_p plan i v) j = get_p plan j.
Proof.
  revert i j. induction plan as [|e rest IH]; intros [|i] [|j] H; simpl;
    auto; try congruence.
  apply IH. congruence.
Qed.

Lemma get_p_beyond (plan : list entry) (i : nat) :
  (length plan <= i)%nat -> get_p plan i = 0.
Proof.
  intro H. unfold get_p. apply nth_error_None in H. now rewrite H.
Qed.

Lemma fold_sum_shift (plan : list entry) (a : Q) :
  fold_left (fun acc e => acc + e_p e) plan a == a + plan_sum plan.
Proof.
  unfold plan_sum. revert a.
  induction plan as [|e rest IH]; intro a; simpl.
  - lra.
  - rewrite IH, (IH (0 + e_p e)). lra.
Qed.

Lemma plan_sum_cons (e : entry) (rest : list entry) :
  plan_sum (e :: rest) == e_p e + plan_sum rest.
Proof.
  unfold plan_sum at 1. simpl. rewrite fold_sum_shift. lra.
Qed.

Lemma plan_sum_set_p (plan : list entry) (i : nat) (v : Q) :
  (i < length plan)%nat ->
  plan_sum (set_p plan i v) == plan_sum plan - get_p plan i + v.
Proof.
  revert i. induction plan as [|e rest IH]; intros [|j] H; simpl in *; try lia.
  - rewrite !plan_sum_cons. unfold get_p. simpl. lra.
  - rewrite !plan_sum_cons, IH by lia. unfold get_p. simpl. lra.
Qed.

Lemma plan_sum_zero (plan : list entry) :
  (forall i, get_p plan i == 0) -> plan_sum plan == 0.
Proof.
  induction plan as [|e rest IH]; intro H.
  - reflexivity.
  - rewrite plan_sum_cons, IH.
    + pose proof (H O) as H0. unfold get_p in H0. simpl in H0. lra.
    + intro i. apply (H (S i)).
Qed.

Lemma enumerate_from_index {A} (k : nat) (l : list A) (i : nat) (x : A) :
  In (i, x) (enumerate_from k l) -> (k <= i < k + length l)%nat.
Proof.
  revert k. induction l as [|y l' IH]; intros k H; simpl in *.
  - contradiction.
  - destruct H as [H|H].
    + inversion H. lia.
    + apply IH in H. lia.
Qed.

Lemma enumerate_index {A} (l : list A) (i : nat) (x : A) :
  In (i, x) (enumerate l) -> (i < length l)%nat.
Proof.
  intro H. apply enumerate_from_index in H. lia.
Qed.

Lemma length_enumerate_from {A} (k : nat) (l : list A) :
  length (enumerate_from k l) = length l.
Proof.
  revert k. induction l; intro k; simpl; auto.
Qed.

(** ** Whole-number states

    With [int] data every quantity of a run is a whole number, on which
    the rounding to 0.1 MW is exact. *)

Lemma integral_inject_Z (k : Z) : integral (inject_Z k).
Proof. exists k. reflexivity. Qed.

Lemma integral_0 : integral 0.
Proof. exact (integral_inject_Z 0). Qed.

Lemma integral_plus (a b : Q) : integral a -> integral b -> integral (a + b).
Proof.
  intros [k Hk] [m Hm]. exists (k + m)%Z. rewrite inject_Z_plus, Hk, Hm. reflexivity.
Qed.

Lemma integral_minus (a b : Q) : integral a -> integral b -> integral (a - b).
Proof.
  intros [k Hk] [m Hm]. exists (k - m)%Z.
  unfold Z.sub. rewrite inject_Z_plus, inject_Z_opp, Hk, Hm. reflexivity.
Qed.

Lemma integral_eq (a b : Q) : a == b -> integral a -> integral b.
Proof.
  intros E [k Hk]. exists k. rewrite <- E. exact Hk.
Qed.

Lemma integral_py_min (a b : Q) : integral a -> integral b -> integral (py_min a b).
Proof.
  intros Ha Hb. destruct (py_min_spec a b) as [[_ ->]|[_ ->]]; assumption.
Qed.

Lemma integral_py_max (a b : Q) : integral a -> integral b -> integral (py_max a b).
Proof.
  intros Ha Hb. destruct (py_max_spec a b) as [[_ ->]|[_ ->]]; assumption.
Qed.

Lemma round1_integral (x : Q) : integral x -> round1 x == x.
Proof.
  intros [k Hk]. rewrite (round1_inject_Z k x Hk). symmetry. exact Hk.
Qed.

(** A whole number above 0.1 is at least 1, one not above 0.1 is at most 0. *)
Lemma integral_gt_tenth (x : Q) : integral x -> tenth < x -> 1 <= x.
Proof.
  intros [k Hk] H. rewrite Hk in *. unfold tenth in H.
  change 1 with (inject_Z 1). rewrite <- Zle_Qle.
  assert (0 < k)%Z; [|lia].
  rewrite Zlt_Qlt. change (inject_Z 0) with 0. lra.
Qed.

Lemma integral_le_tenth (x : Q) : integral x -> x <= tenth -> x <= 0.
Proof.
  intros Hi H. destruct (Qlt_le_dec 0 x) as [Hp|Hp]; [|exact Hp].
  destruct Hi as [k Hk]. rewrite Hk in *. unfold tenth in H.
  assert (0 < k)%Z by (rewrite Zlt_Qlt; exact Hp).
  assert (1 <= k)%Z by lia.
  rewrite Zle_Qle in H1. change (inject_Z 1) with 1 in H1. lra.
Qed.

(** ** One loop body at a time *)

(** The wind loop body either leaves the state alone or gives a wind
    unit the smaller of its available power and the remaining load. *)
Lemma wind_step_cases (st : dstate) (i : nat) (plant : PowerPlant) :
  integral (remaining_load st) ->
  wind_step st (i, plant) = st \/
  exists v,
    is_wind plant = true /\ 0 < remaining_load st /\
    integral v /\ v <= remaining_load st /\
    v <= inject_Z (available_power plant) /\
    (v == remaining_load st \/ v == inject_Z (available_power plant)) /\
    wind_step st (i, plant) =
      mkState (set_p (production_plan_of st) i v) (remaining_load st - v)
              (made_progress st) (log st).
Proof.
  intro Hr. unfold wind_step.
  destruct (is_wind plant) eqn:Ew; simpl; [|now left].
  destruct (Qlt_bool 0 (remaining_load st)) eqn:Epos; [|now left].
  right. apply Qlt_bool_iff in Epos.
  set (m := py_min (inject_Z (available_power plant)) (remaining_load st)).
  assert (Hm : integral m)
    by (apply integral_py_min; [apply integral_inject_Z | exact Hr]).
  pose proof (round1_integral m Hm) as Hv.
  exists (round1 m). repeat split; auto.
  - apply (integral_eq m); [symmetry; exact Hv | exact Hm].
  - rewrite Hv. subst m.
    destruct (py_min_spec (inject_Z (available_power plant)) (remaining_load st))
      as [[H ->]|[H ->]]; lra.
  - rewrite Hv. subst m.
    destruct (py_min_spec (inject_Z (available_power plant)) (remaining_load st))
      as [[H ->]|[H ->]]; lra.
  - rewrite Hv. subst m.
    destruct (py_min_spec (inject_Z (available_power plant)) (remaining_load st))
      as [[H ->]|[H ->]]; [left | right]; reflexivity.
Qed.

(** The greedy loop body on whole numbers: either nothing changes, or the
    unit, which was below [pmax], takes an increment of at least 1 that
    uses up the remaining load or brings the unit to [pmax]. *)
Lemma greedy_unit_cases (st : dstate) (i : nat) (plant : PowerPlant) :
  integral (remaining_load st) ->
  integral (get_p (production_plan_of st) i) ->
  greedy_unit st (i, plant) = (st, false) \/
  exists inc v r,
    is_wind plant = false /\
    get_p (production_plan_of st) i < inject_Z (pmax plant) /\
    integral inc /\ tenth <= inc /\
    inc <= remaining_load st /\
    (inc == remaining_load st \/
     inc == inject_Z (pmax plant) - get_p (production_plan_of st) i) /\
    inc <= inject_Z (pmax plant) - get_p (production_plan_of st) i /\
    (get_p (production_plan_of st) i == 0 -> inject_Z (pmin plant) <= inc) /\
    v == get_p (production_plan_of st) i + inc /\
    r == remaining_load st - inc /\
    greedy_unit st (i, plant) =
      (mkState (set_p (production_plan_of st) i v) r true (log st),
       Qle_bool r tenth).
Proof.
  intros Hr Hc. unfold greedy_unit.
  set (cur := get_p (production_plan_of st) i) in *.
  set (rem := remaining_load st) in *.
  destruct (is_wind plant) eqn:Ew; simpl; [now left|].
  destruct (Qle_bool (inject_Z (pmax plant)) cur) eqn:Esat; [now left|].
  apply Qle_bool_false in Esat.
  match goal with
  | |- context [Qle_bool ?a ?b] =>
      set (min_increment := a); set (max_possible := b)
  end.
  destruct (Qle_bool min_increment max_possible) eqn:Eguard; [|now left].
  apply Qle_bool_iff in Eguard.
  match goal with
  | |- context [round1 (if ?c then ?a else ?b)] =>
      set (raw := if c then a else b)
  end.
  assert (Hmax : max_possible <= inject_Z (pmax plant) /\ max_possible <= rem + cur).
  { subst max_possible.
    destruct (py_min_spec (inject_Z (pmax plant)) (rem + cur)) as [[H ->]|[H ->]];
      split; lra. }
  assert (Hraw : integral raw /\ raw <= rem /\
                 (raw == rem \/ raw == inject_Z (pmax plant) - cur) /\
                 raw <= inject_Z (pmax plant) - cur /\
                 (cur == 0 -> inject_Z (pmin plant) <= raw)).
  { subst raw min_increment.
    destruct (Qeq_bool cur 0) eqn:Ez.
    - apply Qeq_bool_iff in Ez.
      destruct (py_max_spec (inject_Z (pmin plant)) tenth) as [[Hm Em]|[Hm Em]];
        rewrite Em in Eguard;
        destruct (py_min_spec rem (inject_Z (pmax plant))) as [[Hn En]|[Hn En]];
        rewrite En;
        match goal with
        | |- context [py_max ?a ?b] =>
            destruct (py_max_spec a b) as [[Hx Ex]|[Hx Ex]]; rewrite Ex
        end;
        repeat apply conj;
        try (match goal with |- (_ == _) -> _ => intros _ end);
        try (apply integral_inject_Z); try exact Hr;
        try (left; lra); try (right; lra); try lra.
    - assert (Hnz : ~ cur == 0).
      { intro E. apply Qeq_bool_iff in E. congruence. }
      destruct (py_min_spec rem (inject_Z (pmax plant) - cur)) as [[Hn En]|[Hn En]];
        rewrite En; repeat apply conj; try (intro E; contradiction);
        try exact Hr;
        try (apply integral_minus; [apply integral_inject_Z | exact Hc]);
        try (left; lra); try (right; lra); try lra. }
  destruct Hraw as (Hri & Hrle & Hror & Hrsat & Hrpmin).
  pose proof (round1_integral raw Hri) as Einc.
  destruct (Qle_bool tenth (round1 raw)) eqn:Eapply; [|now left].
  apply Qle_bool_iff in Eapply.
  right. exists (round1 raw), (round1 (cur + round1 raw)), (round1 (rem - round1 raw)).
    assert (Hinc : integral (round1 raw))
      by (apply (integral_eq raw); [symmetry; exact Einc | exact Hri]).
    repeat apply conj; auto; try (rewrite Einc; auto; lra).
    + apply round1_integral. apply integral_plus; assumption.
    + apply round1_integral. apply integral_minus; assumption.
Qed.

(** ** The invariant of a run

    For the plants [plants] and the load [target]: the plan has one entry
    per plant, under the plant's name; all quantities are whole numbers;
    what is allocated and what remains add up to the load; and the
    remaining load is negative only while nothing is allocated. *)

Lemma inv_length plants target st :
  Inv plants target st -> length (production_plan_of st) = length plants.
Proof.
  intro H. rewrite <- (length_map e_name), (inv_names _ _ _ H).
  apply length_map.
Qed.

Lemma get_p_initial (plants : list PowerPlant) (i : nat) :
  get_p (initial_plan plants) i = 0.
Proof.
  unfold get_p, initial_plan. rewrite nth_error_map.
  destruct (nth_error plants i); reflexivity.
Qed.

Lemma Inv_initial plants target : Inv plants target (initial_state plants target).
Proof.
  constructor; simpl.
  - unfold initial_plan. rewrite map_map. reflexivity.
  - apply integral_inject_Z.
  - intro i. rewrite get_p_initial. apply integral_0.
  - rewrite plan_sum_zero; [lra|]. intro i. now rewrite get_p_initial.
  - right. intro i. now rewrite get_p_initial.
Qed.

Lemma integral_get_p_set_p plan i v :
  (forall j, integral (get_p plan j)) -> integral v ->
  forall j, integral (get_p (set_p plan i v) j).
Proof.
  intros Hp Hv j. destruct (Nat.eq_dec i j) as [->|Hne].
  - destruct (Nat.lt_ge_cases j (length plan)) as [Hlt|Hge].
    + now rewrite get_p_set_p_same.
    + rewrite get_p_beyond; [apply integral_0|]. now rewrite length_set_p.
  - now rewrite get_p_set_p_other.
Qed.

Lemma Inv_wind_step plants target st i plant :
  (i < length plants)%nat ->
  get_p (production_plan_of st) i == 0 ->
  Inv plants target st -> Inv plants target (wind_step st (i, plant)).
Proof.
  intros Hi Hzero H.
  pose proof (inv_length _ _ _ H) as Hlen.
  destruct (wind_step_cases st i plant (inv_rem _ _ _ H))
    as [->|(v & _ & Hpos & Hv & Hle & _ & _ & ->)]; [exact H|].
  constructor; simpl.
  - rewrite names_set_p. apply (inv_names _ _ _ H).
  - apply integral_minus; [apply (inv_rem _ _ _ H) | exact Hv].
  - apply integral_get_p_set_p; [apply (inv_plan _ _ _ H) | exact Hv].
  - rewrite plan_sum_set_p by lia.
    pose proof (inv_sum _ _ _ H) as Hs. lra.
  - left. lra.
Qed.

Lemma Inv_greedy_unit plants target st i plant :
  (i < length plants)%nat ->
  Inv plants target st -> Inv plants target (fst (greedy_unit st (i, plant))).
Proof.
  intros Hi H.
  pose proof (inv_length _ _ _ H) as Hlen.
  destruct (greedy_unit_cases st i plant (inv_rem _ _ _ H) (inv_plan _ _ _ H i))
    as [->|(inc & v & r & _ & _ & Hinc & _ & Hle & _ & _ & _ & Ev & Er & ->)];
    [exact H|].
  constructor; simpl.
  - rewrite names_set_p. apply (inv_names _ _ _ H).
  - apply (integral_eq (remaining_load st - inc)); [symmetry; exact Er|].
    apply integral_minus; [apply (inv_rem _ _ _ H) | exact Hinc].
  - apply integral_get_p_set_p; [apply (inv_plan _ _ _ H)|].
    apply (integral_eq (get_p (production_plan_of st) i + inc));
      [symmetry; exact Ev|].
    apply integral_plus; [apply (inv_plan _ _ _ H) | exact Hinc].
  - rewrite plan_sum_set_p by lia.
    pose proof (inv_sum _ _ _ H) as Hs. lra.
  - left. lra.
Qed.

Lemma Inv_clear_progress plants target st :
  Inv plants target st -> Inv plants target (clear_progress st).
Proof. intros [? ? ? ? ?]. constructor; assumption. Qed.

Lemma Inv_warn plants target st e :
  Inv plants target st -> Inv plants target (warn st e).
Proof. intros [? ? ? ? ?]. constructor; assumption. Qed.

(** The wind pass, from any start index: the entries from the start
    index on are still 0 when their turn comes. *)
Lemma Inv_wind_from plants target (rest : list PowerPlant) (k : nat) st :
  (k + length rest <= length plants)%nat ->
  (forall j, (k <= j)%nat -> get_p (production_plan_of st) j == 0) ->
  Inv plants target st ->
  Inv plants target (fold_left wind_step (enumerate_from k rest) st).
Proof.
  revert k st. induction rest as [|plant rest IH]; intros k st Hk Hz H;
    cbn [enumerate_from fold_left].
  - exact H.
  - simpl in Hk. apply IH.
    + lia.
    + intros j Hj.
      destruct (wind_step_cases st k plant (inv_rem _ _ _ H))
        as [->|(v & _ & _ & _ & _ & _ & _ & ->)]; simpl.
      * apply Hz. lia.
      * rewrite get_p_set_p_other by lia. apply Hz. lia.
    + apply Inv_wind_step; [lia | apply Hz; lia | exact H].
Qed.

Lemma Inv_wind_pass plants target :
  Inv plants target (wind_pass plants (initial_state plants target)).
Proof.
  apply Inv_wind_from.
  - simpl. lia.
  - intros j _. simpl. now rewrite get_p_initial.
  - apply Inv_initial.
Qed.

Lemma Inv_greedy_pass plants target (l : list (nat * PowerPlant)) st :
  (forall ip, In ip l -> (fst ip < length plants)%nat) ->
  Inv plants target st -> Inv plants target (greedy_pass l st).
Proof.
  revert st. induction l as [|[i plant] rest IH]; intros st Hl H;
    cbn [greedy_pass].
  - exact H.
  - pose proof (Inv_greedy_unit plants target st i plant
                  (Hl (i, plant) (or_introl eq_refl)) H) as H'.
    destruct (greedy_unit st (i, plant)) as [st' stop]. simpl in H'.
    destruct stop; [exact H'|].
    apply IH; [|exact H']. intros ip Hin. apply Hl. now right.
Qed.

Lemma enumerate_in_range (plants : list PowerPlant) ip :
  In ip (enumerate plants) -> (fst ip < length plants)%nat.
Proof.
  destruct ip as [i plant]. intro H. simpl. eapply enumerate_index. exact H.
Qed.

Lemma Inv_greedy_loop plants target fuel st st' :
  Inv plants target st ->
  greedy_loop fuel plants st = Some st' -> Inv plants target st'.
Proof.
  revert st. induction fuel as [|fuel IH]; intros st H E; simpl in E.
  - destruct (Qlt_bool tenth (remaining_load st)); [discriminate|].
    now inversion E; subst.
  - destruct (Qlt_bool tenth (remaining_load st)).
    + assert (Hp : Inv plants target
                     (greedy_pass (enumerate plants) (clear_progress st))).
      { apply Inv_greedy_pass; [apply enumerate_in_range|].
        now apply Inv_clear_progress. }
      destruct (made_progress (greedy_pass (enumerate plants) (clear_progress st))).
      * exact (IH _ Hp E).
      * inversion E; subst. now apply Inv_warn.
    + now inversion E; subst.
Qed.

(** ** The pass budget *)

Lemma greedy_loop_more_fuel plants fuel fuel' st st' :
  (fuel <= fuel')%nat ->
  greedy_loop fuel plants st = Some st' ->
  greedy_loop fuel' plants st = Some st'.
Proof.
  revert fuel' st. induction fuel as [|fuel IH]; intros fuel' st Hle E.
  - simpl in E. destruct (Qlt_bool tenth (remaining_load st)) eqn:Et;
      [discriminate|].
    destruct fuel'; simpl; rewrite Et; exact E.
  - destruct fuel' as [|fuel']; [lia|].
    simpl in *. destruct (Qlt_bool tenth (remaining_load st)); [|exact E].
    destruct (made_progress (greedy_pass (enumerate plants) (clear_progress st)));
      [|exact E].
    apply IH; [lia | exact E].
Qed.

Lemma optimize_more_fuel plants target fuel fuel' r :
  (fuel <= fuel')%nat ->
  _optimize_production fuel plants target = Some r ->
  _optimize_production fuel' plants target = Some r.
Proof.
  unfold _optimize_production. intros Hle E.
  destruct (greedy_loop fuel plants _) as [st|] eqn:El; [|discriminate].
  now rewrite (greedy_loop_more_fuel _ _ _ _ _ Hle El).
Qed.

Lemma calculate_more_fuel payload fuel fuel' r :
  (fuel <= fuel')%nat ->
  calculate_production_plan fuel payload = Some r ->
  calculate_production_plan fuel' payload = Some r.
Proof.
  unfold calculate_production_plan. intros Hle E.
  destruct (build_plants _ _) as [plants|e]; [|exact E].
  destruct (_optimize_production fuel _ _) as [x|] eqn:Eo; [|discriminate].
  now rewrite (optimize_more_fuel _ _ _ _ _ Hle Eo).
Qed.

(** ** Nothing to allocate *)

Lemma wind_pass_idle (l : list (nat * PowerPlant)) st :
  Qlt_bool 0 (remaining_load st) = false -> fold_left wind_step l st = st.
Proof.
  intro H. induction l as [|[i plant] rest IH]; simpl; [reflexivity|].
  rewrite H, andb_false_r. exact IH.
Qed.

Lemma adjust_scan_idle (l : list (nat * PowerPlant)) difference plan :
  (forall i, Qlt_bool 0 (get_p plan i) = false) ->
  adjust_scan l difference plan = plan.
Proof.
  intro H. induction l as [|[i plant] rest IH]; simpl; [reflexivity|].
  now rewrite H.
Qed.

(** ** What the loops log *)

Lemma wind_step_log st ip : log (wind_step st ip) = log st.
Proof.
  destruct ip as [i plant]. unfold wind_step.
  destruct (is_wind plant && Qlt_bool 0 (remaining_load st)); reflexivity.
Qed.

Lemma wind_fold_log l st : log (fold_left wind_step l st) = log st.
Proof.
  revert st. induction l as [|ip rest IH]; intro st; simpl; [reflexivity|].
  rewrite IH. apply wind_step_log.
Qed.

Lemma greedy_unit_log st ip : log (fst (greedy_unit st ip)) = log st.
Proof.
  destruct ip as [i plant]. unfold greedy_unit.
  repeat match goal with
         | |- context [if ?c then _ else _] => destruct c
         end; reflexivity.
Qed.

Lemma greedy_pass_log l st : log (greedy_pass l st) = log st.
Proof.
  revert st. induction l as [|ip rest IH]; intro st; cbn [greedy_pass];
    [reflexivity|].
  pose proof (greedy_unit_log st ip) as H.
  destruct (greedy_unit st ip) as [st' stop]. simpl in H.
  destruct stop; [exact H|]. now rewrite IH.
Qed.

(** A loop body that does not set [made_progress] changes nothing. *)
Lemma greedy_unit_shape st ip :
  greedy_unit st ip = (st, false) \/ made_progress (fst (greedy_unit st ip)) = true.
Proof.
  destruct ip as [i plant]. unfold greedy_unit.
  repeat match goal with
         | |- context [if ?c then _ else _] => destruct c
         end; auto.
Qed.

Lemma greedy_unit_keeps_progress st ip :
  made_progress st = true -> made_progress (fst (greedy_unit st ip)) = true.
Proof.
  intro H. destruct (greedy_unit_shape st ip) as [->|E]; [exact H | exact E].
Qed.

Lemma greedy_pass_keeps_progress l st :
  made_progress st = true -> made_progress (greedy_pass l st) = true.
Proof.
  revert st. induction l as [|ip rest IH]; intros st H; cbn [greedy_pass];
    [exact H|].
  pose proof (greedy_unit_keeps_progress st ip H) as H'.
  destruct (greedy_unit st ip) as [st' stop]. simpl in H'.
  destruct stop; [exact H' | now apply IH].
Qed.

Lemma greedy_pass_shape l st :
  greedy_pass l st = st \/ made_progress (greedy_pass l st) = true.
Proof.
  revert st. induction l as [|ip rest IH]; intro st; cbn [greedy_pass];
    [now left|].
  destruct (greedy_unit_shape st ip) as [E|E].
  - rewrite E. apply IH.
  - right. destruct (greedy_unit st ip) as [st' stop]. simpl in E.
    destruct stop; [exact E | now apply greedy_pass_keeps_progress].
Qed.

(** The loop ends satisfied, with nothing logged, or stalled, with its
    warning as the last event. *)
Lemma greedy_loop_result plants fuel st r :
  greedy_loop fuel plants st = Some r ->
  (remaining_load r <= tenth /\ log r = log st) \/
  (tenth < remaining_load r /\
   log r = log st ++ [CouldNotSatisfy (remaining_load r)]).
Proof.
  revert st. induction fuel as [|fuel IH]; intros st E; simpl in E.
  - destruct (Qlt_bool tenth (remaining_load st)) eqn:Et; [discriminate|].
    inversion E; subst. left. split; [now apply Qlt_bool_false | reflexivity].
  - destruct (Qlt_bool tenth (remaining_load st)) eqn:Et.
    + pose proof (greedy_pass_shape (enumerate plants) (clear_progress st)) as Hs.
      set (st' := greedy_pass (enumerate plants) (clear_progress st)) in *.
      assert (Hlog : log st' = log st)
        by (subst st'; now rewrite greedy_pass_log).
      destruct (made_progress st') eqn:Ep.
      * destruct (IH _ E) as [[H1 H2]|[H1 H2]]; [left | right];
          (split; [exact H1 | now rewrite H2, Hlog]).
      * destruct Hs as [Hs|Hs]; [|congruence].
        inversion E; subst r. right. simpl. rewrite Hs. simpl.
        split; [now apply Qlt_bool_iff | reflexivity].
    + inversion E; subst. left. split; [now apply Qlt_bool_false | reflexivity].
Qed.

Lemma stalled_app lg e : stalled (lg ++ [e]) = stalled lg || is_could_not_satisfy e.
Proof.
  unfold stalled. rewrite existsb_app. simpl. now rewrite orb_false_r.
Qed.

Lemma final_adjustment_log plants target st :
  log (final_adjustment plants target st) = log st \/
  log (final_adjustment plants target st) =
    log st ++ [ProductionDifference (inject_Z target - plan_sum (production_plan_of st))].
Proof.
  unfold final_adjustment.
  destruct (Qlt_bool tenth _); [right | left]; reflexivity.
Qed.

Lemma final_adjustment_stalled plants target st :
  stalled (log (final_adjustment plants target st)) = stalled (log st).
Proof.
  destruct (final_adjustment_log plants target st) as [->| ->]; [reflexivity|].
  rewrite stalled_app. simpl. apply orb_false_r.
Qed.

(** The pieces of a returned [_optimize_production]. *)
Lemma optimize_inv fuel plants target plan lg :
  _optimize_production fuel plants target = Some (plan, lg) ->
  exists st,
    greedy_loop fuel plants (wind_pass plants (initial_state plants target)) = Some st /\
    Inv plants target st /\
    plan = production_plan_of (final_adjustment plants target st) /\
    lg = log (final_adjustment plants target st) /\
    ((remaining_load st <= tenth /\ log st = []) \/
     (tenth < remaining_load st /\
      log st = [CouldNotSatisfy (remaining_load st)])).
Proof.
  unfold _optimize_production. intro E.
  destruct (greedy_loop fuel plants _) as [st|] eqn:El; [|discriminate].
  inversion E; subst. exists st. repeat apply conj; auto.
  - eapply Inv_greedy_loop; [apply Inv_wind_pass | exact El].
  - destruct (greedy_loop_result _ _ _ _ El) as [[H1 H2]|[H1 H2]];
      unfold wind_pass in H2; rewrite wind_fold_log in H2; simpl in H2;
      [left | right]; split; assumption.
Qed.

(** ** The cost model *)

(** [int] drops the fractional part: the result is the whole number next
    to [x] on the side of zero. *)
Lemma py_int_truncates (x : Q) :
  (0 <= x -> (0 <= py_int x)%Z /\
             inject_Z (py_int x) <= x /\ x < inject_Z (py_int x) + 1) /\
  (x <= 0 -> (py_int x <= 0)%Z /\
             x <= inject_Z (py_int x) /\ inject_Z (py_int x) - 1 < x).
Proof.
  destruct x as [n d]. unfold py_int. cbn [Qnum Qden].
  pose proof (Z.quot_rem' n (Zpos d)) as Hqr.
  assert (Hd : (0 < Zpos d)%Z) by reflexivity.
  set (q := Z.quot n (Zpos d)) in *. set (r := Z.rem n (Zpos d)) in *.
  split; intro Hx; unfold Qle in Hx; simpl in Hx.
  - assert (Hn : (0 <= n)%Z) by lia.
    pose proof (Z.rem_bound_pos_pos n (Zpos d) Hd Hn) as Hr. fold r in Hr.
    unfold Qle, Qlt, Qplus, inject_Z; simpl. repeat apply conj; nia.
  - assert (Hn : (n <= 0)%Z) by lia.
    pose proof (Z.rem_bound_pos_neg n (Zpos d) Hd Hn) as Hr. fold r in Hr.
    unfold Qle, Qlt, Qminus, Qplus, Qopp, inject_Z; simpl.
    repeat apply conj; nia.
Qed.

(** C4.  The cost model.  A wind unit costs 0 and has as available power
    [pmax * wind_percentage / 100] truncated toward zero to a whole
    number; with a nonzero efficiency, a gas unit costs
    [gas_price / efficiency + (0.3 * co2_price) / efficiency] and a
    turbojet [kerosine_price / efficiency], both with [pmax] as available
    power.  Name, type, efficiency, [pmin] and [pmax] are kept. *)
Theorem cost_model (nm : string) (eff : Q) (lo hi : Z) (gas ker co2 wind : Q) :
  (exists plant,
     calculate_cost (new_PowerPlant nm "windturbine" eff lo hi) gas ker co2 wind
       = Ok plant /\
     cost_per_mwh plant == 0 /\
     available_power plant = py_int (inject_Z hi * wind / 100) /\
     (0 <= inject_Z hi * wind / 100 ->
        inject_Z (available_power plant) <= inject_Z hi * wind / 100 /\
        inject_Z hi * wind / 100 < inject_Z (available_power plant) + 1) /\
     (inject_Z hi * wind / 100 <= 0 ->
        inject_Z hi * wind / 100 <= inject_Z (available_power plant) /\
        inject_Z (available_power plant) - 1 < inject_Z hi * wind / 100) /\
     (name plant, type plant, efficiency plant, pmin plant, pmax plant)
       = (nm, "windturbine"%string, eff, lo, hi)) /\
  (~ eff == 0 ->
   (exists plant,
      calculate_cost (new_PowerPlant nm "gasfired" eff lo hi) gas ker co2 wind
        = Ok plant /\
      cost_per_mwh plant == gas / eff + ((3 # 10) * co2) / eff /\
      available_power plant = hi /\
      (name plant, type plant, efficiency plant, pmin plant, pmax plant)
        = (nm, "gasfired"%string, eff, lo, hi)) /\
   (exists plant,
      calculate_cost (new_PowerPlant nm "turbojet" eff lo hi) gas ker co2 wind
        = Ok plant /\
      cost_per_mwh plant == ker / eff /\
      available_power plant = hi /\
      (name plant, type plant, efficiency plant, pmin plant, pmax plant)
        = (nm, "turbojet"%string, eff, lo, hi))).
Proof.
  split.
  - eexists. split; [reflexivity|]. cbn.
    destruct (py_int_truncates (inject_Z hi * wind / 100)) as [Hp Hn].
    repeat apply conj; try reflexivity.
    + intro H. destruct (Hp H) as (_ & A & B). split; assumption.
    + intro H. destruct (Hn H) as (_ & A & B). split; assumption.
  - intro Hne.
    assert (Ez : Qeq_bool eff 0 = false).
    { destruct (Qeq_bool eff 0) eqn:E; [|reflexivity].
      apply Qeq_bool_iff in E. contradiction. }
    split; eexists; (split; [unfold calculate_cost, py_div; cbn; rewrite Ez; cbn;
                              reflexivity|]); cbn; repeat apply conj; reflexivity.
Qed.

(** The gas units of [test_api.py]: efficiency 0.53 and prices 13.4 and
    20 give the cost (13.4 + 6) / 0.53. *)
Lemma cost_model_witness :
  ~ (53 # 100) == 0 /\
  exists plant,
    calculate_cost (new_PowerPlant "gasfiredbig1" "gasfired" (53 # 100) 100 460)
                   (134 # 10) (508 # 10) 20 60 = Ok plant /\
    cost_per_mwh plant == (134 # 10) / (53 # 100) + ((3 # 10) * 20) / (53 # 100) /\
    available_power plant = 460%Z.
Proof.
  assert (Hne : ~ (53 # 100) == 0) by (intro H; discriminate H).
  split; [exact Hne|].
  destruct (cost_model "gasfiredbig1" (53 # 100) 100 460 (134 # 10) (508 # 10) 20 60)
    as [_ Hgt].
  destruct (Hgt Hne) as [[plant (E & Hc & Ha & _)] _].
  exists plant. repeat apply conj; assumption.
Defined.

(** ** The request of [test_api.py] *)

(** C9.  On [payload1] (load 480, gas 13.4, kerosine 50.8, co2 20,
    wind 60 %) the plan gives 90 to windpark1, 21 to windpark2, 369 to
    gasfiredbig1 and 0 to gasfiredbig2, gasfiredsomewhatsmaller and tj1;
    the sum is 480 and nothing is logged, so the final adjustment was not
    entered.  One pass of the loop is enough. *)
Theorem payload1_plan (fuel : nat) :
  (1 <= fuel)%nat ->
  exists plan,
    calculate_production_plan fuel payload1 = Some (Ok (plan, [])) /\
    map (fun e => (e_name e, Qred (e_p e))) plan =
      [ ("windpark1", 90); ("windpark2", 21); ("gasfiredbig1", 369);
        ("gasfiredbig2", 0); ("gasfiredsomewhatsmaller", 0); ("tj1", 0) ]%string /\
    plan_sum plan == 480 /\
    adjusted [] = false.
Proof.
  intro Hf.
  assert (E : exists plan,
             calculate_production_plan 1 payload1 = Some (Ok (plan, [])) /\
             map (fun e => (e_name e, Qred (e_p e))) plan =
               [ ("windpark1", 90); ("windpark2", 21); ("gasfiredbig1", 369);
                 ("gasfiredbig2", 0); ("gasfiredsomewhatsmaller", 0);
                 ("tj1", 0) ]%string /\
             plan_sum plan == 480).
  { eexists. split; [vm_compute; reflexivity|]. split; vm_compute; reflexivity. }
  destruct E as (plan & E & Hm & Hs).
  exists plan. repeat apply conj; auto.
  apply (calculate_more_fuel payload1 1 fuel); assumption.
Qed.

Lemma payload1_plan_witness :
  exists plan,
    calculate_production_plan 3 payload1 = Some (Ok (plan, [])) /\
    plan_sum plan == 480.
Proof.
  destruct (payload1_plan 3) as (plan & E & _ & Hs & _); [lia|].
  exists plan. split; assumption.
Defined.

(** ** A load that is not positive *)

Lemma optimize_nonpositive_load (fuel : nat) (plants : list PowerPlant)
    (target : Z) :
  (target <= 0)%Z ->
  exists lg,
    _optimize_production fuel plants target = Some (initial_plan plants, lg) /\
    stalled lg = false.
Proof.
  intro Ht. unfold _optimize_production.
  assert (Hle : inject_Z target <= 0).
  { change 0 with (inject_Z 0). now rewrite <- Zle_Qle. }
  assert (H0 : Qlt_bool 0 (remaining_load (initial_state plants target)) = false).
  { apply Qlt_bool_false. exact Hle. }
  unfold wind_pass. rewrite (wind_pass_idle _ _ H0).
  assert (H1 : Qlt_bool tenth (remaining_load (initial_state plants target)) = false).
  { apply Qlt_bool_false. simpl. unfold tenth. lra. }
  assert (El : greedy_loop fuel plants (initial_state plants target)
               = Some (initial_state plants target)).
  { destruct fuel; simpl greedy_loop; simpl in H1; rewrite H1; reflexivity. }
  rewrite El. unfold final_adjustment.
  match goal with
  | |- context [Qlt_bool tenth (Qabs ?d)] => destruct (Qlt_bool tenth (Qabs d))
  end.
  - eexists. split.
    + cbn [production_plan_of warn initial_state log].
      rewrite adjust_scan_idle; [reflexivity|].
      intro i. rewrite get_p_initial. reflexivity.
    + reflexivity.
  - eexists. split; reflexivity.
Qed.

(** C10.  With a load of 0 or less, [_optimize_production] returns, for
    any pass budget and any plants, the plan it started from: every unit
    at exactly 0.  Nothing is raised; a load below -0.1 only logs the
    production difference, for which no unit is on to adjust.  So a
    request with such a load, negative ones included, whose cost model
    does not raise is answered 200 with the all-zero plan. *)
Theorem nonpositive_load_all_zero (fuel : nat) (plants : list PowerPlant)
    (target : Z) :
  (target <= 0)%Z ->
  (exists lg,
     _optimize_production fuel plants target =
       Some (map (fun plant => mkEntry (name plant) 0) plants, lg) /\
     stalled lg = false) /\
  (forall fu data,
     build_plants fu data = Ok plants ->
     exists lg,
       calculate_production_plan fuel (mkPayload target fu data) =
         Some (Ok (map (fun plant => mkEntry (name plant) 0) (sort_plants plants),
                   lg)) /\
       production_plan fuel (Json (mkJson (Some target) (Some fu) (Some data))) =
         Some (PlanBody (map (fun plant => mkEntry (name plant) 0)
                             (sort_plants plants)), 200%Z)).
Proof.
  intro Ht. split.
  - exact (optimize_nonpositive_load fuel plants target Ht).
  - intros fu data Eb.
    destruct (optimize_nonpositive_load fuel (sort_plants plants) target Ht)
      as (lg & E & _).
    assert (Ec : calculate_production_plan fuel (mkPayload target fu data) =
                 Some (Ok (initial_plan (sort_plants plants), lg))).
    { unfold calculate_production_plan. cbn [fuels powerplants load].
      now rewrite Eb, E. }
    exists lg. split; [exact Ec|].
    unfold production_plan. cbn [j_load j_fuels j_powerplants].
    now rewrite Ec.
Qed.

Lemma nonpositive_load_all_zero_witness :
  exists lg,
    _optimize_production 0
      [ mkPowerPlant "w" "windturbine" 1 0 100 0 50;
        mkPowerPlant "g" "gasfired" (1 # 2) 0 10 32 10 ] (-5) =
      Some ([mkEntry "w" 0; mkEntry "g" 0], lg).
Proof.
  destruct (nonpositive_load_all_zero 0
              [ mkPowerPlant "w" "windturbine" 1 0 100 0 50;
                mkPowerPlant "g" "gasfired" (1 # 2) 0 10 32 10 ] (-5))
    as ((lg & E & _) & _); [lia|].
  exists lg. exact E.
Defined.

(** ** The merit-order sort and the order of the plan *)

Lemma key_lt_asym (a b : Q * Z) : key_lt a b = true -> key_lt b a = false.
Proof.
  unfold key_lt. intro H.
  apply orb_true_iff in H. apply orb_false_iff.
  destruct H as [H|H].
  - apply Qlt_bool_iff in H. split.
    + apply Qlt_bool_false. lra.
    + apply andb_false_iff. left.
      destruct (Qeq_bool (fst b) (fst a)) eqn:E; [|reflexivity].
      apply Qeq_bool_iff in E. lra.
  - apply andb_true_iff in H. destruct H as [He Hl].
    apply Qeq_bool_iff in He. apply Z.ltb_lt in Hl. split.
    + apply Qlt_bool_false. lra.
    + apply andb_false_iff. right. apply Z.ltb_ge. lia.
Qed.

Lemma insert_stable_perm x l : Permutation (insert_stable x l) (x :: l).
Proof.
  induction l as [|y l IH]; simpl; [reflexivity|].
  destruct (key_lt (merit_key y) (merit_key x)); [|reflexivity].
  rewrite IH. apply perm_swap.
Qed.

Lemma sort_plants_perm l : Permutation (sort_plants l) l.
Proof.
  induction l as [|x l IH]; simpl; [reflexivity|].
  rewrite insert_stable_perm. now constructor.
Qed.

Lemma insert_stable_sorted x l :
  Sorted merit_le l -> Sorted merit_le (insert_stable x l).
Proof.
  induction l as [|y l IH]; intro H; simpl.
  - repeat constructor.
  - destruct (key_lt (merit_key y) (merit_key x)) eqn:E.
    + inversion H as [|? ? Hs Hh]; subst. constructor; [now apply IH|].
      destruct l as [|z l]; simpl.
      * constructor. unfold merit_le. now apply key_lt_asym.
      * destruct (key_lt (merit_key z) (merit_key x)).
        -- constructor. now inversion Hh.
        -- constructor. unfold merit_le. now apply key_lt_asym.
    + constructor; [exact H|]. constructor. exact E.
Qed.

Lemma sort_plants_sorted l : Sorted merit_le (sort_plants l).
Proof.
  induction l as [|x l IH]; simpl; [constructor | now apply insert_stable_sorted].
Qed.

Lemma calculate_cost_name pl g k c w pl' :
  calculate_cost pl g k c w = Ok pl' -> name pl' = name pl.
Proof.
  unfold calculate_cost, py_div.
  destruct (is_wind pl); [intro E; now inversion E|].
  destruct (Qeq_bool (efficiency pl) 0);
    destruct (is_gas pl); cbn; try discriminate;
    try (intro E; now inversion E);
    destruct (is_turbojet pl); cbn; try discriminate; intro E; now inversion E.
Qed.

Lemma build_plants_names fu data plants :
  build_plants fu data = Ok plants -> map name plants = map d_name data.
Proof.
  revert plants. induction data as [|d data IH]; intros plants E; simpl in E.
  - now inversion E.
  - destruct (calculate_cost _ _ _ _ _) as [pl|e] eqn:Ec; [|discriminate].
    cbn in E. destruct (build_plants fu data) as [rest|e]; [|discriminate].
    cbn in E. inversion E; subst. simpl.
    rewrite (IH rest eq_refl), (calculate_cost_name _ _ _ _ _ _ Ec). reflexivity.
Qed.

Lemma names_adjust_scan l difference plan :
  map e_name (adjust_scan l difference plan) = map e_name plan.
Proof.
  induction l as [|[i plant] rest IH]; simpl; [reflexivity|].
  destruct (Qlt_bool 0 (get_p plan i)); [|exact IH].
  destruct (_ && _); [apply names_set_p | exact IH].
Qed.

Lemma names_final_adjustment plants target st :
  map e_name (production_plan_of (final_adjustment plants target st))
  = map e_name (production_plan_of st).
Proof.
  unfold final_adjustment. destruct (Qlt_bool tenth _); [|reflexivity].
  simpl. apply names_adjust_scan.
Qed.

Lemma optimize_names fuel plants target plan lg :
  _optimize_production fuel plants target = Some (plan, lg) ->
  map e_name plan = map name plants.
Proof.
  intro E. destruct (optimize_inv _ _ _ _ _ E) as (st & _ & Hinv & -> & _).
  rewrite names_final_adjustment. apply (inv_names _ _ _ Hinv).
Qed.

(** C3, as it holds.  The returned plan has exactly one entry per unit of
    the request, under the unit's name, in merit order: the order of the
    units sorted by (cost, -available power), a permutation of the
    request's order. *)
Theorem plan_in_merit_order (fuel : nat) (payload : Payload)
    (plan : list entry) (lg : list event) :
  calculate_production_plan fuel payload = Some (Ok (plan, lg)) ->
  exists plants,
    build_plants (fuels payload) (powerplants payload) = Ok plants /\
    map name plants = map d_name (powerplants payload) /\
    map e_name plan = map name (sort_plants plants) /\
    Sorted merit_le (sort_plants plants) /\
    Permutation (sort_plants plants) plants /\
    length plan = length (powerplants payload) /\
    Permutation (map e_name plan) (map d_name (powerplants payload)).
Proof.
  unfold calculate_production_plan. intro E.
  destruct (build_plants _ _) as [plants|e] eqn:Eb; [|discriminate].
  destruct (_optimize_production _ _ _) as [[plan' lg']|] eqn:Eo; [|discriminate].
  inversion E; subst plan' lg'.
  pose proof (optimize_names _ _ _ _ _ Eo) as Hn.
  pose proof (build_plants_names _ _ _ Eb) as Hd.
  exists plants. repeat apply conj; auto.
  - apply sort_plants_sorted.
  - apply sort_plants_perm.
  - rewrite <- (length_map e_name), Hn, length_map.
    rewrite (Permutation_length (sort_plants_perm plants)).
    rewrite <- (length_map name), Hd. apply length_map.
  - rewrite Hn, <- Hd. apply Permutation_map. apply sort_plants_perm.
Qed.

Lemma plan_in_merit_order_witness :
  exists plan,
    calculate_production_plan 1 payload1 = Some (Ok (plan, [])) /\
    map e_name plan =
      [ "windpark1"; "windpark2"; "gasfiredbig1"; "gasfiredbig2";
        "gasfiredsomewhatsmaller"; "tj1" ]%string /\
    Permutation (map e_name plan) (map d_name (powerplants payload1)).
Proof.
  assert (E : exists plan,
             calculate_production_plan 1 payload1 = Some (Ok (plan, [])) /\
             map e_name plan =
               [ "windpark1"; "windpark2"; "gasfiredbig1"; "gasfiredbig2";
                 "gasfiredsomewhatsmaller"; "tj1" ]%string).
  { eexists. split; vm_compute; reflexivity. }
  destruct E as (plan & E & Hn).
  exists plan. repeat apply conj; auto.
  destruct (plan_in_merit_order 1 payload1 plan [] E) as (_ & _ & _ & _ & _ & _ & _ & H).
  exact H.
Defined.

(** C3, as stated, fails on the request of [test_api.py]: the request
    starts with gasfiredbig1, the plan with windpark1. *)
Lemma plan_not_in_input_order :
  exists plan lg,
    calculate_production_plan 1 payload1 = Some (Ok (plan, lg)) /\
    map e_name plan <> map d_name (powerplants payload1).
Proof.
  eexists. eexists. split; [vm_compute; reflexivity|].
  vm_compute. discriminate.
Qed.

(** ** Load conservation *)

Lemma final_adjustment_balanced plants target st :
  plan_sum (production_plan_of st) == inject_Z target ->
  final_adjustment plants target st = st.
Proof.
  intro H. unfold final_adjustment.
  match goal with
  | |- context [Qlt_bool tenth ?a] => destruct (Qlt_bool tenth a) eqn:E
  end; [|reflexivity].
  apply Qlt_bool_iff in E. exfalso.
  apply (Qlt_not_le _ _ E). apply Qabs_Qle_condition. unfold tenth. split; lra.
Qed.

(** A run that did not stall, on a load that is not negative, ends with
    nothing left to allocate. *)
Lemma satisfied_run_exact plants target st :
  (0 <= target)%Z ->
  Inv plants target st ->
  remaining_load st <= tenth ->
  plan_sum (production_plan_of st) == inject_Z target.
Proof.
  intros Ht Hinv Hrem.
  pose proof (integral_le_tenth _ (inv_rem _ _ _ Hinv) Hrem) as Hle.
  pose proof (inv_sum _ _ _ Hinv) as Hs.
  assert (H0 : 0 <= inject_Z target).
  { change 0 with (inject_Z 0). now rewrite <- Zle_Qle. }
  destruct (inv_nonneg _ _ _ Hinv) as [Hn|Hz].
  - lra.
  - pose proof (plan_sum_zero _ Hz) as Hz'. lra.
Qed.

(** C1, as it holds.  For a load that is not negative, when the greedy
    loop does not stall (it ends with at most 0.1 MW left and logs no
    "could not satisfy"), the plan sums to the load exactly, hence within
    0.1 MW.  Sufficient total available capacity alone does not give
    this. *)
Theorem load_conserved_unless_stalled (fuel : nat) (payload : Payload)
    (plan : list entry) (lg : list event) :
  (0 <= load payload)%Z ->
  calculate_production_plan fuel payload = Some (Ok (plan, lg)) ->
  stalled lg = false ->
  plan_sum plan == inject_Z (load payload) /\
  load_conserved (load payload) plan.
Proof.
  unfold calculate_production_plan. intros Ht E Hs.
  destruct (build_plants _ _) as [plants|e]; [|discriminate].
  destruct (_optimize_production _ _ _) as [[plan' lg']|] eqn:Eo; [|discriminate].
  inversion E; subst plan' lg'.
  destruct (optimize_inv _ _ _ _ _ Eo) as (st & _ & Hinv & Ep & El & Hend).
  rewrite El, final_adjustment_stalled in Hs.
  destruct Hend as [[Hrem _]|[_ Hlog]].
  - pose proof (satisfied_run_exact _ _ _ Ht Hinv Hrem) as Hsum.
    rewrite (final_adjustment_balanced _ _ _ Hsum) in Ep. subst plan.
    split; [exact Hsum|].
    unfold load_conserved. apply Qabs_Qle_condition. unfold tenth. split; lra.
  - rewrite Hlog in Hs. discriminate Hs.
Qed.

Lemma load_conserved_unless_stalled_witness :
  exists plan,
    calculate_production_plan 1 payload1 = Some (Ok (plan, [])) /\
    load_conserved 480 plan.
Proof.
  assert (E : exists plan,
             calculate_production_plan 1 payload1 = Some (Ok (plan, []))).
  { eexists. vm_compute. reflexivity. }
  destruct E as (plan & E). exists plan. split; [exact E|].
  apply (load_conserved_unless_stalled 1 payload1 plan []);
    [vm_compute; discriminate | exact E | reflexivity].
Defined.

(** C1, as stated, fails: one gas unit with [pmin] 100 and [pmax] 200
    has capacity for a load of 50, but cannot run below 100 and stays
    off; the plan sums to 0. *)
Lemma capacity_does_not_conserve_load :
  exists plants plan lg,
    build_plants (mkFuels 10 50 20 50)
      [mkPlantData "g" "gasfired" (1 # 2) 100 200] = Ok plants /\
    (50 <= total_available plants)%Z /\
    calculate_production_plan 2
      (mkPayload 50 (mkFuels 10 50 20 50)
         [mkPlantData "g" "gasfired" (1 # 2) 100 200]) = Some (Ok (plan, lg)) /\
    plan_sum plan == 0 /\
    ~ load_conserved 50 plan.
Proof.
  eexists. eexists. eexists.
  split; [vm_compute; reflexivity|].
  split; [vm_compute; discriminate|].
  split; [vm_compute; reflexivity|].
  split; [vm_compute; reflexivity|].
  vm_compute. intro H. apply H. reflexivity.
Qed.

(** ** A stalled run at the endpoint *)

(** C2, as it holds.  When the greedy loop stalls, the computation logs
    the remaining load it could not satisfy, and the endpoint answers 200
    with the plan, as for any other request. *)
Theorem stalled_plan_returned (fuel : nat) (ld : Z) (fu : Fuels)
    (pp : list PlantData) (plan : list entry) (lg : list event) :
  calculate_production_plan fuel (mkPayload ld fu pp) = Some (Ok (plan, lg)) ->
  stalled lg = true ->
  production_plan fuel (Json (mkJson (Some ld) (Some fu) (Some pp)))
    = Some (PlanBody plan, 200%Z) /\
  exists r, In (CouldNotSatisfy r) lg /\ tenth < r.
Proof.
  intros E Hs. split.
  - unfold production_plan. cbn [j_load j_fuels j_powerplants]. now rewrite E.
  - unfold calculate_production_plan in E. cbn [fuels powerplants load] in E.
    destruct (build_plants _ _) as [plants|e]; [|discriminate].
    destruct (_optimize_production _ _ _) as [[plan' lg']|] eqn:Eo; [|discriminate].
    inversion E; subst plan' lg'.
    destruct (optimize_inv _ _ _ _ _ Eo) as (st & _ & _ & _ & El & Hend).
    rewrite El, final_adjustment_stalled in Hs.
    destruct Hend as [[_ Hlog]|[Hrem Hlog]].
    + rewrite Hlog in Hs. discriminate Hs.
    + exists (remaining_load st). split; [|exact Hrem].
      rewrite El.
      destruct (final_adjustment_log (sort_plants plants) ld st) as [-> | ->];
        rewrite Hlog; simpl; auto.
Qed.

Lemma stalled_plan_returned_witness :
  exists plan,
    production_plan 2
      (Json (mkJson (Some 100%Z) (Some (mkFuels 10 50 20 50))
               (Some [mkPlantData "g" "gasfired" (1 # 2) 0 50])))
    = Some (PlanBody plan, 200%Z) /\
    plan_sum plan == 50.
Proof.
  assert (E : exists plan lg,
             calculate_production_plan 2
               (mkPayload 100 (mkFuels 10 50 20 50)
                  [mkPlantData "g" "gasfired" (1 # 2) 0 50])
             = Some (Ok (plan, lg)) /\ stalled lg = true /\ plan_sum plan == 50).
  { eexists. eexists. split; [vm_compute; reflexivity|].
    split; vm_compute; reflexivity. }
  destruct E as (plan & lg & E & Hs & Hsum).
  exists plan. split; [|exact Hsum].
  exact (proj1 (stalled_plan_returned 2 100 _ _ plan lg E Hs)).
Defined.

(** C2, as stated, fails: a load of 100 on a single unit of 50 stalls,
    and the endpoint answers 200 with the plan of 50, the answer of a
    normal success. *)
Lemma stall_answered_as_success :
  exists plan lg,
    calculate_production_plan 2
      (mkPayload 100 (mkFuels 10 50 20 50)
         [mkPlantData "g" "gasfired" (1 # 2) 0 50]) = Some (Ok (plan, lg)) /\
    stalled lg = true /\
    ~ load_conserved 100 plan /\
    production_plan 2
      (Json (mkJson (Some 100%Z) (Some (mkFuels 10 50 20 50))
               (Some [mkPlantData "g" "gasfired" (1 # 2) 0 50])))
    = Some (PlanBody plan, 200%Z).
Proof.
  eexists. eexists.
  split; [vm_compute; reflexivity|].
  split; [vm_compute; reflexivity|].
  split; [|vm_compute; reflexivity].
  vm_compute. intro H. apply H. reflexivity.
Qed.

(** ** Wind above its available power *)

(** C5 fails in the final adjustment.  A wind park of 100 at 50 % wind
    has 50 available; with a gas unit that cannot start below 100 and a
    load of 80, the loop stalls at 50 and the adjustment, which checks
    [pmin <= p <= pmax] for every plant, raises the wind park to 80. *)
Lemma wind_adjusted_above_available :
  exists plants plant plan lg,
    build_plants (mkFuels 10 50 20 50)
      [ mkPlantData "g" "gasfired" (1 # 2) 100 200;
        mkPlantData "w" "windturbine" 1 0 100 ] = Ok plants /\
    nth_error (sort_plants plants) 0 = Some plant /\
    is_wind plant = true /\
    available_power plant = 50%Z /\
    calculate_production_plan 2
      (mkPayload 80 (mkFuels 10 50 20 50)
         [ mkPlantData "g" "gasfired" (1 # 2) 100 200;
           mkPlantData "w" "windturbine" 1 0 100 ]) = Some (Ok (plan, lg)) /\
    map (fun e => (e_name e, Qred (e_p e))) plan = [("w", 80); ("g", 0)]%string /\
    ~ get_p plan 0 <= inject_Z (available_power plant).
Proof.
  eexists. eexists. eexists. eexists.
  split; [vm_compute; reflexivity|].
  split; [vm_compute; reflexivity|].
  split; [vm_compute; reflexivity|].
  split; [vm_compute; reflexivity|].
  split; [vm_compute; reflexivity|].
  split; [vm_compute; reflexivity|].
  vm_compute. intro H. apply H. reflexivity.
Qed.

(** ** Turning an idle unit on *)

Lemma py_min_le_iff (a b c : Q) : c <= py_min a b <-> c <= a /\ c <= b.
Proof.
  destruct (py_min_spec a b) as [[H ->]|[H ->]]; split; intros; try split;
    try tauto; lra.
Qed.

Lemma py_max_le_iff (a b c : Q) : py_max a b <= c <-> a <= c /\ b <= c.
Proof.
  destruct (py_max_spec a b) as [[H ->]|[H ->]]; split; intros; try split;
    try tauto; lra.
Qed.

Lemma round1_after_zero (c x : Q) : c == 0 -> round1 (c + round1 x) == round1 x.
Proof.
  intro Hc. unfold round1 at 1.
  rewrite (py_round_inject_Z (py_round (x * 10))); [reflexivity|].
  unfold_round1. lra.
Qed.

(** C6.  An idle cost-bearing unit below [pmax] (so with [pmax > 0]) is
    turned on exactly when [max(pmin, 0.1) <= min(pmax, remaining_load)].
    When it is, its output becomes
    [max(min(remaining_load, pmax), pmin)] rounded to 0.1 MW (at most
    0.05 away), which is positive and at most [pmax], the remaining load
    is reduced by that increment and rounded, and progress is recorded;
    when it is not, the state is unchanged.  Under the test [pmin] is at
    most the remaining load, so the increment is also
    [min(remaining_load, pmax)] rounded. *)
Theorem idle_unit_turn_on (st : dstate) (i : nat) (plant : PowerPlant) :
  is_wind plant = false ->
  (i < length (production_plan_of st))%nat ->
  get_p (production_plan_of st) i == 0 ->
  (0 < pmax plant)%Z ->
  let st' := fst (greedy_unit st (i, plant)) in
  let increment :=
    round1 (py_max (py_min (remaining_load st) (inject_Z (pmax plant)))
                   (inject_Z (pmin plant))) in
  (py_max (inject_Z (pmin plant)) tenth
     <= py_min (inject_Z (pmax plant)) (remaining_load st) ->
   get_p (production_plan_of st') i == increment /\
   0 < get_p (production_plan_of st') i /\
   get_p (production_plan_of st') i <= inject_Z (pmax plant) /\
   remaining_load st' = round1 (remaining_load st - increment) /\
   made_progress st' = true /\
   increment = round1 (py_min (remaining_load st) (inject_Z (pmax plant))) /\
   Qabs (increment
         - py_max (py_min (remaining_load st) (inject_Z (pmax plant)))
                  (inject_Z (pmin plant))) <= 1 # 20) /\
  (~ py_max (inject_Z (pmin plant)) tenth
       <= py_min (inject_Z (pmax plant)) (remaining_load st) ->
   st' = st /\ get_p (production_plan_of st') i == 0).
Proof.
  intros Hw Hi Hc Hpos st' increment.
  assert (Hp : 0 < inject_Z (pmax plant)).
  { change 0 with (inject_Z 0). now rewrite <- Zlt_Qlt. }
  subst st'. unfold greedy_unit.
  set (cur := get_p (production_plan_of st) i) in *.
  set (rem := remaining_load st) in *.
  rewrite Hw. cbn [orb].
  assert (E1 : Qle_bool (inject_Z (pmax plant)) cur = false)
    by (apply Qle_bool_false; lra).
  assert (E2 : Qeq_bool cur 0 = true) by (now apply Qeq_bool_iff).
  rewrite E1, E2.
  set (raw := py_max (py_min rem (inject_Z (pmax plant))) (inject_Z (pmin plant))) in *.
  assert (Hguard :
    py_max (inject_Z (pmin plant)) tenth <= py_min (inject_Z (pmax plant)) (rem + cur)
    <-> py_max (inject_Z (pmin plant)) tenth <= py_min (inject_Z (pmax plant)) rem).
  { rewrite !py_min_le_iff. split; intros [A B]; split; lra. }
  split; intro G.
  - assert (G' := proj2 Hguard G). apply Qle_bool_iff in G'. rewrite G'.
    apply py_min_le_iff in G. destruct G as [Gp Gr].
    assert (Gpmin : inject_Z (pmin plant) <= py_max (inject_Z (pmin plant)) tenth
                    /\ tenth <= py_max (inject_Z (pmin plant)) tenth).
    { destruct (py_max_spec (inject_Z (pmin plant)) tenth) as [[H ->]|[H ->]];
        split; lra. }
    assert (Hraw : tenth <= raw /\ raw <= inject_Z (pmax plant)).
    { subst raw.
      destruct (py_min_spec rem (inject_Z (pmax plant))) as [[H ->]|[H ->]];
        match goal with
        | |- context [py_max ?a ?b] =>
            destruct (py_max_spec a b) as [[Hx ->]|[Hx ->]]
        end; split; lra. }
    destruct Hraw as [Hlo Hhi].
    pose proof (round1_ge_tenth raw Hlo) as Hinc.
    fold increment in Hinc. fold increment.
    assert (E3 : Qle_bool tenth increment = true) by (now apply Qle_bool_iff).
    rewrite E3. cbn [fst production_plan_of remaining_load made_progress].
    rewrite get_p_set_p_same by exact Hi.
    assert (Hsame : round1 (cur + increment) == increment)
      by (apply round1_after_zero; exact Hc).
    repeat apply conj; try reflexivity.
    + exact Hsame.
    + rewrite Hsame. unfold tenth in Hinc. lra.
    + rewrite Hsame. apply round1_le_Z. exact Hhi.
    + subst increment raw. unfold py_max at 1.
      assert (En : Qlt_bool (py_min rem (inject_Z (pmax plant)))
                            (inject_Z (pmin plant)) = false).
      { apply Qlt_bool_false.
        destruct (py_min_spec rem (inject_Z (pmax plant))) as [[H ->]|[H ->]];
          lra. }
      now rewrite En.
    + apply round1_near.
  - assert (G' : Qle_bool (py_max (inject_Z (pmin plant)) tenth)
                          (py_min (inject_Z (pmax plant)) (rem + cur)) = false).
    { apply not_true_is_false. intro E.
      apply Qle_bool_iff in E. apply Hguard in E. contradiction. }
    rewrite G'. cbn [fst]. split; [reflexivity | exact Hc].
Qed.

Lemma idle_unit_turn_on_witness :
  let st := mkState [mkEntry "w" 111; mkEntry "g" 0] 369 false [] in
  let plant := mkPowerPlant "g" "gasfired" (53 # 100) 100 460 (1940 # 53) 460 in
  get_p (production_plan_of (fst (greedy_unit st (1%nat, plant)))) 1 == 369 /\
  remaining_load (fst (greedy_unit st (1%nat, plant))) == 0.
Proof.
  intros st plant.
  assert (G : py_max (inject_Z (pmin plant)) tenth
              <= py_min (inject_Z (pmax plant)) (remaining_load st))
    by (vm_compute; discriminate).
  destruct (idle_unit_turn_on st 1 plant) as [Hon _];
    [reflexivity | simpl; lia | reflexivity | reflexivity |].
  destruct (Hon G) as (Hp & _ & _ & Hr & _).
  split.
  - rewrite Hp. vm_compute. reflexivity.
  - rewrite Hr. vm_compute. reflexivity.
Defined.

(** ** Counting saturated units *)

Lemma filter_length_le {A} (f g : A -> bool) (l : list A) :
  (forall x, In x l -> g x = true -> f x = true) ->
  (length (filter g l) <= length (filter f l))%nat.
Proof.
  induction l as [|y l IH]; intro H; simpl; [lia|].
  assert (IH' := IH (fun x Hx => H x (or_intror Hx))).
  pose proof (H y (or_introl eq_refl)) as Hy.
  destruct (g y); destruct (f y); simpl; try lia;
    discriminate (Hy eq_refl).
Qed.

Lemma filter_length_lt {A} (f g : A -> bool) (l : list A) (x0 : A) :
  (forall x, In x l -> g x = true -> f x = true) ->
  In x0 l -> f x0 = true -> g x0 = false ->
  (length (filter g l) < length (filter f l))%nat.
Proof.
  induction l as [|y l IH]; intros H Hin Hf Hg; simpl; [contradiction|].
  pose proof (filter_length_le f g l (fun x Hx => H x (or_intror Hx))) as Hle.
  pose proof (H y (or_introl eq_refl)) as Hy.
  destruct Hin as [->|Hin].
  - rewrite Hf, Hg. simpl. lia.
  - assert (IH' := IH (fun x Hx => H x (or_intror Hx)) Hin Hf Hg).
    destruct (g y); destruct (f y); simpl; try lia;
      discriminate (Hy eq_refl).
Qed.

Lemma filter_enumerate_snd {A} (f : A -> bool) (k : nat) (l : list A) :
  length (filter (fun ip => f (snd ip)) (enumerate_from k l))
  = length (filter f l).
Proof.
  revert k. induction l as [|x l IH]; intro k; simpl; [reflexivity|].
  destruct (f x); simpl; now rewrite IH.
Qed.

Lemma saturated_cost_bearing plan ip :
  saturated plan ip = true -> cost_bearing (snd ip) = true.
Proof.
  unfold saturated. intro H. now apply andb_true_iff in H.
Qed.

Lemma unsaturated_below_count plants plan i plant :
  In (i, plant) (enumerate plants) ->
  cost_bearing plant = true ->
  saturated plan (i, plant) = false ->
  (saturated_units plants plan < cost_bearing_units plants)%nat.
Proof.
  intros Hin Hc Hs. unfold saturated_units, cost_bearing_units, enumerate.
  rewrite <- (filter_enumerate_snd cost_bearing 0 plants).
  apply (filter_length_lt _ _ _ (i, plant)); auto.
  intros x _. apply saturated_cost_bearing.
Qed.

(** One loop body under the invariant: nothing changes, or progress is
    recorded for a unit that was not saturated, no unit leaves [pmax],
    and either the load is met (and the loop broken) or the unit is now
    saturated. *)
Lemma greedy_unit_measure plants target st i plant :
  In (i, plant) (enumerate plants) ->
  Inv plants target st ->
  greedy_unit st (i, plant) = (st, false) \/
  exists st' stop,
    greedy_unit st (i, plant) = (st', stop) /\
    made_progress st' = true /\
    cost_bearing plant = true /\
    saturated (production_plan_of st) (i, plant) = false /\
    (forall ip, saturated (production_plan_of st) ip = true ->
                saturated (production_plan_of st') ip = true) /\
    (stop = true -> remaining_load st' <= tenth) /\
    (stop = false -> saturated (production_plan_of st') (i, plant) = true).
Proof.
  intros Hin Hinv.
  pose proof (enumerate_index _ _ _ Hin) as Hi.
  rewrite <- (inv_length _ _ _ Hinv) in Hi.
  destruct (greedy_unit_cases st i plant (inv_rem _ _ _ Hinv) (inv_plan _ _ _ Hinv i))
    as [E|(inc & v & r & Hw & Hlt & _ & Hinc & _ & Hor & _ & _ & Ev & Er & E)];
    [now left|].
  right. eexists. eexists. split; [exact E|].
  cbn [production_plan_of remaining_load made_progress].
  repeat apply conj.
  - reflexivity.
  - unfold cost_bearing. now rewrite Hw.
  - unfold saturated. cbn [fst snd]. apply andb_false_iff. right.
    apply Qle_bool_false. exact Hlt.
  - intros [j pl]. unfold saturated. cbn [fst snd]. intro H.
    apply andb_true_iff in H. destruct H as [Hc Hs]. rewrite Hc. cbn [andb].
    apply Qle_bool_iff in Hs. apply Qle_bool_iff.
    destruct (Nat.eq_dec i j) as [<-|Hne].
    + rewrite get_p_set_p_same by exact Hi. unfold tenth in Hinc. lra.
    + rewrite get_p_set_p_other by exact Hne. exact Hs.
  - intro Hstop. now apply Qle_bool_iff.
  - intro Hstop. apply Qle_bool_false in Hstop.
    unfold saturated. cbn [fst snd]. unfold cost_bearing. rewrite Hw. cbn.
    apply Qle_bool_iff. rewrite get_p_set_p_same by exact Hi.
    destruct Hor as [Ho|Ho]; [unfold tenth in Hstop; lra | lra].
Qed.

(** One pass under the invariant. *)
Lemma greedy_pass_measure plants target l st :
  (forall ip, In ip l -> In ip (enumerate plants)) ->
  Inv plants target st ->
  (saturated_units plants (production_plan_of st)
   <= saturated_units plants (production_plan_of (greedy_pass l st)))%nat /\
  (greedy_pass l st = st \/
   (made_progress (greedy_pass l st) = true /\
    (saturated_units plants (production_plan_of st)
     < cost_bearing_units plants)%nat /\
    (remaining_load (greedy_pass l st) <= tenth \/
     (saturated_units plants (production_plan_of st)
      < saturated_units plants (production_plan_of (greedy_pass l st)))%nat))).
Proof.
  revert st. induction l as [|[i plant] rest IH]; intros st Hl Hinv;
    cbn [greedy_pass].
  - split; [lia | now left].
  - assert (Hin : In (i, plant) (enumerate plants)) by (apply Hl; now left).
    assert (Hrest : forall ip, In ip rest -> In ip (enumerate plants))
      by (intros ip H; apply Hl; now right).
    pose proof (Inv_greedy_unit plants target st i plant
                  (enumerate_index _ _ _ Hin) Hinv) as Hinv'.
    destruct (greedy_unit_measure plants target st i plant Hin Hinv)
      as [E|(st1 & stop & E & Hprog & Hcb & Hunsat & Hmono & Hbrk & Hsat)].
    + rewrite E. apply IH; assumption.
    + rewrite E in *. cbn [fst] in Hinv'.
      assert (Hle : (saturated_units plants (production_plan_of st)
                     <= saturated_units plants (production_plan_of st1))%nat).
      { apply filter_length_le. intros x _. apply Hmono. }
      assert (Hn : (saturated_units plants (production_plan_of st)
                    < cost_bearing_units plants)%nat).
      { eapply unsaturated_below_count; eassumption. }
      destruct stop.
      * split; [exact Hle|]. right. repeat apply conj; auto.
      * assert (Hlt : (saturated_units plants (production_plan_of st)
                       < saturated_units plants (production_plan_of st1))%nat).
        { apply (filter_length_lt _ _ _ (i, plant)); auto. }
        destruct (IH st1 Hrest Hinv') as [Hle' _].
        split; [lia|]. right. repeat apply conj.
        -- now apply greedy_pass_keeps_progress.
        -- exact Hn.
        -- right. lia.
Qed.

(** The loop ends within as many passes as there are unsaturated
    cost-bearing units, plus one. *)
Lemma greedy_loop_terminates plants target fuel st :
  Inv plants target st ->
  (cost_bearing_units plants - saturated_units plants (production_plan_of st)
   < fuel)%nat ->
  exists r, greedy_loop fuel plants st = Some r.
Proof.
  revert st. induction fuel as [|fuel IH]; intros st Hinv Hf; [lia|].
  cbn [greedy_loop].
  destruct (Qlt_bool tenth (remaining_load st)); [|eauto].
  assert (Hc : Inv plants target (clear_progress st))
    by (now apply Inv_clear_progress).
  destruct (greedy_pass_measure plants target (enumerate plants)
              (clear_progress st) (fun ip H => H) Hc) as [_ Hm].
  pose proof (Inv_greedy_pass plants target (enumerate plants) (clear_progress st)
                (enumerate_in_range plants) Hc) as Hinv'.
  set (st' := greedy_pass (enumerate plants) (clear_progress st)) in *.
  destruct (made_progress st') eqn:Ep; [|eauto].
  destruct Hm as [Hm|(_ & Hn & [Hdone|Hlt])].
  - rewrite Hm in Ep. discriminate Ep.
  - exists st'. apply Qlt_bool_false in Hdone.
    destruct fuel; cbn [greedy_loop]; rewrite Hdone; reflexivity.
  - apply IH; [exact Hinv'|]. cbn [clear_progress production_plan_of] in *. lia.
Qed.

(** A loop that ends satisfied needs no more passes than there are
    unsaturated cost-bearing units. *)
Lemma greedy_loop_satisfied_bound plants target fuel st r :
  Inv plants target st ->
  greedy_loop fuel plants st = Some r ->
  remaining_load r <= tenth ->
  greedy_loop
    (cost_bearing_units plants - saturated_units plants (production_plan_of st))
    plants st = Some r.
Proof.
  revert st. induction fuel as [|fuel IH]; intros st Hinv E Hr.
  - cbn [greedy_loop] in E.
    destruct (Qlt_bool tenth (remaining_load st)) eqn:Et; [discriminate|].
    destruct (_ - _)%nat; cbn [greedy_loop]; rewrite Et; exact E.
  - cbn [greedy_loop] in E.
    destruct (Qlt_bool tenth (remaining_load st)) eqn:Et.
    + assert (Hc : Inv plants target (clear_progress st))
        by (now apply Inv_clear_progress).
      destruct (greedy_pass_measure plants target (enumerate plants)
                  (clear_progress st) (fun ip H => H) Hc) as [_ Hm].
      pose proof (Inv_greedy_pass plants target (enumerate plants)
                    (clear_progress st) (enumerate_in_range plants) Hc) as Hinv'.
      set (st' := greedy_pass (enumerate plants) (clear_progress st)) in *.
      destruct (made_progress st') eqn:Ep.
      * destruct Hm as [Hm|(_ & Hn & Hcase)];
          [rewrite Hm in Ep; discriminate Ep|].
        cbn [clear_progress production_plan_of] in Hn, Hcase.
        pose proof (IH st' Hinv' E Hr) as IH'.
        destruct (cost_bearing_units plants
                  - saturated_units plants (production_plan_of st))%nat
          as [|k] eqn:Ek; [lia|].
        cbn [greedy_loop]. rewrite Et. fold st'. rewrite Ep.
        destruct Hcase as [Hdone|Hlt].
        -- apply Qlt_bool_false in Hdone.
           assert (Er : r = st').
           { destruct fuel; cbn [greedy_loop] in E; rewrite Hdone in E;
               now inversion E. }
           subst r. destruct k; cbn [greedy_loop]; rewrite Hdone; reflexivity.
        -- apply (greedy_loop_more_fuel plants
                    (cost_bearing_units plants
                     - saturated_units plants (production_plan_of st'))%nat);
             [lia | exact IH'].
      * destruct Hm as [Hm|(Hm & _)]; [|congruence].
        inversion E; subst r. cbn in Hr. rewrite Hm in Hr. cbn in Hr.
        apply Qlt_bool_iff in Et. lra.
    + destruct (_ - _)%nat; cbn [greedy_loop]; rewrite Et; exact E.
Qed.

(** ** The number of passes *)

(** C7, as it holds.  The loop always terminates, within one pass more
    than there are cost-bearing units.  A run that does not stall needs
    at most as many passes as there are cost-bearing units.  At any state
    of a run, a pass that applies no increment changes nothing and ends
    the loop at once with the warning, and a pass that applies one either
    brings the remaining load to 0.1 MW or less or leaves more units at
    their [pmax] than before. *)
Theorem greedy_loop_pass_bound (plants : list PowerPlant) (target : Z) :
  passes_within (S (cost_bearing_units plants)) plants target /\
  (forall fuel plan lg,
     _optimize_production fuel plants target = Some (plan, lg) ->
     stalled lg = false ->
     _optimize_production (cost_bearing_units plants) plants target
       = Some (plan, lg)) /\
  (forall st,
     Inv plants target st ->
     Qlt_bool tenth (remaining_load st) = true ->
     let st' := greedy_pass (enumerate plants) (clear_progress st) in
     (made_progress st' = false ->
      st' = clear_progress st /\
      forall fuel,
        greedy_loop (S fuel) plants st
          = Some (warn st' (CouldNotSatisfy (remaining_load st')))) /\
     (made_progress st' = true ->
      remaining_load st' <= tenth \/
      (saturated_units plants (production_plan_of st)
       < saturated_units plants (production_plan_of st'))%nat)).
Proof.
  repeat apply conj.
  - unfold passes_within, _optimize_production.
    destruct (greedy_loop_terminates plants target (S (cost_bearing_units plants))
                (wind_pass plants (initial_state plants target))
                (Inv_wind_pass plants target)) as [r E]; [lia|].
    rewrite E. eauto.
  - intros fuel plan lg E Hs.
    destruct (optimize_inv _ _ _ _ _ E) as (st & El & Hinv & Ep & Elg & Hend).
    rewrite Elg, final_adjustment_stalled in Hs.
    destruct Hend as [[Hrem _]|[_ Hlog]];
      [|rewrite Hlog in Hs; discriminate Hs].
    pose proof (greedy_loop_satisfied_bound plants target fuel _ st
                  (Inv_wind_pass plants target) El Hrem) as Hb.
    unfold _optimize_production.
    rewrite (greedy_loop_more_fuel plants _ (cost_bearing_units plants) _ _
               (Nat.le_sub_l _ _) Hb).
    now rewrite Ep, Elg.
  - intros st Hinv Et st'.
    assert (Hc : Inv plants target (clear_progress st))
      by (now apply Inv_clear_progress).
    destruct (greedy_pass_measure plants target (enumerate plants)
                (clear_progress st) (fun ip H => H) Hc) as [_ Hm].
    fold st' in Hm. split; intro Ep.
    + destruct Hm as [Hm|(Hm & _)]; [|congruence].
      split; [exact Hm|]. intro fuel. cbn [greedy_loop]. rewrite Et.
      fold st'. now rewrite Ep.
    + destruct Hm as [Hm|(_ & _ & Hcase)];
        [rewrite Hm in Ep; discriminate Ep | exact Hcase].
Qed.

Lemma greedy_loop_pass_bound_witness :
  let plants :=
    [ mkPowerPlant "a" "gasfired" (1 # 2) 0 10 32 10;
      mkPowerPlant "b" "gasfired" (1 # 2) 0 10 32 10 ] in
  exists plan,
    _optimize_production (cost_bearing_units plants) plants 15
      = Some (plan, []) /\
    plan_sum plan == 15.
Proof.
  intro plants.
  assert (E : exists plan,
             _optimize_production 5 plants 15 = Some (plan, []) /\
             plan_sum plan == 15).
  { eexists. split; vm_compute; reflexivity. }
  destruct E as (plan & E & Hs). exists plan. split; [|exact Hs].
  destruct (greedy_loop_pass_bound plants 15) as (_ & Hb & _).
  exact (Hb 5%nat plan [] E eq_refl).
Defined.

(** C7, as stated, fails when the run stalls: a load of 20 on a single
    unit of 10 takes a first pass that saturates the unit and a second
    one that finds nothing to do; one pass, the number of cost-bearing
    units, is not enough. *)
Lemma stalled_run_needs_one_more_pass :
  let plants := [mkPowerPlant "g" "gasfired" (1 # 2) 0 10 32 10] in
  cost_bearing_units plants = 1%nat /\
  ~ passes_within (cost_bearing_units plants) plants 20 /\
  passes_within (S (cost_bearing_units plants)) plants 20.
Proof.
  intro plants. repeat apply conj.
  - reflexivity.
  - intros [r E]. vm_compute in E. discriminate E.
  - eexists. vm_compute. reflexivity.
Qed.

(** ** Units that are on stay on *)

Lemma stays_on_refl plan : stays_on plan plan.
Proof. intros i H. exact H. Qed.

Lemma stays_on_trans p1 p2 p3 : stays_on p1 p2 -> stays_on p2 p3 -> stays_on p1 p3.
Proof. intros H1 H2 i H. apply H2, H1, H. Qed.

Lemma adjust_scan_cases (l : list (nat * PowerPlant)) difference plan :
  adjust_scan l difference plan = plan \/
  exists i plant,
    In (i, plant) l /\ 0 < get_p plan i /\
    inject_Z (pmin plant) <= get_p plan i + difference /\
    get_p plan i + difference <= inject_Z (pmax plant) /\
    adjust_scan l difference plan
      = set_p plan i (round1 (get_p plan i + difference)).
Proof.
  induction l as [|[i plant] rest IH]; cbn [adjust_scan]; [now left|].
  destruct (Qlt_bool 0 (get_p plan i)) eqn:Ep.
  - destruct (Qle_bool (inject_Z (pmin plant)) (get_p plan i + difference)) eqn:E1;
      cbn [andb].
    + destruct (Qle_bool (get_p plan i + difference) (inject_Z (pmax plant))) eqn:E2.
      * right. exists i, plant. repeat apply conj; auto.
        -- now left.
        -- now apply Qlt_bool_iff.
        -- now apply Qle_bool_iff.
        -- now apply Qle_bool_iff.
      * destruct IH as [IH|(j & pl & Hin & H)]; [now left|].
        right. exists j, pl. split; [now right | exact H].
    + destruct IH as [IH|(j & pl & Hin & H)]; [now left|].
      right. exists j, pl. split; [now right | exact H].
  - destruct IH as [IH|(j & pl & Hin & H)]; [now left|].
    right. exists j, pl. split; [now right | exact H].
Qed.

Lemma stays_on_set_p plan i v :
  (0 < get_p plan i -> 0 < v) -> stays_on plan (set_p plan i v).
Proof.
  intros Hv j Hj. destruct (Nat.eq_dec i j) as [<-|Hne].
  - destruct (Nat.lt_ge_cases i (length plan)) as [Hlt|Hge].
    + rewrite get_p_set_p_same by exact Hlt. now apply Hv.
    + rewrite get_p_beyond in Hj by exact Hge. lra.
  - now rewrite get_p_set_p_other.
Qed.

Lemma stays_on_greedy_unit plants target st ip :
  Inv plants target st ->
  stays_on (production_plan_of st) (production_plan_of (fst (greedy_unit st ip))).
Proof.
  intro Hinv. destruct ip as [i plant].
  destruct (greedy_unit_cases st i plant (inv_rem _ _ _ Hinv) (inv_plan _ _ _ Hinv i))
    as [->|(inc & v & r & _ & _ & _ & Hinc & _ & _ & _ & _ & Ev & _ & ->)];
    [apply stays_on_refl|].
  cbn [fst production_plan_of]. apply stays_on_set_p.
  intro Hp. unfold tenth in Hinc. lra.
Qed.

Lemma stays_on_final_adjustment plants target st :
  Inv plants target st ->
  stays_on (production_plan_of st)
           (production_plan_of (final_adjustment plants target st)).
Proof.
  intro Hinv. unfold final_adjustment.
  match goal with
  | |- context [Qlt_bool tenth ?a] => destruct (Qlt_bool tenth a) eqn:Ed
  end; [|apply stays_on_refl].
  cbn [production_plan_of warn].
  apply Qlt_bool_iff in Ed.
  set (difference := inject_Z target - plan_sum (production_plan_of st)) in *.
  destruct (adjust_scan_cases (rev (enumerate plants)) difference
              (production_plan_of st))
    as [->|(i & plant & _ & Hpos & _ & _ & ->)]; [apply stays_on_refl|].
  apply stays_on_set_p. intros _.
  pose proof (inv_sum _ _ _ Hinv) as Hs.
  assert (Hrem : 0 <= remaining_load st).
  { destruct (inv_nonneg _ _ _ Hinv) as [H|H]; [exact H|].
    specialize (H i). lra. }
  assert (Hd : 0 <= difference) by (subst difference; lra).
  rewrite (Qabs_pos _ Hd) in Ed.
  assert (Hn : tenth <= get_p (production_plan_of st) i + difference) by lra.
  pose proof (round1_ge_tenth _ Hn) as Hr. unfold tenth in Hr. lra.
Qed.

(** Each step keeps on what is on, and keeps what holds at the program
    points. *)
Lemma step_stays_on plants target c c' :
  CInv plants target c -> step plants target c c' ->
  stays_on (production_plan_of (snd c)) (production_plan_of (snd c')).
Proof.
  intros [Hinv Hat] Hstep.
  destruct Hstep; unfold at_pc in Hat; cbn [fst snd] in *;
    try (apply stays_on_refl);
    try (assert (Hi : Inv plants target st) by (apply Hinv; discriminate)).
  - destruct Hat as (k & rest & Et & Hk & Hz).
    destruct rest as [|plant rest]; [discriminate Et|].
    cbn [enumerate_from] in Et. inversion Et; subst ip todo.
    destruct (wind_step_cases st k plant (inv_rem _ _ _ Hi))
      as [->|(v & _ & _ & _ & _ & _ & _ & ->)]; [apply stays_on_refl|].
    cbn [production_plan_of]. apply stays_on_set_p.
    intro Hp. specialize (Hz k (Nat.le_refl k)). lra.
  - now apply (stays_on_greedy_unit plants target).
  - now apply (stays_on_greedy_unit plants target).
  - now apply stays_on_final_adjustment.
Qed.

Lemma step_CInv plants target c c' :
  CInv plants target c -> step plants target c c' -> CInv plants target c'.
Proof.
  intros [Hinv Hat] Hstep.
  destruct Hstep; unfold at_pc in Hat; cbn [fst snd] in *;
    try (assert (Hi : Inv plants target st) by (apply Hinv; discriminate)).
  - destruct Hat as (k & rest & Et & Hk & Hz).
    destruct rest as [|plant rest]; [discriminate Et|].
    cbn [enumerate_from] in Et. inversion Et; subst ip todo.
    cbn [length] in Hk. split; unfold at_pc; cbn [fst snd].
    + intros _. apply Inv_wind_step; [lia | apply Hz; lia | exact Hi].
    + exists (S k), rest. repeat apply conj; [reflexivity | lia |].
      intros j Hj.
      destruct (wind_step_cases st k plant (inv_rem _ _ _ Hi))
        as [->|(v & _ & _ & _ & _ & _ & _ & ->)].
      * apply Hz. lia.
      * cbn [production_plan_of]. rewrite get_p_set_p_other by lia.
        apply Hz. lia.
  - split; unfold at_pc; cbn [fst snd]; [intros _; exact Hi | exact I].
  - split; unfold at_pc; cbn [fst snd].
    + intros _. now apply Inv_clear_progress.
    + apply enumerate_in_range.
  - split; unfold at_pc; cbn [fst snd]; [intros _; exact Hi | exact I].
  - split; unfold at_pc; cbn [fst snd].
    + intros _. destruct ip as [i plant]. apply Inv_greedy_unit; [|exact Hi].
      apply (Hat (i, plant)). now left.
    + intros ip' Hin. apply Hat. now right.
  - split; unfold at_pc; cbn [fst snd].
    + intros _. destruct ip as [i plant]. apply Inv_greedy_unit; [|exact Hi].
      apply (Hat (i, plant)). now left.
    + intros ip' [].
  - split; unfold at_pc; cbn [fst snd]; [intros _; exact Hi | exact I].
  - split; unfold at_pc; cbn [fst snd]; [intros _; now apply Inv_warn | exact I].
  - split; unfold at_pc; cbn [fst snd]; [intros H; now contradiction H | exact I].
Qed.

Lemma CInv_start plants target : CInv plants target (start plants target).
Proof.
  split; unfold at_pc; cbn [fst snd start].
  - intros _. apply Inv_initial.
  - exists 0%nat, plants. repeat apply conj; [reflexivity | simpl; lia |].
    intros j _. cbn [initial_state production_plan_of].
    now rewrite get_p_initial.
Qed.

Lemma steps_CInv plants target c c' :
  CInv plants target c ->
  steps plants target c c' -> CInv plants target c'.
Proof.
  intros H Hs. induction Hs as [|c c1 c2 Hstep _ IH]; [exact H|].
  apply IH. eapply step_CInv; eassumption.
Qed.

Lemma steps_stay_on plants target c c' :
  CInv plants target c ->
  steps plants target c c' ->
  stays_on (production_plan_of (snd c)) (production_plan_of (snd c')).
Proof.
  intros H Hs. induction Hs as [|c c1 c2 Hstep _ IH]; [apply stays_on_refl|].
  eapply stays_on_trans.
  - eapply step_stays_on; eassumption.
  - apply IH. eapply step_CInv; eassumption.
Qed.

(** The steps follow the function: what [_optimize_production] returns
    is what the steps reach at the [return]. *)
Lemma steps_trans plants target c1 c2 c3 :
  steps plants target c1 c2 ->
  steps plants target c2 c3 ->
  steps plants target c1 c3.
Proof.
  intros H1 H2. induction H1 as [|c c1 c2 Hs _ IH]; [exact H2|].
  eapply steps_cons; [exact Hs | now apply IH].
Qed.

Lemma wind_steps plants target l st :
  steps plants target
    (InWind l, st) (LoopTest, fold_left wind_step l st).
Proof.
  revert st. induction l as [|ip rest IH]; intro st; cbn [fold_left].
  - eapply steps_cons; [apply step_wind_done | apply steps_refl].
  - eapply steps_cons; [apply step_wind | apply IH].
Qed.

Lemma pass_steps plants target l st :
  steps plants target
    (InPass l, st) (InPass [], greedy_pass l st).
Proof.
  revert st. induction l as [|ip rest IH]; intro st; cbn [greedy_pass].
  - apply steps_refl.
  - destruct (greedy_unit st ip) as [st' stop] eqn:E. destruct stop.
    + eapply steps_cons; [|apply steps_refl].
      replace st' with (fst (greedy_unit st ip)) by (now rewrite E).
      apply step_break. now rewrite E.
    + eapply steps_cons; [|apply IH].
      replace st' with (fst (greedy_unit st ip)) by (now rewrite E).
      apply step_unit. now rewrite E.
Qed.

Lemma loop_steps plants target fuel st r :
  greedy_loop fuel plants st = Some r ->
  steps plants target (LoopTest, st) (BeforeAdjust, r).
Proof.
  revert st. induction fuel as [|fuel IH]; intros st E; cbn [greedy_loop] in E.
  - destruct (Qlt_bool tenth (remaining_load st)) eqn:Et; [discriminate|].
    inversion E; subst r.
    eapply steps_cons; [now apply step_exit | apply steps_refl].
  - destruct (Qlt_bool tenth (remaining_load st)) eqn:Et.
    + eapply steps_cons; [now apply step_enter|].
      eapply steps_trans; [apply pass_steps|].
      destruct (made_progress (greedy_pass (enumerate plants) (clear_progress st)))
        eqn:Ep.
      * eapply steps_cons; [now apply step_again | now apply IH].
      * inversion E; subst r.
        eapply steps_cons; [now apply step_stall | apply steps_refl].
    + inversion E; subst r.
      eapply steps_cons; [now apply step_exit | apply steps_refl].
Qed.

Lemma optimize_steps fuel plants target plan lg :
  _optimize_production fuel plants target = Some (plan, lg) ->
  exists st,
    steps plants target (start plants target) (Return, st) /\
    production_plan_of st = plan /\ log st = lg.
Proof.
  unfold _optimize_production. intro E.
  destruct (greedy_loop fuel plants _) as [r|] eqn:El; [|discriminate].
  inversion E; subst. eexists. split; [|split; reflexivity].
  eapply steps_trans; [apply wind_steps|].
  eapply steps_trans; [eapply loop_steps; exact El|].
  eapply steps_cons; [apply step_adjust | apply steps_refl].
Qed.

(** The steps leave no choice: the states reached from the start are
    those of the one run. *)
Lemma step_deterministic plants target c c1 c2 :
  step plants target c c1 -> step plants target c c2 -> c1 = c2.
Proof.
  intros H1 H2.
  inversion H1; subst; inversion H2; subst; try reflexivity; congruence.
Qed.

(** C8.  Along the steps of one [_optimize_production], from the start
    to any state [c1] and from there to any later state [c2], a unit with
    [p > 0] at [c1] still has [p > 0] at [c2]: neither the wind loop, nor
    a later pass, nor the final adjustment returns it to 0.  The steps
    end, at the [return], in the plan and the log of the function. *)
Theorem on_units_stay_on (plants : list PowerPlant) (target : Z) :
  (forall c1 c2 i,
     steps plants target (start plants target) c1 ->
     steps plants target c1 c2 ->
     0 < get_p (production_plan_of (snd c1)) i ->
     0 < get_p (production_plan_of (snd c2)) i) /\
  (forall fuel plan lg,
     _optimize_production fuel plants target = Some (plan, lg) ->
     exists st,
       steps plants target (start plants target) (Return, st) /\
       production_plan_of st = plan /\ log st = lg).
Proof.
  split.
  - intros c1 c2 i H1 H2.
    apply (steps_stay_on plants target c1 c2); [|exact H2].
    apply (steps_CInv plants target (start plants target)); [|exact H1].
    apply CInv_start.
  - intros fuel plan lg. apply optimize_steps.
Qed.

(** The wind park that the final adjustment raises from 50 to 80 is on
    from the first step to the last. *)
Lemma on_units_stay_on_witness :
  let plants :=
    [ mkPowerPlant "w" "windturbine" 1 0 100 0 50;
      mkPowerPlant "g" "gasfired" (1 # 2) 100 200 32 200 ] in
  exists plan lg,
    _optimize_production 2 plants 80 = Some (plan, lg) /\
    0 < get_p plan 0.
Proof.
  intro plants.
  assert (E : exists plan lg, _optimize_production 2 plants 80 = Some (plan, lg)).
  { eexists. eexists. vm_compute. reflexivity. }
  destruct E as (plan & lg & E). exists plan, lg. split; [exact E|].
  destruct (on_units_stay_on plants 80) as [Hon Hrun].
  destruct (Hrun 2%nat plan lg E) as (st & Hsteps & <- & _).
  unfold start in Hsteps. cbn [enumerate enumerate_from plants] in Hsteps.
  inversion Hsteps as [|c0 c1 c2 Hfirst Hrest]; subst.
  inversion Hfirst; subst.
  apply (Hon (InWind [(1%nat, mkPowerPlant "g" "gasfired" (1 # 2) 100 200 32 200)],
              wind_step (initial_state plants 80)
                (0%nat, mkPowerPlant "w" "windturbine" 1 0 100 0 50))
             (Return, st) 0%nat).
  - eapply steps_cons; [apply step_wind | apply steps_refl].
  - exact Hrest.
  - vm_compute. reflexivity.
Defined.

(** * Further properties of the code *)

(** ** Indices and plants *)

Lemma In_enumerate_from {A} (k : nat) (l : list A) (i : nat) (x : A) :
  In (i, x) (enumerate_from k l) <->
  (k <= i)%nat /\ nth_error l (i - k) = Some x.
Proof.
  revert k. induction l as [|y l IH]; intro k; cbn [enumerate_from In].
  - split; [contradiction|]. intros [_ H]. destruct (i - k)%nat; discriminate.
  - rewrite IH. split.
    + intros [H|[Hk Hn]].
      * inversion H; subst. rewrite Nat.sub_diag. split; [lia | reflexivity].
      * split; [lia|]. replace (i - k)%nat with (S (i - S k)) by lia. exact Hn.
    + intros [Hk Hn]. destruct (Nat.eq_dec i k) as [->|Hne].
      * left. rewrite Nat.sub_diag in Hn. simpl in Hn. now inversion Hn.
      * right. split; [lia|].
        replace (i - k)%nat with (S (i - S k)) in Hn by lia. exact Hn.
Qed.

Lemma In_enumerate {A} (l : list A) (i : nat) (x : A) :
  In (i, x) (enumerate l) <-> nth_error l i = Some x.
Proof.
  unfold enumerate. rewrite In_enumerate_from, Nat.sub_0_r.
  split; [now intros [_ H] | intro H; split; [lia | exact H]].
Qed.

Lemma enumerate_functional {A} (l : list A) (i : nat) (x y : A) :
  In (i, x) (enumerate l) -> In (i, y) (enumerate l) -> x = y.
Proof.
  rewrite !In_enumerate. congruence.
Qed.

(** ** Bounds of the cost-bearing units *)

(** Before the final adjustment the plan sums to a whole number. *)
Lemma Inv_sum_integral plants target st :
  Inv plants target st -> integral (plan_sum (production_plan_of st)).
Proof.
  intro H. apply (integral_eq (inject_Z target - remaining_load st)).
  - pose proof (inv_sum _ _ _ H). lra.
  - apply integral_minus; [apply integral_inject_Z | apply (inv_rem _ _ _ H)].
Qed.

Lemma final_adjustment_cases plants target st :
  final_adjustment plants target st = st \/
  exists lg',
    final_adjustment plants target st
      = mkState (production_plan_of st) (remaining_load st) (made_progress st) lg' \/
    exists i plant,
      tenth < Qabs (inject_Z target - plan_sum (production_plan_of st)) /\
      In (i, plant) (enumerate plants) /\
      0 < get_p (production_plan_of st) i /\
      inject_Z (pmin plant)
        <= get_p (production_plan_of st) i
           + (inject_Z target - plan_sum (production_plan_of st)) /\
      get_p (production_plan_of st) i
        + (inject_Z target - plan_sum (production_plan_of st))
        <= inject_Z (pmax plant) /\
      final_adjustment plants target st
        = mkState (set_p (production_plan_of st) i
                     (round1 (get_p (production_plan_of st) i
                              + (inject_Z target
                                 - plan_sum (production_plan_of st)))))
                  (remaining_load st) (made_progress st) lg'.
Proof.
  unfold final_adjustment.
  match goal with
  | |- context [Qlt_bool tenth ?a] => destruct (Qlt_bool tenth a) eqn:Ed
  end; [|now left].
  apply Qlt_bool_iff in Ed.
  right. eexists. cbn [production_plan_of remaining_load made_progress log warn].
  destruct (adjust_scan_cases (rev (enumerate plants))
              (inject_Z target - plan_sum (production_plan_of st))
              (production_plan_of st))
    as [->|(i & plant & Hin & Hpos & Hlo & Hhi & ->)].
  - left. reflexivity.
  - right. exists i, plant. apply in_rev in Hin.
    repeat apply conj; auto.
Qed.

Lemma within_bounds_wind_step plants st k wplant i plant :
  In (k, wplant) (enumerate plants) ->
  In (i, plant) (enumerate plants) ->
  is_wind plant = false ->
  get_p (production_plan_of (wind_step st (k, wplant))) i
  = get_p (production_plan_of st) i.
Proof.
  intros Hk Hi Hw. unfold wind_step.
  destruct (is_wind wplant) eqn:Ew; cbn [andb]; [|reflexivity].
  destruct (Qlt_bool 0 (remaining_load st)); [|reflexivity].
  cbn [production_plan_of]. apply get_p_set_p_other.
  intros ->. rewrite (enumerate_functional _ _ _ _ Hk Hi) in Ew. congruence.
Qed.

(** ** Carrying a property through the loops

    A property of the state that the wind loop body keeps (at a unit
    whose entry is still 0), that the greedy loop body keeps, and that
    does not look at [made_progress] and the log, holds when the [while]
    loop is left. *)

Section Run.

Variables (plants : list PowerPlant) (target : Z) (P : dstate -> Prop).

Hypothesis P_wind :
  forall st k plant,
    Inv plants target st -> In (k, plant) (enumerate plants) ->
    get_p (production_plan_of st) k == 0 ->
    P st -> P (wind_step st (k, plant)).

Hypothesis P_unit :
  forall st ip,
    Inv plants target st -> In ip (enumerate plants) ->
    P st -> P (fst (greedy_unit st ip)).

Hypothesis P_flags :
  forall st b lg,
    P st -> P (mkState (production_plan_of st) (remaining_load st) b lg).

Lemma run_wind_from (pre rest : list PowerPlant) st :
  plants = pre ++ rest ->
  (forall j, (length pre <= j)%nat -> get_p (production_plan_of st) j == 0) ->
  Inv plants target st -> P st ->
  P (fold_left wind_step (enumerate_from (length pre) rest) st).
Proof.
  revert pre st. induction rest as [|plant rest IH]; intros pre st Hp Hz Hinv HP;
    cbn [enumerate_from fold_left]; [exact HP|].
  assert (Hin : In (length pre, plant) (enumerate plants)).
  { apply In_enumerate. rewrite Hp, nth_error_app2 by lia.
    now rewrite Nat.sub_diag. }
  assert (Hlen : (length pre < length plants)%nat).
  { rewrite Hp, length_app. simpl. lia. }
  replace (S (length pre)) with (length (pre ++ [plant]))
    by (rewrite length_app; simpl; lia).
  apply IH.
  - rewrite Hp, <- app_assoc. reflexivity.
  - intros j Hj. rewrite length_app in Hj. simpl in Hj.
    destruct (wind_step_cases st (length pre) plant (inv_rem _ _ _ Hinv))
      as [->|(v & _ & _ & _ & _ & _ & _ & ->)].
    + apply Hz. lia.
    + cbn [production_plan_of]. rewrite get_p_set_p_other by lia.
      apply Hz. lia.
  - apply Inv_wind_step; [exact Hlen | apply Hz; lia | exact Hinv].
  - apply P_wind; [exact Hinv | exact Hin | apply Hz; lia | exact HP].
Qed.

Lemma run_wind_pass :
  P (initial_state plants target) ->
  P (wind_pass plants (initial_state plants target)).
Proof.
  intro HP. apply (run_wind_from [] plants); auto.
  - intros j _. cbn [initial_state production_plan_of].
    now rewrite get_p_initial.
  - apply Inv_initial.
Qed.

Lemma run_pass (l : list (nat * PowerPlant)) st :
  (forall ip, In ip l -> In ip (enumerate plants)) ->
  Inv plants target st -> P st -> P (greedy_pass l st).
Proof.
  revert st. induction l as [|ip rest IH]; intros st Hl Hinv HP;
    cbn [greedy_pass]; [exact HP|].
  assert (Hin : In ip (enumerate plants)) by (apply Hl; now left).
  pose proof (P_unit st ip Hinv Hin HP) as HP'.
  assert (Hinv' : Inv plants target (fst (greedy_unit st ip))).
  { destruct ip as [i plant]. apply Inv_greedy_unit; [|exact Hinv].
    exact (enumerate_index _ _ _ Hin). }
  destruct (greedy_unit st ip) as [st' stop]. cbn [fst] in *.
  destruct stop; [exact HP'|].
  apply IH; auto. intros ip' H. apply Hl. now right.
Qed.

Lemma run_loop fuel st r :
  Inv plants target st -> P st ->
  greedy_loop fuel plants st = Some r -> P r.
Proof.
  revert st. induction fuel as [|fuel IH]; intros st Hinv HP E;
    cbn [greedy_loop] in E.
  - destruct (Qlt_bool tenth (remaining_load st)); [discriminate|].
    now inversion E; subst.
  - destruct (Qlt_bool tenth (remaining_load st)); [|now inversion E; subst].
    assert (Hc : Inv plants target (clear_progress st))
      by (now apply Inv_clear_progress).
    assert (HPc : P (clear_progress st)) by (apply P_flags; exact HP).
    pose proof (run_pass (enumerate plants) _ (fun ip H => H) Hc HPc) as HP'.
    pose proof (Inv_greedy_pass plants target (enumerate plants) _
                  (enumerate_in_range plants) Hc) as Hinv'.
    destruct (made_progress (greedy_pass (enumerate plants) (clear_progress st))).
    + exact (IH _ Hinv' HP' E).
    + inversion E; subst r. apply P_flags. exact HP'.
Qed.

Lemma run_before_adjustment fuel r :
  P (initial_state plants target) ->
  greedy_loop fuel plants (wind_pass plants (initial_state plants target)) = Some r ->
  P r.
Proof.
  intros HP E. eapply run_loop; [apply Inv_wind_pass | | exact E].
  now apply run_wind_pass.
Qed.

End Run.

(** Every cost-bearing unit is off or within its bounds, when the loop is
    left. *)
Lemma bounds_before_adjustment plants target fuel r :
  greedy_loop fuel plants (wind_pass plants (initial_state plants target)) = Some r ->
  forall i plant,
    In (i, plant) (enumerate plants) -> is_wind plant = false ->
    within_bounds plant (get_p (production_plan_of r) i).
Proof.
  apply (run_before_adjustment plants target
           (fun st => forall i plant,
              In (i, plant) (enumerate plants) -> is_wind plant = false ->
              within_bounds plant (get_p (production_plan_of st) i))).
  - intros st k wplant _ Hk _ HP i plant Hi Hw.
    rewrite (within_bounds_wind_step plants st k wplant i plant Hk Hi Hw).
    now apply HP.
  - intros st [j pl] Hinv Hj HP i plant Hi Hw.
    pose proof (enumerate_index _ _ _ Hj) as Hlt.
    rewrite <- (inv_length _ _ _ Hinv) in Hlt.
    destruct (greedy_unit_cases st j pl (inv_rem _ _ _ Hinv) (inv_plan _ _ _ Hinv j))
      as [->|(inc & v & r' & _ & _ & _ & Hinc & _ & _ & Hsat & Hpmin & Ev & _ & ->)];
      [now apply HP|].
    cbn [fst production_plan_of].
    destruct (Nat.eq_dec j i) as [->|Hne];
      [|rewrite get_p_set_p_other by exact Hne; now apply HP].
    rewrite (enumerate_functional _ _ _ _ Hj Hi) in *.
    rewrite get_p_set_p_same by exact Hlt. right.
    unfold tenth in Hinc.
    destruct (HP i plant Hi Hw) as [Hz|[Hlo Hhi]].
    + specialize (Hpmin Hz). split; lra.
    + split; lra.
  - intros st b lg HP. exact HP.
  - intros i plant _ _. left. cbn [initial_state production_plan_of].
    now rewrite get_p_initial.
Qed.

(** The final adjustment on whole numbers: the plan is kept, or one unit
    that is on is moved, within its [pmin] and [pmax], by exactly the
    difference. *)
Lemma final_adjustment_exact plants target st :
  Inv plants target st ->
  production_plan_of (final_adjustment plants target st) = production_plan_of st \/
  exists i plant v,
    In (i, plant) (enumerate plants) /\
    (i < length (production_plan_of st))%nat /\
    0 < get_p (production_plan_of st) i /\
    v == get_p (production_plan_of st) i
         + (inject_Z target - plan_sum (production_plan_of st)) /\
    inject_Z (pmin plant) <= v /\ v <= inject_Z (pmax plant) /\
    production_plan_of (final_adjustment plants target st)
      = set_p (production_plan_of st) i v.
Proof.
  intro Hinv.
  destruct (final_adjustment_cases plants target st)
    as [->|(lg' & [->|(i & plant & _ & Hin & Hpos & Hlo & Hhi & ->)])];
    [now left | now left |].
  right. cbn [production_plan_of].
  assert (Hint : integral (get_p (production_plan_of st) i
                           + (inject_Z target - plan_sum (production_plan_of st)))).
  { apply integral_plus; [apply (inv_plan _ _ _ Hinv)|].
    apply integral_minus; [apply integral_inject_Z|].
    now apply (Inv_sum_integral plants target). }
  pose proof (round1_integral _ Hint) as Er.
  exists i, plant,
    (round1 (get_p (production_plan_of st) i
             + (inject_Z target - plan_sum (production_plan_of st)))).
  repeat apply conj; auto.
  - destruct (Nat.lt_ge_cases i (length (production_plan_of st))) as [H|H];
      [exact H|].
    rewrite get_p_beyond in Hpos by exact H. lra.
  - rewrite Er. exact Hlo.
  - rewrite Er. exact Hhi.
Qed.

(** X1.  In every plan that [_optimize_production] returns, final
    adjustment included, a unit that is not a wind turbine is at 0 or
    between its [pmin] and its [pmax]. *)
Theorem cost_bearing_within_bounds (fuel : nat) (plants : list PowerPlant)
    (target : Z) (plan : list entry) (lg : list event) :
  _optimize_production fuel plants target = Some (plan, lg) ->
  forall i plant,
    nth_error plants i = Some plant -> is_wind plant = false ->
    within_bounds plant (get_p plan i).
Proof.
  intros E i plant Hn Hw. apply In_enumerate in Hn.
  destruct (optimize_inv _ _ _ _ _ E) as (st & El & Hinv & -> & _ & _).
  pose proof (bounds_before_adjustment plants target fuel st El i plant Hn Hw) as Hb.
  destruct (final_adjustment_exact plants target st Hinv)
    as [->|(j & pl & v & Hj & Hlt & _ & _ & Hlo & Hhi & ->)]; [exact Hb|].
  destruct (Nat.eq_dec j i) as [->|Hne];
    [|rewrite get_p_set_p_other by exact Hne; exact Hb].
  rewrite (enumerate_functional _ _ _ _ Hj Hn) in *.
  rewrite get_p_set_p_same by exact Hlt. right. split; assumption.
Qed.

Lemma cost_bearing_within_bounds_witness :
  let plants :=
    [ mkPowerPlant "w" "windturbine" 1 0 100 0 50;
      mkPowerPlant "a" "gasfired" (1 # 2) 20 60 32 60;
      mkPowerPlant "b" "gasfired" (1 # 2) 40 90 40 90 ] in
  exists plan lg,
    _optimize_production 2 plants 130 = Some (plan, lg) /\
    within_bounds (mkPowerPlant "a" "gasfired" (1 # 2) 20 60 32 60) (get_p plan 1) /\
    get_p plan 1 == 60.
Proof.
  intro plants.
  assert (E : exists plan lg,
             _optimize_production 2 plants 130 = Some (plan, lg) /\
             get_p plan 1 == 60).
  { eexists. eexists. split; vm_compute; reflexivity. }
  destruct E as (plan & lg & E & Hp). exists plan, lg.
  repeat apply conj; auto.
  apply (cost_bearing_within_bounds 2 plants 130 plan lg E 1%nat); reflexivity.
Defined.

(** X2.  On a load that is not negative the plan never allocates more
    than the load, and it allocates exactly the load unless the loop
    stalled.  Every allocated [p] is a whole number. *)
Theorem never_above_load (fuel : nat) (plants : list PowerPlant)
    (target : Z) (plan : list entry) (lg : list event) :
  (0 <= target)%Z ->
  _optimize_production fuel plants target = Some (plan, lg) ->
  plan_sum plan <= inject_Z target /\
  (stalled lg = false -> plan_sum plan == inject_Z target) /\
  (forall i, integral (get_p plan i)).
Proof.
  intros Ht E.
  destruct (optimize_inv _ _ _ _ _ E) as (st & _ & Hinv & -> & -> & Hend).
  pose proof (inv_sum _ _ _ Hinv) as Hs.
  assert (H0 : 0 <= inject_Z target).
  { change 0 with (inject_Z 0). now rewrite <- Zle_Qle. }
  assert (Hrem : 0 <= remaining_load st).
  { destruct (inv_nonneg _ _ _ Hinv) as [H|H]; [exact H|].
    pose proof (plan_sum_zero _ H). lra. }
  rewrite final_adjustment_stalled.
  destruct (final_adjustment_exact plants target st Hinv)
    as [->|(i & plant & v & _ & Hlt & _ & Ev & _ & _ & ->)].
  - repeat apply conj.
    + lra.
    + intro Hst. destruct Hend as [[Hle _]|[_ Hlog]].
      * now apply (satisfied_run_exact plants).
      * rewrite Hlog in Hst. discriminate Hst.
    + apply (inv_plan _ _ _ Hinv).
  - assert (Hsum : plan_sum (set_p (production_plan_of st) i v) == inject_Z target).
    { rewrite plan_sum_set_p by exact Hlt. lra. }
    repeat apply conj.
    + lra.
    + intros _. exact Hsum.
    + apply integral_get_p_set_p; [apply (inv_plan _ _ _ Hinv)|].
      apply (integral_eq _ _ (Qeq_sym _ _ Ev)).
      apply integral_plus; [apply (inv_plan _ _ _ Hinv)|].
      apply integral_minus; [apply integral_inject_Z|].
      now apply (Inv_sum_integral plants target).
Qed.

Lemma never_above_load_witness :
  let plants :=
    [ mkPowerPlant "a" "gasfired" (1 # 2) 20 60 32 60;
      mkPowerPlant "b" "gasfired" (1 # 2) 40 90 40 90 ] in
  exists plan lg,
    _optimize_production 2 plants 75 = Some (plan, lg) /\
    stalled lg = true /\
    plan_sum plan <= 75 /\ plan_sum plan == 60.
Proof.
  intro plants.
  assert (E : exists plan lg,
             _optimize_production 2 plants 75 = Some (plan, lg) /\
             stalled lg = true /\ plan_sum plan == 60).
  { eexists. eexists. split; [vm_compute; reflexivity|].
    split; vm_compute; reflexivity. }
  destruct E as (plan & lg & E & Hst & Hs). exists plan, lg.
  repeat apply conj; auto.
  apply (never_above_load 2 plants 75 plan lg); [lia | exact E].
Defined.

(** ** Bounds of the wind turbines *)

Lemma wind_before_adjustment plants target fuel r :
  greedy_loop fuel plants (wind_pass plants (initial_state plants target)) = Some r ->
  forall i plant,
    In (i, plant) (enumerate plants) -> is_wind plant = true ->
    (0 <= available_power plant)%Z ->
    0 <= get_p (production_plan_of r) i /\
    get_p (production_plan_of r) i <= inject_Z (available_power plant).
Proof.
  apply (run_before_adjustment plants target
           (fun st => forall i plant,
              In (i, plant) (enumerate plants) -> is_wind plant = true ->
              (0 <= available_power plant)%Z ->
              0 <= get_p (production_plan_of st) i /\
              get_p (production_plan_of st) i <= inject_Z (available_power plant))).
  - intros st k wplant Hinv Hk _ HP i plant Hi Hw Ha.
    pose proof (enumerate_index _ _ _ Hk) as Hlt.
    rewrite <- (inv_length _ _ _ Hinv) in Hlt.
    destruct (wind_step_cases st k wplant (inv_rem _ _ _ Hinv))
      as [->|(v & _ & Hpos & _ & Hle & Hav & Hor & ->)]; [now apply HP|].
    cbn [production_plan_of].
    destruct (Nat.eq_dec k i) as [->|Hne];
      [|rewrite get_p_set_p_other by exact Hne; now apply HP].
    rewrite (enumerate_functional _ _ _ _ Hk Hi) in *.
    rewrite get_p_set_p_same by exact Hlt.
    assert (H0 : 0 <= inject_Z (available_power plant)).
    { change 0 with (inject_Z 0). now rewrite <- Zle_Qle. }
    split; [destruct Hor; lra | exact Hav].
  - intros st [j pl] Hinv Hj HP i plant Hi Hw Ha.
    destruct (greedy_unit_cases st j pl (inv_rem _ _ _ Hinv) (inv_plan _ _ _ Hinv j))
      as [->|(inc & v & r' & Hnw & _ & _ & _ & _ & _ & _ & _ & _ & _ & ->)];
      [now apply HP|].
    cbn [fst production_plan_of].
    rewrite get_p_set_p_other; [now apply HP|].
    intros ->. rewrite (enumerate_functional _ _ _ _ Hj Hi) in Hnw. congruence.
  - intros st b lg HP. exact HP.
  - intros i plant _ _ Ha. cbn [initial_state production_plan_of].
    rewrite get_p_initial.
    split; [lra|]. change 0 with (inject_Z 0). now rewrite <- Zle_Qle.
Qed.

Lemma adjusted_app lg e : adjusted (lg ++ [e]) = adjusted lg || is_production_difference e.
Proof.
  unfold adjusted. rewrite existsb_app. simpl. now rewrite orb_false_r.
Qed.

Lemma not_adjusted_same_plan plants target st :
  adjusted (log (final_adjustment plants target st)) = false ->
  final_adjustment plants target st = st.
Proof.
  unfold final_adjustment.
  match goal with
  | |- context [Qlt_bool tenth ?a] => destruct (Qlt_bool tenth a)
  end; [|reflexivity].
  cbn [log warn]. rewrite adjusted_app. cbn.
  rewrite orb_true_r. discriminate.
Qed.

(** X3.  A wind turbine with available power [a >= 0] gets [0 <= p], and
    [p <= a] whenever the final adjustment is not entered (no production
    difference is logged); if it is, [p] is still at most the larger of
    [a] and [pmax]. *)
Theorem wind_within_available (fuel : nat) (plants : list PowerPlant)
    (target : Z) (plan : list entry) (lg : list event) :
  _optimize_production fuel plants target = Some (plan, lg) ->
  forall i plant,
    nth_error plants i = Some plant -> is_wind plant = true ->
    (0 <= available_power plant)%Z ->
    0 <= get_p plan i /\
    (adjusted lg = false -> get_p plan i <= inject_Z (available_power plant)) /\
    get_p plan i <= inject_Z (Z.max (available_power plant) (pmax plant)).
Proof.
  intros E i plant Hn Hw Ha. apply In_enumerate in Hn.
  destruct (optimize_inv _ _ _ _ _ E) as (st & El & Hinv & -> & -> & _).
  destruct (wind_before_adjustment plants target fuel st El i plant Hn Hw Ha)
    as [Hlo Hhi].
  assert (Hmax1 : inject_Z (available_power plant)
                  <= inject_Z (Z.max (available_power plant) (pmax plant))).
  { rewrite <- Zle_Qle. lia. }
  assert (Hmax2 : inject_Z (pmax plant)
                  <= inject_Z (Z.max (available_power plant) (pmax plant))).
  { rewrite <- Zle_Qle. lia. }
  split; [|split].
  - destruct (final_adjustment_exact plants target st Hinv)
      as [->|(j & pl & v & Hj & Hlt & Hpos & Ev & _ & _ & ->)]; [exact Hlo|].
    destruct (Nat.eq_dec j i) as [->|Hne];
      [|rewrite get_p_set_p_other by exact Hne; exact Hlo].
    rewrite get_p_set_p_same by exact Hlt.
    pose proof (inv_sum _ _ _ Hinv) as Hs.
    assert (Hrem : 0 <= remaining_load st).
    { destruct (inv_nonneg _ _ _ Hinv) as [H|H]; [exact H|].
      specialize (H i). lra. }
    lra.
  - intro Hadj. rewrite (not_adjusted_same_plan _ _ _ Hadj). exact Hhi.
  - destruct (final_adjustment_exact plants target st Hinv)
      as [->|(j & pl & v & Hj & Hlt & _ & _ & _ & Hv & ->)]; [lra|].
    destruct (Nat.eq_dec j i) as [->|Hne];
      [|rewrite get_p_set_p_other by exact Hne; lra].
    rewrite (enumerate_functional _ _ _ _ Hj Hn) in *.
    rewrite get_p_set_p_same by exact Hlt. lra.
Qed.

Lemma wind_within_available_witness :
  let plants :=
    [ mkPowerPlant "w" "windturbine" 1 0 100 0 50;
      mkPowerPlant "g" "gasfired" (1 # 2) 10 200 32 200 ] in
  exists plan lg,
    _optimize_production 2 plants 80 = Some (plan, lg) /\
    adjusted lg = false /\
    get_p plan 0 == 50 /\ get_p plan 0 <= 50.
Proof.
  intro plants.
  assert (E : exists plan lg,
             _optimize_production 2 plants 80 = Some (plan, lg) /\
             adjusted lg = false /\ get_p plan 0 == 50).
  { eexists. eexists. split; [vm_compute; reflexivity|].
    split; vm_compute; reflexivity. }
  destruct E as (plan & lg & E & Hadj & Hp). exists plan, lg.
  repeat apply conj; auto.
  destruct (wind_within_available 2 plants 80 plan lg E 0%nat
              (mkPowerPlant "w" "windturbine" 1 0 100 0 50))
    as (_ & H & _); [reflexivity | reflexivity | simpl; lia |].
  exact (H Hadj).
Defined.

(** ** Two passes are enough *)

Lemma blocked_noop st ip :
  blocked (remaining_load st) (production_plan_of st) ip ->
  greedy_unit st ip = (st, false).
Proof.
  destruct ip as [i plant]. unfold blocked, greedy_unit. cbn [fst snd].
  set (cur := get_p (production_plan_of st) i).
  intros [Hw|[Hs|[Hz Hg]]].
  - now rewrite Hw.
  - apply Qle_bool_iff in Hs. rewrite Hs, orb_true_r. reflexivity.
  - destruct (is_wind plant || Qle_bool (inject_Z (pmax plant)) cur);
      [reflexivity|].
    apply Qeq_bool_iff in Hz. rewrite Hz.
    apply Qeq_bool_iff in Hz.
    match goal with
    | |- context [Qle_bool ?a ?b] => destruct (Qle_bool a b) eqn:E
    end; [|reflexivity].
    exfalso. apply Hg. apply Qle_bool_iff in E.
    apply py_min_le_iff in E. apply py_min_le_iff. split; lra.
Qed.

Lemma pass_noop (l : list (nat * PowerPlant)) st :
  (forall ip, In ip l ->
     blocked (remaining_load st) (production_plan_of st) ip) ->
  greedy_pass l st = st.
Proof.
  induction l as [|ip rest IH]; intro H; cbn [greedy_pass]; [reflexivity|].
  rewrite (blocked_noop st ip (H ip (or_introl eq_refl))).
  apply IH. intros ip' Hin. apply H. now right.
Qed.

(** A blocked unit stays blocked through any loop body. *)
Lemma blocked_step plants target st ip u :
  Inv plants target st ->
  In ip (enumerate plants) -> In u (enumerate plants) ->
  blocked (remaining_load st) (production_plan_of st) u ->
  blocked (remaining_load (fst (greedy_unit st ip)))
          (production_plan_of (fst (greedy_unit st ip))) u.
Proof.
  intros Hinv Hip Hu Hb. destruct ip as [j pl]. destruct u as [i plant].
  pose proof (enumerate_index _ _ _ Hip) as Hlt.
  rewrite <- (inv_length _ _ _ Hinv) in Hlt.
  destruct (greedy_unit_cases st j pl (inv_rem _ _ _ Hinv) (inv_plan _ _ _ Hinv j))
    as [->|(inc & v & r & Hnw & Hcur & _ & Hinc & _ & _ & _ & _ & Ev & Er & E)];
    [exact Hb|].
  unfold tenth in Hinc.
  destruct (Nat.eq_dec j i) as [->|Hne].
  - (* the same unit: blocked, so the body did nothing *)
    rewrite (enumerate_functional _ _ _ _ Hip Hu) in *.
    pose proof (blocked_noop st (i, plant) Hb) as Hno.
    rewrite E in Hno. injection Hno as Hst _.
    apply (f_equal production_plan_of) in Hst. cbn [production_plan_of] in Hst.
    exfalso.
    assert (Hv : get_p (set_p (production_plan_of st) i v) i = v)
      by (now apply get_p_set_p_same).
    rewrite Hst in Hv. rewrite <- Hv in Ev. lra.
  - rewrite E. unfold blocked in *. cbn [fst snd production_plan_of remaining_load] in *.
    rewrite get_p_set_p_other by exact Hne.
    destruct Hb as [Hw|[Hs|[Hz Hg]]]; [now left | right; now left |].
    right. right. split; [exact Hz|].
    intro G. apply Hg. apply py_min_le_iff in G. apply py_min_le_iff.
    split; lra.
Qed.

(** A loop body on a unit that is off or full: the loop is broken with
    the load met, or the unit ends up blocked, and off or full. *)
Lemma greedy_unit_blocks plants target st i plant :
  Inv plants target st ->
  In (i, plant) (enumerate plants) ->
  (is_wind plant = false ->
   get_p (production_plan_of st) i == 0
   \/ inject_Z (pmax plant) <= get_p (production_plan_of st) i) ->
  (snd (greedy_unit st (i, plant)) = true /\
   remaining_load (fst (greedy_unit st (i, plant))) <= tenth) \/
  (snd (greedy_unit st (i, plant)) = false /\
   blocked (remaining_load (fst (greedy_unit st (i, plant))))
           (production_plan_of (fst (greedy_unit st (i, plant)))) (i, plant)).
Proof.
  intros Hinv Hin HJ.
  pose proof (enumerate_index _ _ _ Hin) as Hlt.
  rewrite <- (inv_length _ _ _ Hinv) in Hlt.
  destruct (is_wind plant) eqn:Ew.
  { right. unfold greedy_unit. rewrite Ew. cbn. split; [reflexivity|].
    left. exact Ew. }
  specialize (HJ eq_refl).
  destruct (Qlt_le_dec (get_p (production_plan_of st) i) (inject_Z (pmax plant)))
    as [Hunsat|Hsat].
  2:{ right. assert (Hb : blocked (remaining_load st) (production_plan_of st) (i, plant))
        by (right; left; exact Hsat).
      rewrite (blocked_noop st (i, plant) Hb). split; [reflexivity | exact Hb]. }
  destruct HJ as [Hz|Hs]; [|lra].
  destruct (Qlt_le_dec
              (py_min (inject_Z (pmax plant)) (remaining_load st))
              (py_max (inject_Z (pmin plant)) tenth)) as [Hng|Hg].
  { right. assert (Hb : blocked (remaining_load st) (production_plan_of st) (i, plant)).
    { right. right. split; [exact Hz|]. cbn [fst snd]. lra. }
    rewrite (blocked_noop st (i, plant) Hb). split; [reflexivity | exact Hb]. }
  (* the test passes: the unit is turned on *)
  destruct (greedy_unit_cases st i plant (inv_rem _ _ _ Hinv) (inv_plan _ _ _ Hinv i))
    as [E|(inc & v & r & _ & _ & _ & Hinc & _ & Hor & _ & _ & Ev & Er & E)].
  - exfalso. revert E. unfold greedy_unit.
    set (cur := get_p (production_plan_of st) i) in *.
    set (rem := remaining_load st) in *.
    rewrite Ew. cbn [orb].
    assert (E1 : Qle_bool (inject_Z (pmax plant)) cur = false)
      by (apply Qle_bool_false; exact Hunsat).
    assert (E2 : Qeq_bool cur 0 = true) by (now apply Qeq_bool_iff).
    rewrite E1, E2.
    apply py_min_le_iff in Hg. destruct Hg as [Gp Gr].
    assert (E3 : Qle_bool (py_max (inject_Z (pmin plant)) tenth)
                          (py_min (inject_Z (pmax plant)) (rem + cur)) = true).
    { apply Qle_bool_iff. apply py_min_le_iff. split; lra. }
    rewrite E3.
    assert (Hraw : tenth <= py_max (py_min rem (inject_Z (pmax plant)))
                                   (inject_Z (pmin plant))).
    { assert (tenth <= py_max (inject_Z (pmin plant)) tenth).
      { destruct (py_max_spec (inject_Z (pmin plant)) tenth) as [[H ->]|[H ->]]; lra. }
      destruct (py_min_spec rem (inject_Z (pmax plant))) as [[H1 ->]|[H1 ->]];
        match goal with
        | |- context [py_max ?a ?b] =>
            destruct (py_max_spec a b) as [[Hx ->]|[Hx ->]]
        end; lra. }
    apply round1_ge_tenth in Hraw. apply Qle_bool_iff in Hraw. rewrite Hraw.
    intro E. injection E as Hst _.
    apply (f_equal production_plan_of) in Hst. cbn [production_plan_of] in Hst.
    assert (Hv : get_p (set_p (production_plan_of st) i
                          (round1 (cur + round1 (py_max (py_min rem (inject_Z (pmax plant)))
                                                        (inject_Z (pmin plant)))))) i
                 = round1 (cur + round1 (py_max (py_min rem (inject_Z (pmax plant)))
                                                (inject_Z (pmin plant)))))
      by (now apply get_p_set_p_same).
    rewrite Hst in Hv. fold cur in Hv.
    pose proof (round1_after_zero cur
                  (py_max (py_min rem (inject_Z (pmax plant)))
                          (inject_Z (pmin plant))) Hz) as Hr.
    rewrite <- Hv in Hr.
    apply Qle_bool_iff in Hraw. unfold tenth in Hraw. lra.
  - rewrite E. cbn [fst snd production_plan_of remaining_load].
    destruct (Qle_bool r tenth) eqn:Estop.
    + left. split; [reflexivity | now apply Qle_bool_iff].
    + right. split; [reflexivity|]. right. left. cbn [fst snd].
      rewrite get_p_set_p_same by exact Hlt.
      apply Qle_bool_false in Estop. unfold tenth in *.
      destruct Hor as [Ho|Ho]; lra.
Qed.

Lemma unit_keeps_off_or_full plants target st i plant :
  Inv plants target st ->
  In (i, plant) (enumerate plants) ->
  off_or_full plants (production_plan_of st) ->
  blocked (remaining_load (fst (greedy_unit st (i, plant))))
          (production_plan_of (fst (greedy_unit st (i, plant)))) (i, plant) ->
  off_or_full plants (production_plan_of (fst (greedy_unit st (i, plant)))).
Proof.
  intros Hinv Hin HJ Hb i' plant' Hin' Hw'.
  destruct (Nat.eq_dec i i') as [<-|Hne].
  - rewrite <- (enumerate_functional _ _ _ _ Hin Hin') in *.
    destruct Hb as [Hw|[Hs|[Hz _]]]; cbn [fst snd] in *;
      [congruence | now right | now left].
  - destruct (greedy_unit_cases st i plant (inv_rem _ _ _ Hinv) (inv_plan _ _ _ Hinv i))
      as [->|(inc & v & r & _ & _ & _ & _ & _ & _ & _ & _ & _ & _ & ->)];
      [now apply HJ|].
    cbn [fst production_plan_of]. rewrite get_p_set_p_other by exact Hne.
    now apply HJ.
Qed.

Lemma blocked_pass plants target l st u :
  (forall ip, In ip l -> In ip (enumerate plants)) ->
  Inv plants target st -> In u (enumerate plants) ->
  blocked (remaining_load st) (production_plan_of st) u ->
  blocked (remaining_load (greedy_pass l st))
          (production_plan_of (greedy_pass l st)) u.
Proof.
  intros Hl Hinv Hu.
  apply (run_pass plants target
           (fun s => blocked (remaining_load s) (production_plan_of s) u));
    auto.
  intros s ip Hs Hip Hb. now apply (blocked_step plants target).
Qed.

(** One pass from a state where every cost-bearing unit is off or full:
    the load is met, or every unit of the pass is blocked afterwards. *)
Lemma pass_blocks plants target l st :
  (forall ip, In ip l -> In ip (enumerate plants)) ->
  Inv plants target st ->
  off_or_full plants (production_plan_of st) ->
  remaining_load (greedy_pass l st) <= tenth \/
  (off_or_full plants (production_plan_of (greedy_pass l st)) /\
   forall ip, In ip l ->
     blocked (remaining_load (greedy_pass l st))
             (production_plan_of (greedy_pass l st)) ip).
Proof.
  revert st. induction l as [|[i plant] rest IH]; intros st Hl Hinv HJ;
    cbn [greedy_pass].
  - right. split; [exact HJ | intros ip []].
  - assert (Hin : In (i, plant) (enumerate plants)) by (apply Hl; now left).
    assert (Hrest : forall ip, In ip rest -> In ip (enumerate plants))
      by (intros ip H; apply Hl; now right).
    pose proof (Inv_greedy_unit plants target st i plant
                  (enumerate_index _ _ _ Hin) Hinv) as Hinv'.
    pose proof (unit_keeps_off_or_full plants target st i plant Hinv Hin HJ) as HJ'.
    destruct (greedy_unit_blocks plants target st i plant Hinv Hin
                (fun Hw => HJ i plant Hin Hw)) as [[Es Hr]|[Es Hb]].
    + destruct (greedy_unit st (i, plant)) as [st1 stop].
      cbn [fst snd] in *. subst stop. now left.
    + specialize (HJ' Hb).
      destruct (greedy_unit st (i, plant)) as [st1 stop].
      cbn [fst snd] in *. subst stop.
      destruct (IH st1 Hrest Hinv' HJ') as [Hdone|[HJ2 Hall]]; [now left|].
      right. split; [exact HJ2|].
      intros ip [<-|Hip]; [|now apply Hall].
      now apply (blocked_pass plants target).
Qed.

Lemma off_or_full_after_wind plants target :
  off_or_full plants
    (production_plan_of (wind_pass plants (initial_state plants target))).
Proof.
  apply (run_wind_pass plants target
           (fun st => off_or_full plants (production_plan_of st))).
  - intros st k wplant _ Hk _ HP i plant Hi Hw.
    rewrite (within_bounds_wind_step plants st k wplant i plant Hk Hi Hw).
    now apply HP.
  - intros i plant _ _. left. cbn [initial_state production_plan_of].
    now rewrite get_p_initial.
Qed.

(** From a state where every cost-bearing unit is off or full, the loop
    is over after two passes; and when it ends stalled, every unit is
    blocked. *)
Lemma greedy_loop_two_passes plants target st :
  Inv plants target st ->
  off_or_full plants (production_plan_of st) ->
  exists r, greedy_loop 2 plants st = Some r.
Proof.
  intros Hinv HJ. cbn [greedy_loop].
  destruct (Qlt_bool tenth (remaining_load st)); [|eauto].
  assert (Hc : Inv plants target (clear_progress st))
    by (now apply Inv_clear_progress).
  pose proof (Inv_greedy_pass plants target (enumerate plants) _
                (enumerate_in_range plants) Hc) as Hinv1.
  destruct (pass_blocks plants target (enumerate plants) (clear_progress st)
              (fun ip H => H) Hc HJ) as [Hdone|[_ Hall]];
    set (st1 := greedy_pass (enumerate plants) (clear_progress st)) in *;
    destruct (made_progress st1); eauto.
  - apply Qlt_bool_false in Hdone. rewrite Hdone. eauto.
  - destruct (Qlt_bool tenth (remaining_load st1)); [|eauto].
    rewrite (pass_noop (enumerate plants) (clear_progress st1)); [cbn; eauto|].
    exact Hall.
Qed.

Lemma stall_blocks plants target fuel st r :
  Inv plants target st ->
  off_or_full plants (production_plan_of st) ->
  greedy_loop fuel plants st = Some r ->
  tenth < remaining_load r ->
  forall ip, In ip (enumerate plants) ->
    blocked (remaining_load r) (production_plan_of r) ip.
Proof.
  revert st. induction fuel as [|fuel IH]; intros st Hinv HJ E Hr;
    cbn [greedy_loop] in E.
  - destruct (Qlt_bool tenth (remaining_load st)) eqn:Et; [discriminate|].
    inversion E; subst r. apply Qlt_bool_false in Et. lra.
  - destruct (Qlt_bool tenth (remaining_load st)) eqn:Et.
    2:{ inversion E; subst r. apply Qlt_bool_false in Et. lra. }
    assert (Hc : Inv plants target (clear_progress st))
      by (now apply Inv_clear_progress).
    pose proof (Inv_greedy_pass plants target (enumerate plants) _
                  (enumerate_in_range plants) Hc) as Hinv1.
    pose proof (pass_blocks plants target (enumerate plants) (clear_progress st)
                  (fun ip H => H) Hc HJ) as Hp.
    set (st1 := greedy_pass (enumerate plants) (clear_progress st)) in *.
    destruct (made_progress st1).
    + destruct Hp as [Hdone|[HJ1 _]].
      * assert (r = st1).
        { apply Qlt_bool_false in Hdone.
          destruct fuel; cbn [greedy_loop] in E; rewrite Hdone in E;
            now inversion E. }
        subst r. lra.
      * exact (IH st1 Hinv1 HJ1 E Hr).
    + inversion E; subst r. cbn [warn remaining_load production_plan_of] in *.
      destruct Hp as [Hdone|[_ Hall]]; [lra | exact Hall].
Qed.


(** X4.  Whatever the plants and the load, the [while] loop is over
    after at most two passes: [_optimize_production] returns with a
    budget of two, and any larger budget gives the same result. *)
Theorem two_passes_suffice (plants : list PowerPlant) (target : Z) :
  exists r,
    _optimize_production 2 plants target = Some r /\
    forall fuel, (2 <= fuel)%nat -> _optimize_production fuel plants target = Some r.
Proof.
  destruct (greedy_loop_two_passes plants target
              (wind_pass plants (initial_state plants target))
              (Inv_wind_pass plants target)
              (off_or_full_after_wind plants target)) as [st E].
  assert (E2 : _optimize_production 2 plants target
               = Some (production_plan_of (final_adjustment plants target st),
                       log (final_adjustment plants target st))).
  { unfold _optimize_production. now rewrite E. }
  eexists. split; [exact E2|].
  intros fuel Hf. now apply (optimize_more_fuel plants target 2 fuel).
Qed.

(** X5.  A stall is genuine.  When the loop stalled, the plan it stopped
    at (from which the returned plan comes by the final adjustment)
    leaves more than 0.1 MW, and every cost-bearing unit is at its
    [pmax] or above, or is off and cannot start: its [pmin] is above the
    remaining load or above its [pmax]. *)
Theorem stall_is_genuine (fuel : nat) (plants : list PowerPlant)
    (target : Z) (plan : list entry) (lg : list event) :
  _optimize_production fuel plants target = Some (plan, lg) ->
  stalled lg = true ->
  exists st,
    plan = production_plan_of (final_adjustment plants target st) /\
    tenth < remaining_load st /\
    plan_sum (production_plan_of st) + remaining_load st == inject_Z target /\
    forall i plant,
      nth_error plants i = Some plant -> is_wind plant = false ->
      inject_Z (pmax plant) <= get_p (production_plan_of st) i \/
      (get_p (production_plan_of st) i == 0 /\
       (remaining_load st < inject_Z (pmin plant) \/ (pmax plant < pmin plant)%Z)).
Proof.
  intros E Hst.
  destruct (optimize_inv _ _ _ _ _ E) as (st & El & Hinv & Ep & Elg & Hend).
  rewrite Elg, final_adjustment_stalled in Hst.
  destruct Hend as [[_ Hlog]|[Hrem _]]; [rewrite Hlog in Hst; discriminate Hst|].
  exists st. repeat apply conj; auto.
  - apply (inv_sum _ _ _ Hinv).
  - intros i plant Hn Hw. apply In_enumerate in Hn.
    pose proof (stall_blocks plants target fuel _ st
                  (Inv_wind_pass plants target)
                  (off_or_full_after_wind plants target) El Hrem (i, plant) Hn)
      as [Hb|[Hb|[Hz Hg]]]; cbn [fst snd] in *; [congruence | now left |].
    destruct (Qlt_le_dec (get_p (production_plan_of st) i) (inject_Z (pmax plant)))
      as [Hunsat|Hsat]; [|now left].
    right. split; [exact Hz|].
    pose proof (integral_gt_tenth _ (inv_rem _ _ _ Hinv) Hrem) as Hr1.
    assert (Hp1 : 1 <= inject_Z (pmax plant)).
    { change 1 with (inject_Z 1). rewrite <- Zle_Qle.
      assert (0 < pmax plant)%Z; [|lia].
      rewrite Zlt_Qlt. change (inject_Z 0) with 0. lra. }
    destruct (Qlt_le_dec (remaining_load st) (inject_Z (pmin plant))) as [H1|H1];
      [now left|].
    destruct (Z_lt_le_dec (pmax plant) (pmin plant)) as [H2|H2]; [now right|].
    exfalso. apply Hg. rewrite Zle_Qle in H2.
    apply py_max_le_iff. unfold tenth.
    split; apply py_min_le_iff; split; lra.
Qed.

Lemma stall_is_genuine_witness :
  let plants :=
    [ mkPowerPlant "a" "gasfired" (1 # 2) 20 60 32 60;
      mkPowerPlant "b" "gasfired" (1 # 2) 40 90 40 90 ] in
  exists st,
    tenth < remaining_load st /\
    plan_sum (production_plan_of st) + remaining_load st == 75 /\
    (inject_Z 90 <= get_p (production_plan_of st) 1 \/
     get_p (production_plan_of st) 1 == 0).
Proof.
  intro plants.
  assert (E : exists plan lg,
             _optimize_production 2 plants 75 = Some (plan, lg) /\
             stalled lg = true).
  { eexists. eexists. split; vm_compute; reflexivity. }
  destruct E as (plan & lg & E & Hst).
  destruct (stall_is_genuine 2 plants 75 plan lg E Hst)
    as (st & Ep & Hrem & Hsum & Hall).
  exists st. repeat apply conj; auto.
  destruct (Hall 1%nat (mkPowerPlant "b" "gasfired" (1 # 2) 40 90 40 90)
              eq_refl eq_refl) as [Hb|[Hb _]]; [left | right]; exact Hb.
Defined.

(** ** Building the plants *)

Lemma calculate_cost_new (d : PlantData) (g k c w : Q) :
  (divides_by_zero d = true /\
   calculate_cost (new_PowerPlant (d_name d) (d_type d) (d_efficiency d)
                     (d_pmin d) (d_pmax d)) g k c w = Raise ZeroDivisionError) \/
  (divides_by_zero d = false /\
   exists plant,
     calculate_cost (new_PowerPlant (d_name d) (d_type d) (d_efficiency d)
                       (d_pmin d) (d_pmax d)) g k c w = Ok plant /\
     same_unit d plant).
Proof.
  unfold divides_by_zero, calculate_cost, py_div, is_wind, is_gas, is_turbojet,
    same_unit, new_PowerPlant. cbn [type efficiency].
  destruct (String.eqb (d_type d) "windturbine") eqn:Ew.
  - apply String.eqb_eq in Ew. rewrite Ew. cbn.
    right. split; [reflexivity|]. eexists. split; [reflexivity|].
    cbn. repeat apply conj; reflexivity.
  - destruct (String.eqb (d_type d) "gasfired") eqn:Eg; cbn [orb andb].
    + destruct (Qeq_bool (d_efficiency d) 0); cbn.
      * left. split; reflexivity.
      * right. split; [reflexivity|]. eexists. split; [reflexivity|].
        cbn. repeat apply conj; reflexivity.
    + destruct (String.eqb (d_type d) "turbojet") eqn:Et; cbn [orb andb].
      * destruct (Qeq_bool (d_efficiency d) 0); cbn.
        -- left. split; reflexivity.
        -- right. split; [reflexivity|]. eexists. split; [reflexivity|].
           cbn. repeat apply conj; reflexivity.
      * right. split; [reflexivity|]. eexists. split; [reflexivity|].
        cbn. repeat apply conj; reflexivity.
Qed.

Lemma build_plants_cases (fu : Fuels) (data : list PlantData) :
  (existsb divides_by_zero data = true /\
   build_plants fu data = Raise ZeroDivisionError) \/
  (existsb divides_by_zero data = false /\
   exists plants,
     build_plants fu data = Ok plants /\ Forall2 same_unit data plants).
Proof.
  induction data as [|d data IH]; cbn [existsb build_plants].
  - right. split; [reflexivity|]. exists []. split; [reflexivity | constructor].
  - destruct (calculate_cost_new d (gas_price fu) (kerosine_price fu)
                (co2_price fu) (wind_percentage fu))
      as [[Hd Ec]|[Hd (plant & Ec & Hsame)]]; rewrite Hd, Ec; cbn.
    + left. split; reflexivity.
    + destruct IH as [[He Eb]|[He (plants & Eb & Hall)]]; rewrite He, Eb; cbn.
      * left. split; reflexivity.
      * right. split; [reflexivity|]. exists (plant :: plants).
        split; [reflexivity | now constructor].
Qed.

(** X6.  The loop that builds the plants raises [ZeroDivisionError]
    exactly when some gasfired or turbojet unit has efficiency 0 (a wind
    turbine or a unit of another type never raises); otherwise it gives
    one plant per unit, in the order of the request, with the unit's
    name, type, efficiency, [pmin] and [pmax]. *)
Theorem build_plants_outcome (fu : Fuels) (data : list PlantData) :
  (existsb divides_by_zero data = true /\
   build_plants fu data = Raise ZeroDivisionError) \/
  (existsb divides_by_zero data = false /\
   exists plants,
     build_plants fu data = Ok plants /\ Forall2 same_unit data plants).
Proof.
  exact (build_plants_cases fu data).
Qed.

(** ** The answers of the endpoint *)




(** ** More on the merit order *)

Lemma key_lt_false_iff (a b : Q * Z) :
  key_lt a b = false <->
  fst b < fst a \/ (fst a == fst b /\ (snd b <= snd a)%Z).
Proof.
  unfold key_lt. rewrite orb_false_iff, andb_false_iff, Qlt_bool_false, Z.ltb_ge.
  split.
  - intros [H1 [H2|H2]].
    + destruct (Qeq_dec (fst a) (fst b)) as [E|E].
      * apply Qeq_bool_iff in E. congruence.
      * left. apply Qle_lteq in H1. destruct H1 as [H1|H1]; [exact H1|].
        exfalso. apply E. symmetry. exact H1.
    + destruct (Qeq_dec (fst a) (fst b)) as [E|E]; [right; now split|].
      left. apply Qle_lteq in H1. destruct H1 as [H1|H1]; [exact H1|].
      exfalso. apply E. symmetry. exact H1.
  - intros [H|[H1 H2]].
    + split; [lra|]. left.
      destruct (Qeq_bool (fst a) (fst b)) eqn:E; [|reflexivity].
      apply Qeq_bool_iff in E. lra.
    + split; [lra | now right].
Qed.

Lemma merit_le_iff (a b : PowerPlant) :
  merit_le a b <->
  cost_per_mwh a < cost_per_mwh b \/
  (cost_per_mwh a == cost_per_mwh b /\ (available_power b <= available_power a)%Z).
Proof.
  unfold merit_le. rewrite key_lt_false_iff. unfold merit_key. cbn [fst snd].
  split; (intros [H|[H1 H2]]; [left; exact H | right; split; [lra | lia]]).
Qed.

Lemma merit_le_trans (a b c : PowerPlant) :
  merit_le a b -> merit_le b c -> merit_le a c.
Proof.
  rewrite !merit_le_iff.
  intros [H1|[H1 H1']] [H2|[H2 H2']];
    [left; lra | left; lra | left; lra | right; split; [lra | lia]].
Qed.

Lemma sort_plants_strongly_sorted l : StronglySorted merit_le (sort_plants l).
Proof.
  apply Sorted_StronglySorted.
  - intros a b c. apply merit_le_trans.
  - apply sort_plants_sorted.
Qed.

Lemma StronglySorted_nth {A} (R : A -> A -> Prop) (l : list A) :
  StronglySorted R l ->
  forall i j x y,
    (i < j)%nat -> nth_error l i = Some x -> nth_error l j = Some y -> R x y.
Proof.
  induction 1 as [|a l Hs IH Hall]; intros i j x y Hij Hi Hj.
  - destruct i; discriminate.
  - destruct j as [|j]; [lia|]. cbn in Hj. destruct i as [|i].
    + cbn in Hi. inversion Hi; subst.
      rewrite Forall_forall in Hall. apply Hall.
      eapply nth_error_In. exact Hj.
    + cbn in Hi. apply (IH i j); auto. lia.
Qed.

(** X8.  The merit order is an order of the whole list: a unit placed
    before another one in the sorted list costs less per MWh, or costs
    the same and has at least as much available power.  In particular a
    unit of cost 0 with positive available power, such as a wind park,
    is never placed after a unit that costs more. *)
Theorem merit_order_global (l : list PowerPlant) (i j : nat)
    (a b : PowerPlant) :
  (i < j)%nat ->
  nth_error (sort_plants l) i = Some a ->
  nth_error (sort_plants l) j = Some b ->
  cost_per_mwh a < cost_per_mwh b \/
  (cost_per_mwh a == cost_per_mwh b /\
   (available_power b <= available_power a)%Z).
Proof.
  intros Hij Hi Hj. apply merit_le_iff.
  exact (StronglySorted_nth merit_le _ (sort_plants_strongly_sorted l)
           i j a b Hij Hi Hj).
Qed.

Lemma merit_order_global_witness :
  let w := mkPowerPlant "w" "windturbine" 1 0 100 0 50 in
  let g := mkPowerPlant "g" "gasfired" (1 # 2) 10 200 32 200 in
  cost_per_mwh w < cost_per_mwh g \/
  (cost_per_mwh w == cost_per_mwh g /\ (available_power g <= available_power w)%Z).
Proof.
  intros w g.
  apply (merit_order_global [g; w] 0 1 w g); [lia | reflexivity | reflexivity].
Defined.

Lemma sort_plants_sorted_id l : Sorted merit_le l -> sort_plants l = l.
Proof.
  induction l as [|x l IH]; intro H; cbn [sort_plants]; [reflexivity|].
  inversion H as [|? ? Hs Hh]; subst. rewrite (IH Hs).
  destruct l as [|y l]; cbn [insert_stable]; [reflexivity|].
  inversion Hh as [|? ? Hxy]; subst. unfold merit_le in Hxy. now rewrite Hxy.
Qed.

(** X9.  Units that come in merit order are left in place: sorting does
    not change the list (so sorting twice is sorting once), and the plan
    is then in the order of the request. *)
Theorem sorted_request_keeps_order (fuel : nat) (payload : Payload)
    (plants : list PowerPlant) (plan : list entry) (lg : list event) :
  build_plants (fuels payload) (powerplants payload) = Ok plants ->
  Sorted merit_le plants ->
  calculate_production_plan fuel payload = Some (Ok (plan, lg)) ->
  sort_plants plants = plants /\
  sort_plants (sort_plants plants) = sort_plants plants /\
  map e_name plan = map d_name (powerplants payload).
Proof.
  intros Eb Hs E.
  pose proof (sort_plants_sorted_id plants Hs) as Hid.
  repeat apply conj; [exact Hid | now rewrite Hid |].
  unfold calculate_production_plan in E. rewrite Eb, Hid in E.
  destruct (_optimize_production fuel plants (load payload)) as [[plan' lg']|] eqn:Eo;
    [|discriminate].
  inversion E; subst plan' lg'.
  rewrite (optimize_names _ _ _ _ _ Eo). now apply (build_plants_names (fuels payload)).
Qed.

Lemma sorted_request_keeps_order_witness :
  let payload :=
    mkPayload 80 (mkFuels 10 50 20 50)
      [ mkPlantData "w" "windturbine" 1 0 100;
        mkPlantData "g" "gasfired" (1 # 2) 10 200 ] in
  exists plan lg,
    calculate_production_plan 2 payload = Some (Ok (plan, lg)) /\
    map e_name plan = ["w"; "g"]%string.
Proof.
  intro payload.
  assert (E : exists plants plan lg,
             build_plants (fuels payload) (powerplants payload) = Ok plants /\
             sort_plants plants = plants /\
             calculate_production_plan 2 payload = Some (Ok (plan, lg))).
  { eexists. eexists. eexists. split; [vm_compute; reflexivity|].
    split; vm_compute; reflexivity. }
  destruct E as (plants & plan & lg & Eb & Hid & E).
  exists plan, lg. split; [exact E|].
  assert (Hs : Sorted merit_le plants).
  { rewrite <- Hid. apply sort_plants_sorted. }
  destruct (sorted_request_keeps_order 2 payload plants plan lg Eb Hs E)
    as (_ & _ & Hn).
  exact Hn.
Defined.

(** ** Wind that covers the load *)

Lemma cost_bearing_off_after_wind plants target :
  forall i plant,
    In (i, plant) (enumerate plants) -> is_wind plant = false ->
    get_p (production_plan_of (wind_pass plants (initial_state plants target))) i
    == 0.
Proof.
  refine (run_wind_pass plants target
            (fun st => forall i plant,
               In (i, plant) (enumerate plants) -> is_wind plant = false ->
               get_p (production_plan_of st) i == 0) _ _).
  - intros st k wplant _ Hk _ HP i plant Hi Hw.
    rewrite (within_bounds_wind_step plants st k wplant i plant Hk Hi Hw).
    now apply (HP i plant).
  - intros i plant _ _. cbn [initial_state production_plan_of].
    now rewrite get_p_initial.
Qed.

(** The wind loop from any start index: what remains is covered by the
    wind turbines still to visit, or nothing remains. *)
Lemma wind_covers_from plants target (rest : list PowerPlant) (k : nat) st :
  (k + length rest <= length plants)%nat ->
  (forall j, (k <= j)%nat -> get_p (production_plan_of st) j == 0) ->
  Inv plants target st ->
  remaining_load st <= 0
  \/ remaining_load st <= inject_Z (wind_available rest) ->
  remaining_load (fold_left wind_step (enumerate_from k rest) st) <= 0.
Proof.
  revert k st. induction rest as [|plant rest IH]; intros k st Hk Hz Hinv Hc;
    cbn [enumerate_from fold_left].
  - cbn in Hc. change (inject_Z 0) with 0 in Hc. tauto.
  - cbn [length] in Hk. apply IH.
    + lia.
    + intros j Hj.
      destruct (wind_step_cases st k plant (inv_rem _ _ _ Hinv))
        as [->|(v & _ & _ & _ & _ & _ & _ & ->)].
      * apply Hz. lia.
      * cbn [production_plan_of]. rewrite get_p_set_p_other by lia.
        apply Hz. lia.
    + apply Inv_wind_step; [lia | apply Hz; lia | exact Hinv].
    + cbn [wind_available fold_right] in Hc. fold (wind_available rest) in Hc.
      unfold wind_step.
      destruct (is_wind plant) eqn:Ew; cbn [andb]; [|exact Hc].
      destruct (Qlt_bool 0 (remaining_load st)) eqn:Epos;
        [|left; now apply Qlt_bool_false].
      apply Qlt_bool_iff in Epos. cbn [remaining_load].
      rewrite inject_Z_plus in Hc.
      assert (Hm : integral (py_min (inject_Z (available_power plant))
                                    (remaining_load st)))
        by (apply integral_py_min;
            [apply integral_inject_Z | apply (inv_rem _ _ _ Hinv)]).
      rewrite (round1_integral _ Hm).
      destruct (py_min_spec (inject_Z (available_power plant)) (remaining_load st))
        as [[H ->]|[H ->]]; [left; lra | right; lra].
Qed.

(** X10.  When the wind turbines together have at least the load
    available, and the load is not negative, the wind loop allocates the
    whole load: for any pass budget, zero included, the plan sums to the
    load exactly, every unit that is not a wind turbine stays at 0, and
    nothing is logged. *)
Theorem wind_covers_load (fuel : nat) (plants : list PowerPlant) (target : Z) :
  (0 <= target <= wind_available plants)%Z ->
  exists plan,
    _optimize_production fuel plants target = Some (plan, []) /\
    plan_sum plan == inject_Z target /\
    forall i plant,
      nth_error plants i = Some plant -> is_wind plant = false ->
      get_p plan i == 0.
Proof.
  intros [H0 Hw].
  pose proof (Inv_wind_pass plants target) as Hinv.
  assert (Hrem : remaining_load (wind_pass plants (initial_state plants target)) <= 0).
  { apply (wind_covers_from plants target plants 0).
    - simpl. lia.
    - intros j _. cbn [initial_state production_plan_of]. now rewrite get_p_initial.
    - apply Inv_initial.
    - right. cbn [initial_state remaining_load]. now rewrite <- Zle_Qle. }
  set (st := wind_pass plants (initial_state plants target)) in *.
  assert (Et : Qlt_bool tenth (remaining_load st) = false).
  { apply Qlt_bool_false. unfold tenth. lra. }
  assert (El : greedy_loop fuel plants st = Some st).
  { destruct fuel; cbn [greedy_loop]; rewrite Et; reflexivity. }
  assert (Hsum : plan_sum (production_plan_of st) == inject_Z target).
  { apply (satisfied_run_exact plants target st H0 Hinv). unfold tenth. lra. }
  exists (production_plan_of st). repeat apply conj.
  - unfold _optimize_production. fold st. rewrite El.
    rewrite (final_adjustment_balanced plants target st Hsum).
    f_equal. f_equal. subst st. unfold wind_pass. now rewrite wind_fold_log.
  - exact Hsum.
  - intros i plant Hn Hnw. apply In_enumerate in Hn.
    now apply (cost_bearing_off_after_wind plants target i plant).
Qed.

Lemma wind_covers_load_witness :
  let plants :=
    [ mkPowerPlant "w1" "windturbine" 1 0 150 0 90;
      mkPowerPlant "w2" "windturbine" 1 0 36 0 21;
      mkPowerPlant "g" "gasfired" (1 # 2) 10 200 32 200 ] in
  exists plan,
    _optimize_production 0 plants 100 = Some (plan, []) /\
    plan_sum plan == 100 /\ get_p plan 2 == 0.
Proof.
  intro plants.
  destruct (wind_covers_load 0 plants 100) as (plan & E & Hs & Hz).
  - vm_compute. split; discriminate.
  - exists plan. repeat apply conj; auto.
    apply (Hz 2%nat (mkPowerPlant "g" "gasfired" (1 # 2) 10 200 32 200));
      reflexivity.
Defined.

(** ** What the final adjustment can do *)

(** A wind turbine that is on is at its available power as long as some
    load remains. *)
Lemma wind_on_at_available plants target fuel r :
  greedy_loop fuel plants (wind_pass plants (initial_state plants target)) = Some r ->
  forall i plant,
    In (i, plant) (enumerate plants) -> is_wind plant = true ->
    0 < get_p (production_plan_of r) i ->
    get_p (production_plan_of r) i == inject_Z (available_power plant)
    \/ remaining_load r <= 0.
Proof.
  refine (run_before_adjustment plants target
            (fun st => forall i plant,
               In (i, plant) (enumerate plants) -> is_wind plant = true ->
               0 < get_p (production_plan_of st) i ->
               get_p (production_plan_of st) i == inject_Z (available_power plant)
               \/ remaining_load st <= 0) _ _ _ fuel r _).
  - intros st k wplant Hinv Hk Hzero HP i plant Hi Hw.
    pose proof (enumerate_index _ _ _ Hk) as Hlt.
    rewrite <- (inv_length _ _ _ Hinv) in Hlt.
    destruct (wind_step_cases st k wplant (inv_rem _ _ _ Hinv))
      as [->|(v & _ & Hpos & _ & _ & _ & Hor & ->)]; [now apply HP|].
    cbn [production_plan_of remaining_load].
    destruct (Nat.eq_dec k i) as [->|Hne].
    + rewrite (enumerate_functional _ _ _ _ Hk Hi) in *.
      rewrite get_p_set_p_same by exact Hlt. intros _.
      destruct Hor as [Ho|Ho]; [right; lra | now left].
    + rewrite get_p_set_p_other by exact Hne. intro Hp.
      destruct (HP i plant Hi Hw Hp) as [H|H]; [now left | lra].
  - intros st [j pl] Hinv Hj HP i plant Hi Hw.
    destruct (greedy_unit_cases st j pl (inv_rem _ _ _ Hinv) (inv_plan _ _ _ Hinv j))
      as [->|(inc & v & r' & Hnw & _ & _ & Hinc & _ & _ & _ & _ & _ & Er & ->)];
      [now apply HP|].
    cbn [fst production_plan_of remaining_load].
    rewrite get_p_set_p_other.
    + intro Hp. unfold tenth in Hinc.
      destruct (HP i plant Hi Hw Hp) as [H|H]; [now left | right; lra].
    + intros ->. rewrite (enumerate_functional _ _ _ _ Hj Hi) in Hnw. congruence.
  - intros st b lg HP. exact HP.
  - intros i plant _ _. cbn [initial_state production_plan_of].
    rewrite get_p_initial. intro H. lra.
Qed.

Lemma adjustment_moves_wind (fuel : nat)
    (plants : list PowerPlant) (target : Z) (st : dstate) :
  greedy_loop fuel plants (wind_pass plants (initial_state plants target)) = Some st ->
  production_plan_of (final_adjustment plants target st) = production_plan_of st \/
  exists i plant v,
    nth_error plants i = Some plant /\ is_wind plant = true /\
    production_plan_of (final_adjustment plants target st)
      = set_p (production_plan_of st) i v /\
    get_p (production_plan_of st) i == inject_Z (available_power plant) /\
    inject_Z (available_power plant) < v /\
    get_p (production_plan_of (final_adjustment plants target st)) i == v.
Proof.
  intro El.
  pose proof (Inv_greedy_loop plants target fuel _ st
                (Inv_wind_pass plants target) El) as Hinv.
  destruct (final_adjustment_cases plants target st)
    as [->|(lg' & [->|(i & plant & Hd & Hin & Hpos & Hlo & Hhi & E)])];
    [now left | now left |].
  pose proof (inv_sum _ _ _ Hinv) as Hs.
  assert (Hrem : 0 <= remaining_load st).
  { destruct (inv_nonneg _ _ _ Hinv) as [H|H]; [exact H|].
    specialize (H i). lra. }
  assert (Hdiff : inject_Z target - plan_sum (production_plan_of st)
                  == remaining_load st) by lra.
  assert (Hnn : 0 <= inject_Z target - plan_sum (production_plan_of st)) by lra.
  rewrite (Qabs_pos _ Hnn) in Hd.
  assert (Hstall : tenth < remaining_load st) by lra.
  assert (Hlt : (i < length (production_plan_of st))%nat).
  { destruct (Nat.lt_ge_cases i (length (production_plan_of st))) as [H|H];
      [exact H|]. rewrite get_p_beyond in Hpos by exact H. lra. }
  assert (Hint : integral (get_p (production_plan_of st) i
                           + (inject_Z target - plan_sum (production_plan_of st)))).
  { apply integral_plus; [apply (inv_plan _ _ _ Hinv)|].
    apply integral_minus; [apply integral_inject_Z|].
    now apply (Inv_sum_integral plants target). }
  pose proof (round1_integral _ Hint) as Er.
  (* the unit is a wind turbine: a cost-bearing one is blocked *)
  assert (Hw : is_wind plant = true).
  { destruct (is_wind plant) eqn:Ew; [reflexivity|]. exfalso.
    pose proof (stall_blocks plants target fuel _ st
                  (Inv_wind_pass plants target)
                  (off_or_full_after_wind plants target) El Hstall (i, plant) Hin)
      as [Hb|[Hb|[Hb _]]]; cbn [fst snd] in *; [congruence | | lra].
    unfold tenth in Hstall. lra. }
  right. exists i, plant,
    (round1 (get_p (production_plan_of st) i
             + (inject_Z target - plan_sum (production_plan_of st)))).
  assert (Hav : get_p (production_plan_of st) i == inject_Z (available_power plant)).
  { destruct (wind_on_at_available plants target fuel st El i plant Hin Hw Hpos)
      as [H|H]; [exact H|]. unfold tenth in Hstall. lra. }
  repeat apply conj.
  - now apply In_enumerate.
  - exact Hw.
  - now rewrite E.
  - exact Hav.
  - rewrite Er. unfold tenth in Hstall. lra.
  - rewrite E. cbn [production_plan_of]. rewrite get_p_set_p_same by exact Hlt.
    reflexivity.
Qed.

(** X11.  The final adjustment never changes a unit that is not a wind
    turbine.  It leaves the plan as the loop left it, or it takes a wind
    turbine that is at its available power and raises it above. *)
Theorem final_adjustment_only_moves_wind (fuel : nat)
    (plants : list PowerPlant) (target : Z) (st : dstate) :
  greedy_loop fuel plants (wind_pass plants (initial_state plants target)) = Some st ->
  production_plan_of (final_adjustment plants target st) = production_plan_of st \/
  exists i plant v,
    nth_error plants i = Some plant /\ is_wind plant = true /\
    production_plan_of (final_adjustment plants target st)
      = set_p (production_plan_of st) i v /\
    get_p (production_plan_of st) i == inject_Z (available_power plant) /\
    inject_Z (available_power plant) < v /\
    get_p (production_plan_of (final_adjustment plants target st)) i == v.
Proof.
  exact (adjustment_moves_wind fuel plants target st).
Qed.

Lemma final_adjustment_only_moves_wind_witness :
  let plants :=
    [ mkPowerPlant "w" "windturbine" 1 0 100 0 50;
      mkPowerPlant "g" "gasfired" (1 # 2) 100 200 32 200 ] in
  exists st,
    greedy_loop 2 plants (wind_pass plants (initial_state plants 80)) = Some st /\
    (production_plan_of (final_adjustment plants 80 st) = production_plan_of st \/
     exists i plant v,
       nth_error plants i = Some plant /\ is_wind plant = true /\
       production_plan_of (final_adjustment plants 80 st)
         = set_p (production_plan_of st) i v /\
       get_p (production_plan_of st) i == inject_Z (available_power plant) /\
       inject_Z (available_power plant) < v /\
       get_p (production_plan_of (final_adjustment plants 80 st)) i == v).
Proof.
  intro plants.
  assert (E : exists st,
             greedy_loop 2 plants (wind_pass plants (initial_state plants 80))
             = Some st).
  { eexists. vm_compute. reflexivity. }
  destruct E as (st & E). exists st. split; [exact E|].
  exact (final_adjustment_only_moves_wind 2 plants 80 st E).
Defined.

(** ** Filling in merit order *)

Lemma greedy_unit_other_index plants target st i plant j :
  Inv plants target st -> i <> j ->
  get_p (production_plan_of (fst (greedy_unit st (i, plant)))) j
  = get_p (production_plan_of st) j.
Proof.
  intros Hinv Hne.
  destruct (greedy_unit_cases st i plant (inv_rem _ _ _ Hinv) (inv_plan _ _ _ Hinv i))
    as [->|(inc & v & r & _ & _ & _ & _ & _ & _ & _ & _ & _ & _ & ->)];
    [reflexivity|].
  cbn [fst production_plan_of]. now apply get_p_set_p_other.
Qed.

Lemma blocked_off_or_full rem plan i plant :
  blocked rem plan (i, plant) -> is_wind plant = false ->
  get_p plan i == 0 \/ inject_Z (pmax plant) <= get_p plan i.
Proof.
  intros [Hw|[Hs|[Hz _]]] Hnw; cbn [fst snd] in *;
    [congruence | now right | now left].
Qed.

(** A pass over the units from index [k] on, when the units before [k]
    are blocked and the cost-bearing ones from [k] on are still off. *)
Lemma pass_in_order plants target (rest : list PowerPlant) (k : nat) st :
  (k + length rest = length plants)%nat ->
  (forall ip, In ip (enumerate_from k rest) -> In ip (enumerate plants)) ->
  Inv plants target st ->
  off_or_full plants (production_plan_of st) ->
  (forall i plant, In (i, plant) (enumerate plants) -> (i < k)%nat ->
     blocked (remaining_load st) (production_plan_of st) (i, plant)) ->
  (forall i plant, In (i, plant) (enumerate plants) -> (k <= i)%nat ->
     is_wind plant = false -> get_p (production_plan_of st) i == 0) ->
  filled_in_order plants
    (production_plan_of (greedy_pass (enumerate_from k rest) st)).
Proof.
  revert k st. induction rest as [|plant rest IH];
    intros k st Hk Hl Hinv HJ HA HB; cbn [enumerate_from greedy_pass].
  - intros i j pi pj Hi Hj Hwi Hwj Hij Hon.
    apply (blocked_off_or_full (remaining_load st)); [|exact Hwi].
    apply HA; [exact Hi|]. pose proof (enumerate_index _ _ _ Hi). simpl in Hk. lia.
  - cbn [length] in Hk.
    assert (Hin : In (k, plant) (enumerate plants))
      by (apply Hl; cbn [enumerate_from]; now left).
    assert (Hrest : forall ip, In ip (enumerate_from (S k) rest) ->
                               In ip (enumerate plants))
      by (intros ip H; apply Hl; cbn [enumerate_from]; now right).
    pose proof (Inv_greedy_unit plants target st k plant
                  (enumerate_index _ _ _ Hin) Hinv) as Hinv'.
    pose proof (unit_keeps_off_or_full plants target st k plant Hinv Hin HJ) as HJ'.
    assert (HA' : forall i pl, In (i, pl) (enumerate plants) -> (i < k)%nat ->
              blocked (remaining_load (fst (greedy_unit st (k, plant))))
                      (production_plan_of (fst (greedy_unit st (k, plant)))) (i, pl)).
    { intros i pl Hi Hlt. apply (blocked_step plants target); auto. }
    assert (HB' : forall i pl, In (i, pl) (enumerate plants) -> (S k <= i)%nat ->
              is_wind pl = false ->
              get_p (production_plan_of (fst (greedy_unit st (k, plant)))) i == 0).
    { intros i pl Hi Hle Hw.
      rewrite (greedy_unit_other_index plants target) by (auto; lia).
      apply (HB i pl); auto. lia. }
    destruct (greedy_unit_blocks plants target st k plant Hinv Hin
                (fun Hw => HJ k plant Hin Hw)) as [[Es Hr]|[Es Hb]].
    + destruct (greedy_unit st (k, plant)) as [st1 stop].
      cbn [fst snd] in *. subst stop.
      intros i j pi pj Hi Hj Hwi Hwj Hij Hon.
      destruct (Nat.lt_ge_cases k j) as [Hkj|Hjk].
      * rewrite (HB' j pj Hj Hkj Hwj) in Hon. lra.
      * apply (blocked_off_or_full (remaining_load st1)); [|exact Hwi].
        apply HA'; [exact Hi | lia].
    + specialize (HJ' Hb).
      destruct (greedy_unit st (k, plant)) as [st1 stop].
      cbn [fst snd] in *. subst stop.
      apply IH; auto.
      * lia.
      * intros i pl Hi Hlt. destruct (Nat.eq_dec i k) as [->|Hne].
        -- now rewrite (enumerate_functional _ _ _ _ Hi Hin).
        -- apply HA'; [exact Hi | lia].
Qed.

(** Once the load is met or every unit is blocked, the loop does not
    change the plan any more. *)
Lemma settled_loop plants fuel st r :
  remaining_load st <= tenth
  \/ (forall ip, In ip (enumerate plants) ->
        blocked (remaining_load st) (production_plan_of st) ip) ->
  greedy_loop fuel plants st = Some r ->
  production_plan_of r = production_plan_of st.
Proof.
  intros H E.
  destruct (Qlt_bool tenth (remaining_load st)) eqn:Et.
  - destruct H as [H|H]; [apply Qlt_bool_iff in Et; lra|].
    destruct fuel as [|fuel]; cbn [greedy_loop] in E; rewrite Et in E;
      [discriminate|].
    rewrite (pass_noop (enumerate plants) (clear_progress st)) in E by exact H.
    cbn in E. inversion E; subst r. reflexivity.
  - destruct fuel; cbn [greedy_loop] in E; rewrite Et in E;
      inversion E; subst r; reflexivity.
Qed.

Lemma loop_in_order plants target fuel r :
  greedy_loop fuel plants (wind_pass plants (initial_state plants target)) = Some r ->
  filled_in_order plants (production_plan_of r).
Proof.
  set (st := wind_pass plants (initial_state plants target)).
  pose proof (Inv_wind_pass plants target) as Hinv. fold st in Hinv.
  pose proof (off_or_full_after_wind plants target) as HJ. fold st in HJ.
  pose proof (cost_bearing_off_after_wind plants target) as Hoff. fold st in Hoff.
  intro E. destruct fuel as [|fuel]; cbn [greedy_loop] in E;
    destruct (Qlt_bool tenth (remaining_load st)) eqn:Et; try discriminate.
  - inversion E; subst r. intros i j pi pj Hi Hj Hwi Hwj Hij Hon.
    rewrite (Hoff j pj Hj Hwj) in Hon. lra.
  - assert (Hc : Inv plants target (clear_progress st))
      by (now apply Inv_clear_progress).
    pose proof (pass_in_order plants target plants 0 (clear_progress st)
                  eq_refl (fun ip H => H) Hc HJ) as Hord.
    pose proof (pass_blocks plants target (enumerate plants) (clear_progress st)
                  (fun ip H => H) Hc HJ) as Hp.
    change (enumerate_from 0 plants) with (enumerate plants) in Hord.
    set (st1 := greedy_pass (enumerate plants) (clear_progress st)) in *.
    assert (Hord1 : filled_in_order plants (production_plan_of st1)).
    { apply Hord.
      - intros i plant _ Hlt. lia.
      - intros i plant Hi _ Hw. exact (Hoff i plant Hi Hw). }
    destruct (made_progress st1).
    + assert (Hsettled : remaining_load st1 <= tenth \/
                (forall ip, In ip (enumerate plants) ->
                   blocked (remaining_load st1) (production_plan_of st1) ip))
        by (destruct Hp as [H|[_ H]]; [now left | now right]).
      now rewrite (settled_loop plants fuel st1 r Hsettled E).
    + inversion E; subst r. exact Hord1.
  - inversion E; subst r. intros i j pi pj Hi Hj Hwi Hwj Hij Hon.
    rewrite (Hoff j pj Hj Hwj) in Hon. lra.
Qed.

(** X12.  The cost-bearing units are filled in merit order: in the
    returned plan, a cost-bearing unit that stands before a cost-bearing
    unit that is on is itself at its [pmax] (or above) or off.  So at
    most the last cost-bearing unit that is on is partly loaded. *)
Theorem cost_bearing_filled_in_order (fuel : nat) (plants : list PowerPlant)
    (target : Z) (plan : list entry) (lg : list event) :
  _optimize_production fuel plants target = Some (plan, lg) ->
  forall i j plant_i plant_j,
    nth_error plants i = Some plant_i -> nth_error plants j = Some plant_j ->
    is_wind plant_i = false -> is_wind plant_j = false ->
    (i < j)%nat -> 0 < get_p plan j ->
    get_p plan i == 0 \/ inject_Z (pmax plant_i) <= get_p plan i.
Proof.
  intros E i j pi pj Hi Hj Hwi Hwj Hij.
  apply In_enumerate in Hi. apply In_enumerate in Hj.
  destruct (optimize_inv _ _ _ _ _ E) as (st & El & Hinv & -> & _ & _).
  pose proof (loop_in_order plants target fuel st El) as Hord.
  destruct (adjustment_moves_wind fuel plants target st El)
    as [->|(k & pk & v & Hk & Hwk & -> & _)].
  - now apply (Hord i j pi pj).
  - apply In_enumerate in Hk.
    rewrite !get_p_set_p_other.
    + now apply (Hord i j pi pj).
    + intros ->. rewrite (enumerate_functional _ _ _ _ Hk Hi) in Hwk. congruence.
    + intros ->. rewrite (enumerate_functional _ _ _ _ Hk Hj) in Hwk. congruence.
Qed.

Lemma cost_bearing_filled_in_order_witness :
  let a := mkPowerPlant "a" "gasfired" (1 # 2) 20 60 32 60 in
  let b := mkPowerPlant "b" "gasfired" (1 # 2) 10 90 40 90 in
  exists plan lg,
    _optimize_production 2 [a; b] 75 = Some (plan, lg) /\
    get_p plan 1 == 15 /\
    (get_p plan 0 == 0 \/ inject_Z 60 <= get_p plan 0).
Proof.
  intros a b.
  assert (E : exists plan lg,
             _optimize_production 2 [a; b] 75 = Some (plan, lg) /\
             get_p plan 1 == 15).
  { eexists. eexists. split; vm_compute; reflexivity. }
  destruct E as (plan & lg & E & Hp). exists plan, lg.
  repeat apply conj; auto.
  apply (cost_bearing_filled_in_order 2 [a; b] 75 plan lg E 0%nat 1%nat a b);
    try reflexivity; [lia | rewrite Hp; reflexivity].
Defined.

(** ** Units without a minimum *)

Lemma headroom_other (l : list (nat * PowerPlant)) plan k v :
  (forall plant, ~ In (k, plant) l) ->
  headroom l (set_p plan k v) == headroom l plan.
Proof.
  induction l as [|[i plant] rest IH]; intro H; cbn [headroom]; [reflexivity|].
  rewrite IH by (intros pl Hin; apply (H pl); now right).
  rewrite get_p_set_p_other; [reflexivity|].
  intros ->. apply (H plant). now left.
Qed.

Lemma headroom_set_p (rest : list PowerPlant) (s : nat) plan k plant v :
  In (k, plant) (enumerate_from s rest) ->
  (k < length plan)%nat ->
  headroom (enumerate_from s rest) (set_p plan k v)
  == headroom (enumerate_from s rest) plan
     - (if is_wind plant then 0 else v - get_p plan k).
Proof.
  revert s. induction rest as [|pl rest IH]; intros s Hin Hlt;
    cbn [enumerate_from headroom] in *; [contradiction|].
  destruct Hin as [Heq|Hin].
  - inversion Heq; subst s pl.
    rewrite get_p_set_p_same by exact Hlt.
    rewrite headroom_other.
    + destruct (is_wind plant); lra.
    + intros pl' Hin'. apply enumerate_from_index in Hin'. lia.
  - pose proof (enumerate_from_index _ _ _ _ Hin) as Hr.
    rewrite get_p_set_p_other by lia.
    rewrite (IH (S s) Hin Hlt). lra.
Qed.

Lemma headroom_off (rest : list PowerPlant) (s : nat) plan :
  (forall i plant, In (i, plant) (enumerate_from s rest) ->
                   is_wind plant = false -> get_p plan i == 0) ->
  headroom (enumerate_from s rest) plan == inject_Z (cost_bearing_capacity rest).
Proof.
  revert s. induction rest as [|pl rest IH]; intros s H;
    cbn [enumerate_from headroom cost_bearing_capacity fold_right];
    [reflexivity|].
  fold (cost_bearing_capacity rest).
  rewrite IH by (intros i plant Hin; apply H; now right).
  destruct (is_wind pl) eqn:Ew; [lra|].
  rewrite inject_Z_plus, (H s pl (or_introl eq_refl) Ew). lra.
Qed.

Lemma headroom_full (l : list (nat * PowerPlant)) plan :
  (forall i plant, In (i, plant) l -> is_wind plant = false ->
                   inject_Z (pmax plant) <= get_p plan i) ->
  headroom l plan <= 0.
Proof.
  induction l as [|[i plant] rest IH]; intro H; cbn [headroom]; [lra|].
  assert (IH' := IH (fun j pl Hin => H j pl (or_intror Hin))).
  destruct (is_wind plant) eqn:Ew; [lra|].
  pose proof (H i plant (or_introl eq_refl) Ew). lra.
Qed.

(** Through the greedy loop, what the cost-bearing units can still take
    and the remaining load go down together. *)
Lemma headroom_follows_load plants target fuel st r :
  Inv plants target st ->
  greedy_loop fuel plants st = Some r ->
  headroom (enumerate plants) (production_plan_of r) - remaining_load r
  == headroom (enumerate plants) (production_plan_of st) - remaining_load st.
Proof.
  intros Hinv E.
  refine (run_loop plants target
            (fun s => headroom (enumerate plants) (production_plan_of s)
                      - remaining_load s
                      == headroom (enumerate plants) (production_plan_of st)
                         - remaining_load st) _ _ fuel st r Hinv _ E).
  - intros s [j pl] Hs Hj HP.
    pose proof (enumerate_index _ _ _ Hj) as Hlt.
    rewrite <- (inv_length _ _ _ Hs) in Hlt.
    destruct (greedy_unit_cases s j pl (inv_rem _ _ _ Hs) (inv_plan _ _ _ Hs j))
      as [->|(inc & v & r' & Hnw & _ & _ & _ & _ & _ & _ & _ & Ev & Er & ->)];
      [exact HP|].
    cbn [fst production_plan_of remaining_load].
    unfold enumerate in *. rewrite (headroom_set_p plants 0 _ j pl v Hj Hlt).
    rewrite Hnw. lra.
  - intros s b lg HP. exact HP.
  - reflexivity.
Qed.

(** The wind loop from any start index: nothing remains, or all the wind
    turbines still to visit are used in full. *)
Lemma wind_uses_all_from plants target (rest : list PowerPlant) (k : nat) st (c : Q) :
  (k + length rest <= length plants)%nat ->
  (forall j, (k <= j)%nat -> get_p (production_plan_of st) j == 0) ->
  Inv plants target st ->
  remaining_load st <= 0
  \/ remaining_load st == c + inject_Z (wind_available rest) ->
  remaining_load (fold_left wind_step (enumerate_from k rest) st) <= 0
  \/ remaining_load (fold_left wind_step (enumerate_from k rest) st) == c.
Proof.
  revert k st. induction rest as [|plant rest IH]; intros k st Hk Hz Hinv Hc;
    cbn [enumerate_from fold_left].
  - cbn in Hc. change (inject_Z 0) with 0 in Hc.
    destruct Hc as [H|H]; [now left | right; lra].
  - cbn [length] in Hk. apply IH.
    + lia.
    + intros j Hj.
      destruct (wind_step_cases st k plant (inv_rem _ _ _ Hinv))
        as [->|(v & _ & _ & _ & _ & _ & _ & ->)].
      * apply Hz. lia.
      * cbn [production_plan_of]. rewrite get_p_set_p_other by lia.
        apply Hz. lia.
    + apply Inv_wind_step; [lia | apply Hz; lia | exact Hinv].
    + cbn [wind_available fold_right] in Hc. fold (wind_available rest) in Hc.
      unfold wind_step.
      destruct (is_wind plant) eqn:Ew; cbn [andb]; [|exact Hc].
      destruct (Qlt_bool 0 (remaining_load st)) eqn:Epos;
        [|left; now apply Qlt_bool_false].
      apply Qlt_bool_iff in Epos. cbn [remaining_load].
      rewrite inject_Z_plus in Hc.
      assert (Hm : integral (py_min (inject_Z (available_power plant))
                                    (remaining_load st)))
        by (apply integral_py_min;
            [apply integral_inject_Z | apply (inv_rem _ _ _ Hinv)]).
      rewrite (round1_integral _ Hm).
      destruct (py_min_spec (inject_Z (available_power plant)) (remaining_load st))
        as [[H ->]|[H ->]]; [left; lra | right; lra].
Qed.

(** X13.  Load conservation from the request alone.  If the load is not
    negative and at most the available wind power plus the [pmax] of the
    cost-bearing units, and every cost-bearing unit can start on 1 MW
    ([pmin <= 1] and [pmin <= pmax]), then the loop does not stall and
    the plan sums to the load exactly; nothing is logged. *)
Theorem load_met_without_minimum (fuel : nat) (plants : list PowerPlant)
    (target : Z) (plan : list entry) (lg : list event) :
  (0 <= target <= wind_available plants + cost_bearing_capacity plants)%Z ->
  (forall plant, In plant plants -> is_wind plant = false ->
                 (pmin plant <= 1)%Z /\ (pmin plant <= pmax plant)%Z) ->
  _optimize_production fuel plants target = Some (plan, lg) ->
  lg = [] /\ plan_sum plan == inject_Z target.
Proof.
  intros [H0 Hcap] Hmin E.
  destruct (optimize_inv _ _ _ _ _ E) as (st & El & Hinv & Ep & Elg & Hend).
  set (stw := wind_pass plants (initial_state plants target)) in *.
  pose proof (Inv_wind_pass plants target) as Hinvw. fold stw in Hinvw.
  assert (Hdone : remaining_load st <= tenth).
  { destruct Hend as [[H _]|[Hstall _]]; [exact H|]. exfalso.
    (* every cost-bearing unit is full *)
    assert (Hfull : forall i plant, In (i, plant) (enumerate plants) ->
                      is_wind plant = false ->
                      inject_Z (pmax plant) <= get_p (production_plan_of st) i).
    { intros i plant Hin Hw.
      pose proof (stall_blocks plants target fuel stw st Hinvw
                    (off_or_full_after_wind plants target) El Hstall (i, plant) Hin)
        as [Hb|[Hb|[Hz Hg]]]; cbn [fst snd] in *; [congruence | exact Hb |].
      destruct (Qlt_le_dec (get_p (production_plan_of st) i) (inject_Z (pmax plant)))
        as [Hunsat|Hsat]; [|exact Hsat].
      exfalso. apply Hg.
      pose proof (integral_gt_tenth _ (inv_rem _ _ _ Hinv) Hstall) as Hr1.
      assert (Hp1 : 1 <= inject_Z (pmax plant)).
      { change 1 with (inject_Z 1). rewrite <- Zle_Qle.
        assert (0 < pmax plant)%Z; [|lia].
        rewrite Zlt_Qlt. change (inject_Z 0) with 0. lra. }
      destruct (Hmin plant) as [Hm1 Hm2];
        [apply In_enumerate in Hin; eapply nth_error_In; exact Hin | exact Hw |].
      rewrite Zle_Qle in Hm1, Hm2. change (inject_Z 1) with 1 in Hm1.
      apply py_max_le_iff. unfold tenth.
      split; apply py_min_le_iff; split; lra. }
    pose proof (headroom_full (enumerate plants) (production_plan_of st) Hfull) as Hh.
    pose proof (headroom_follows_load plants target fuel stw st Hinvw El) as Hf.
    assert (Hoff : headroom (enumerate plants) (production_plan_of stw)
                   == inject_Z (cost_bearing_capacity plants)).
    { apply (headroom_off plants 0). intros i plant Hin Hw.
      exact (cost_bearing_off_after_wind plants target i plant Hin Hw). }
    assert (Hwind : remaining_load stw <= 0
                    \/ remaining_load stw
                       == inject_Z target - inject_Z (wind_available plants)).
    { apply (wind_uses_all_from plants target plants 0).
      - simpl. lia.
      - intros j _. cbn [initial_state production_plan_of]. now rewrite get_p_initial.
      - apply Inv_initial.
      - right. cbn [initial_state remaining_load]. lra. }
    rewrite Zle_Qle, inject_Z_plus in Hcap. unfold tenth in Hstall.
    destruct Hwind as [Hw|Hw].
    - (* nothing left after the wind: the loop is not entered *)
      assert (Et : Qlt_bool tenth (remaining_load stw) = false)
        by (apply Qlt_bool_false; unfold tenth; lra).
      assert (st = stw).
      { destruct fuel; cbn [greedy_loop] in El; rewrite Et in El;
          now inversion El. }
      subst st. lra.
    - lra. }
  pose proof (satisfied_run_exact plants target st H0 Hinv Hdone) as Hsum.
  rewrite (final_adjustment_balanced plants target st Hsum) in Ep, Elg.
  subst plan lg. split; [|exact Hsum].
  destruct Hend as [[_ Hlog]|[Hstall _]]; [exact Hlog | lra].
Qed.

Lemma load_met_without_minimum_witness :
  let plants :=
    [ mkPowerPlant "w" "windturbine" 1 0 100 0 50;
      mkPowerPlant "a" "gasfired" (1 # 2) 0 60 32 60;
      mkPowerPlant "t" "turbojet" (3 # 10) 1 16 169 16 ] in
  exists plan,
    _optimize_production 2 plants 120 = Some (plan, []) /\
    plan_sum plan == 120.
Proof.
  intro plants.
  assert (Hmin : forall plant, In plant plants -> is_wind plant = false ->
                   (pmin plant <= 1)%Z /\ (pmin plant <= pmax plant)%Z).
  { intros plant Hin Hw.
    destruct Hin as [<-|[<-|[<-|[]]]];
      [discriminate Hw | split; discriminate | split; discriminate]. }
  assert (Hcap : (0 <= 120 <= wind_available plants + cost_bearing_capacity plants)%Z).
  { split; discriminate. }
  assert (E : exists plan lg, _optimize_production 2 plants 120 = Some (plan, lg)).
  { eexists. eexists. vm_compute. reflexivity. }
  destruct E as (plan & lg & E).
  destruct (load_met_without_minimum 2 plants 120 plan lg Hcap Hmin E) as [Hlg Hs].
  subst lg. exists plan. split; assumption.
Defined.

(** ** The warnings *)

(** X14.  On a load that is not negative the log has one of two shapes:
    it is empty, or the loop stalled and the log holds the remaining
    load that could not be satisfied, above 0.1, followed by the
    production difference, which is that same remaining load.  So the
    final adjustment is entered exactly when the loop stalled. *)
Theorem warnings_come_together (fuel : nat) (plants : list PowerPlant)
    (target : Z) (plan : list entry) (lg : list event) :
  (0 <= target)%Z ->
  _optimize_production fuel plants target = Some (plan, lg) ->
  lg = [] \/
  exists r d,
    lg = [CouldNotSatisfy r; ProductionDifference d] /\ tenth < r /\ d == r.
Proof.
  intros Ht E.
  destruct (optimize_inv _ _ _ _ _ E) as (st & _ & Hinv & _ & -> & Hend).
  pose proof (inv_sum _ _ _ Hinv) as Hs.
  assert (H0 : 0 <= inject_Z target).
  { change 0 with (inject_Z 0). now rewrite <- Zle_Qle. }
  assert (Hrem : 0 <= remaining_load st).
  { destruct (inv_nonneg _ _ _ Hinv) as [H|H]; [exact H|].
    pose proof (plan_sum_zero _ H). lra. }
  assert (Hnn : 0 <= inject_Z target - plan_sum (production_plan_of st)) by lra.
  unfold final_adjustment.
  match goal with
  | |- context [Qlt_bool tenth ?a] => destruct (Qlt_bool tenth a) eqn:Ed
  end.
  - apply Qlt_bool_iff in Ed. rewrite (Qabs_pos _ Hnn) in Ed.
    cbn [log warn]. destruct Hend as [[Hle _]|[Hstall Hlog]]; [lra|].
    right. rewrite Hlog. eexists. eexists. split; [reflexivity|].
    split; [exact Hstall | lra].
  - apply Qlt_bool_false in Ed. rewrite (Qabs_pos _ Hnn) in Ed.
    destruct Hend as [[_ Hlog]|[Hstall _]]; [now left | lra].
Qed.

Lemma warnings_come_together_witness :
  exists plan r d,
    _optimize_production 2 [mkPowerPlant "g" "gasfired" (1 # 2) 0 10 32 10] 20
      = Some (plan, [CouldNotSatisfy r; ProductionDifference d]) /\
    d == r.
Proof.
  assert (E : exists plan lg,
             _optimize_production 2 [mkPowerPlant "g" "gasfired" (1 # 2) 0 10 32 10] 20
             = Some (plan, lg) /\ lg <> []).
  { eexists. eexists. split; [vm_compute; reflexivity | discriminate]. }
  destruct E as (plan & lg & E & Hne).
  destruct (warnings_come_together 2
              [mkPowerPlant "g" "gasfired" (1 # 2) 0 10 32 10] 20 plan lg)
    as [H|(r & d & H & _ & Hd)]; [lia | exact E | contradiction |].
  exists plan, r, d. subst lg. split; assumption.
Defined.

(** ** Wind turbines in merit order *)

(** The wind loop body, with the reason when it does nothing. *)
Lemma wind_step_outcome (st : dstate) (k : nat) (plant : PowerPlant) :
  integral (remaining_load st) ->
  (wind_step st (k, plant) = st /\
   (is_wind plant = true -> remaining_load st <= 0)) \/
  exists v,
    is_wind plant = true /\ 0 < remaining_load st /\
    (v == remaining_load st \/ v == inject_Z (available_power plant)) /\
    wind_step st (k, plant) =
      mkState (set_p (production_plan_of st) k v) (remaining_load st - v)
              (made_progress st) (log st).
Proof.
  intro Hr. unfold wind_step.
  destruct (is_wind plant) eqn:Ew; cbn [andb];
    [|left; split; [reflexivity | discriminate]].
  destruct (Qlt_bool 0 (remaining_load st)) eqn:Ep.
  - right. apply Qlt_bool_iff in Ep.
    assert (Hm : integral (py_min (inject_Z (available_power plant))
                                  (remaining_load st)))
      by (apply integral_py_min; [apply integral_inject_Z | exact Hr]).
    pose proof (round1_integral _ Hm) as Er.
    eexists. repeat apply conj; try reflexivity; [exact Ep|].
    rewrite Er.
    destruct (py_min_spec (inject_Z (available_power plant)) (remaining_load st))
      as [[H ->]|[H ->]]; [left | right]; reflexivity.
  - left. split; [reflexivity|]. intros _. now apply Qlt_bool_false.
Qed.

(** The wind loop from index [k] on: among the wind turbines before [k],
    one that stands before one that is on is at its available power, and
    all of them are while some load remains. *)
Lemma wind_in_order_from plants target (rest : list PowerPlant) (k : nat) st :
  (k + length rest = length plants)%nat ->
  (forall ip, In ip (enumerate_from k rest) -> In ip (enumerate plants)) ->
  (forall j, (k <= j)%nat -> get_p (production_plan_of st) j == 0) ->
  Inv plants target st ->
  (forall i j pi pj, In (i, pi) (enumerate plants) -> In (j, pj) (enumerate plants) ->
     is_wind pi = true -> is_wind pj = true -> (i < j)%nat ->
     0 < get_p (production_plan_of st) j ->
     get_p (production_plan_of st) i == inject_Z (available_power pi)) ->
  (0 < remaining_load st ->
   forall i pi, In (i, pi) (enumerate plants) -> is_wind pi = true -> (i < k)%nat ->
     get_p (production_plan_of st) i == inject_Z (available_power pi)) ->
  forall i j pi pj, In (i, pi) (enumerate plants) -> In (j, pj) (enumerate plants) ->
    is_wind pi = true -> is_wind pj = true -> (i < j)%nat ->
    0 < get_p (production_plan_of (fold_left wind_step (enumerate_from k rest) st)) j ->
    get_p (production_plan_of (fold_left wind_step (enumerate_from k rest) st)) i
    == inject_Z (available_power pi).
Proof.
  revert k st. induction rest as [|plant rest IH];
    intros k st Hk Hl Hz Hinv HR HS; cbn [enumerate_from fold_left];
    [exact HR|].
  cbn [length] in Hk.
  assert (Hin : In (k, plant) (enumerate plants))
    by (apply Hl; cbn [enumerate_from]; now left).
  assert (Hrest : forall ip, In ip (enumerate_from (S k) rest) ->
                             In ip (enumerate plants))
    by (intros ip H; apply Hl; cbn [enumerate_from]; now right).
  assert (Hlt : (k < length (production_plan_of st))%nat)
    by (rewrite (inv_length _ _ _ Hinv); lia).
  assert (Hzk : get_p (production_plan_of st) k == 0) by (apply Hz; lia).
  pose proof (Inv_wind_step plants target st k plant
                (enumerate_index _ _ _ Hin) Hzk Hinv) as Hinv'.
  destruct (wind_step_outcome st k plant (inv_rem _ _ _ Hinv))
    as [[Esame Hidle]|(v & Hw & Hpos & Hor & Estep)].
  - (* the body did nothing *)
    rewrite Esame. apply IH; auto.
    + lia.
    + intros j Hj. apply Hz. lia.
    + intros Hp i pi Hi Hwi Hik. destruct (Nat.eq_dec i k) as [->|Hne].
      * rewrite (enumerate_functional _ _ _ _ Hi Hin) in Hwi.
        specialize (Hidle Hwi). lra.
      * apply (HS Hp i pi Hi Hwi). lia.
  - (* the turbine got the smaller of its available power and the load *)
    rewrite Estep in *. apply IH; auto.
    + lia.
    + intros j Hj. cbn [production_plan_of].
      rewrite get_p_set_p_other by lia. apply Hz. lia.
    + intros i j pi pj Hi Hj Hwi Hwj Hij. cbn [production_plan_of].
      destruct (Nat.eq_dec k j) as [<-|Hkj].
      * intros _. rewrite (get_p_set_p_other _ k i) by lia.
        apply (HS Hpos i pi Hi Hwi Hij).
      * rewrite get_p_set_p_other by exact Hkj. intro Hon.
        destruct (Nat.eq_dec k i) as [<-|Hki].
        -- exfalso. rewrite (Hz j) in Hon by lia. lra.
        -- rewrite get_p_set_p_other by exact Hki.
           now apply (HR i j pi pj).
    + cbn [production_plan_of remaining_load]. intros Hp i pi Hi Hwi Hik.
      destruct (Nat.eq_dec k i) as [<-|Hki].
      * rewrite (enumerate_functional _ _ _ _ Hi Hin).
        rewrite get_p_set_p_same by exact Hlt.
        destruct Hor as [Ho|Ho]; [lra | exact Ho].
      * rewrite get_p_set_p_other by exact Hki.
        apply (HS Hpos i pi Hi Hwi). lia.
Qed.

Lemma wind_unchanged_by_loop plants target fuel st r :
  Inv plants target st ->
  greedy_loop fuel plants st = Some r ->
  forall i plant, In (i, plant) (enumerate plants) -> is_wind plant = true ->
    get_p (production_plan_of r) i = get_p (production_plan_of st) i.
Proof.
  intros Hinv E.
  refine (run_loop plants target
            (fun s => forall i plant,
               In (i, plant) (enumerate plants) -> is_wind plant = true ->
               get_p (production_plan_of s) i = get_p (production_plan_of st) i)
            _ _ fuel st r Hinv _ E).
  - intros s [j pl] Hs Hj HP i plant Hi Hw.
    destruct (greedy_unit_cases s j pl (inv_rem _ _ _ Hs) (inv_plan _ _ _ Hs j))
      as [->|(inc & v & r' & Hnw & _ & _ & _ & _ & _ & _ & _ & _ & _ & ->)];
      [now apply (HP i plant)|].
    cbn [fst production_plan_of]. rewrite get_p_set_p_other.
    + now apply (HP i plant).
    + intros ->. rewrite (enumerate_functional _ _ _ _ Hj Hi) in Hnw. congruence.
  - intros s b lg HP. exact HP.
  - reflexivity.
Qed.

(** X15.  The wind turbines are used in merit order: in the returned
    plan, a wind turbine that stands before a wind turbine that is on has
    at least its available power. *)
Theorem wind_filled_in_order (fuel : nat) (plants : list PowerPlant)
    (target : Z) (plan : list entry) (lg : list event) :
  _optimize_production fuel plants target = Some (plan, lg) ->
  forall i j plant_i plant_j,
    nth_error plants i = Some plant_i -> nth_error plants j = Some plant_j ->
    is_wind plant_i = true -> is_wind plant_j = true ->
    (i < j)%nat -> 0 < get_p plan j ->
    inject_Z (available_power plant_i) <= get_p plan i.
Proof.
  intros E i j pi pj Hi Hj Hwi Hwj Hij.
  apply In_enumerate in Hi. apply In_enumerate in Hj.
  destruct (optimize_inv _ _ _ _ _ E) as (st & El & Hinv & -> & _ & _).
  set (stw := wind_pass plants (initial_state plants target)) in *.
  pose proof (Inv_wind_pass plants target) as Hinvw. fold stw in Hinvw.
  assert (Hw : forall i j pi pj,
             In (i, pi) (enumerate plants) -> In (j, pj) (enumerate plants) ->
             is_wind pi = true -> is_wind pj = true -> (i < j)%nat ->
             0 < get_p (production_plan_of st) j ->
             get_p (production_plan_of st) i == inject_Z (available_power pi)).
  { intros i' j' pi' pj' Hi' Hj' Hwi' Hwj' Hij'.
    rewrite (wind_unchanged_by_loop plants target fuel stw st Hinvw El i' pi' Hi' Hwi').
    rewrite (wind_unchanged_by_loop plants target fuel stw st Hinvw El j' pj' Hj' Hwj').
    unfold stw, wind_pass, enumerate.
    refine (wind_in_order_from plants target plants 0 (initial_state plants target)
              eq_refl (fun ip H => H) _ _ _ _ i' j' pi' pj' Hi' Hj' Hwi' Hwj' Hij').
    - intros n _. cbn [initial_state production_plan_of]. now rewrite get_p_initial.
    - apply Inv_initial.
    - intros a b pa pb _ _ _ _ _. cbn [initial_state production_plan_of].
      rewrite get_p_initial. intro H. lra.
    - intros _ a pa _ _ Ha. lia. }
  destruct (final_adjustment_exact plants target st Hinv)
    as [->|(k & pk & v & Hk & Hlt & Hpos & Ev & _ & _ & ->)].
  - intro Hon. rewrite (Hw i j pi pj Hi Hj Hwi Hwj Hij Hon). lra.
  - (* the adjustment only raises the unit it moves *)
    pose proof (inv_sum _ _ _ Hinv) as Hs.
    assert (Hrem : 0 <= remaining_load st).
    { destruct (inv_nonneg _ _ _ Hinv) as [H|H]; [exact H|].
      specialize (H k). lra. }
    assert (Hon_before : 0 < get_p (set_p (production_plan_of st) k v) j ->
                         0 < get_p (production_plan_of st) j).
    { destruct (Nat.eq_dec k j) as [<-|Hne].
      - intros _. exact Hpos.
      - now rewrite get_p_set_p_other by exact Hne. }
    intro Hon. specialize (Hon_before Hon).
    pose proof (Hw i j pi pj Hi Hj Hwi Hwj Hij Hon_before) as Hav.
    destruct (Nat.eq_dec k i) as [<-|Hne].
    + rewrite get_p_set_p_same by exact Hlt. lra.
    + rewrite get_p_set_p_other by exact Hne. lra.
Qed.

Lemma wind_filled_in_order_witness :
  let w1 := mkPowerPlant "w1" "windturbine" 1 0 150 0 90 in
  let w2 := mkPowerPlant "w2" "windturbine" 1 0 36 0 21 in
  exists plan lg,
    _optimize_production 0 [w1; w2] 100 = Some (plan, lg) /\
    get_p plan 1 == 10 /\ inject_Z 90 <= get_p plan 0.
Proof.
  intros w1 w2.
  assert (E : exists plan lg,
             _optimize_production 0 [w1; w2] 100 = Some (plan, lg) /\
             get_p plan 1 == 10).
  { eexists. eexists. split; vm_compute; reflexivity. }
  destruct E as (plan & lg & E & Hp). exists plan, lg.
  repeat apply conj; auto.
  apply (wind_filled_in_order 0 [w1; w2] 100 plan lg E 0%nat 1%nat w1 w2);
    try reflexivity; [lia | rewrite Hp; reflexivity].
Defined.
